(** * cedar_terrace backend maintenance scripts: a verification development

    The scripts under [backend/] rewrite the integration test sources of the
    project, line by line, with substring tests, brace counting and a few
    regular expressions.  This file embeds the text transformations of

      - [add-submitted-by.py]          (module [AddSubmittedBy])
      - [add-derivations-v2.py]        (module [AddDerivationsV2])
      - [add-violation-derivation.py]  (module [AddViolationDerivation])
      - [fix-vehicle-fields.py]        (module [FixVehicleFields])
      - [fix-tests.py]                 (module [FixTests])
      - [fix-submit-response.py]       (module [FixSubmitResponse])
      - [fix-duplicate-obs.py]         (module [FixDuplicateObs])
      - [simple-fix.py]                (module [SimpleFix])

    together with the directory loop every script shares (module [Driver]),
    and proves the properties of the specification about them.

    Python values are modelled as follows.  A [str] is the list of its code
    points ([N]); a list of lines is a [list] of those; Python integers are
    [Z] where they can go negative (the brace counter) and [nat] where they
    are list indices.  A [while] loop is a fuelled iteration of its body over
    a record of the variables the loop assigns; an index out of range raises.
    The file system is a finite map from paths to contents, and every [open]
    and [print] is recorded in a trace.

    Part I has the embedding.  Part II has what the statements need beside
    it: each rewriting loop once more as a structural recursion over the
    lines (a walk), which Part III proves equal to the loop, the spans and
    windows of the specification as functions, and sample inputs.  Part III
    has the lemmas and, marked with the number of the claim, the
    properties.  Part IV has further properties of the scripts, read off
    the code: edge cases, reruns, and what the directory loop leaves on
    disk and in its report. *)

From Stdlib Require Import ZArith NArith String Ascii.
From stdpp Require Import base tactics option list gmap.

Set Default Proof Using "Type".

(* ===================================================================== *)
(** * Part I: definitions                                                 *)
(* ===================================================================== *)

(** ** Python strings *)

Module Py.

(** A Python [str]: the sequence of its Unicode code points. *)
Abbreviation str := (list N).

(** An ASCII literal of the source as a [str]. *)
Definition lit (s : string) : str := N_of_ascii <$> list_ascii_of_string s.

(** The newline character, written [\n] in the source. *)
Definition NL : N := 10%N.

(** [ch "x"] is the code point of a one-character literal. *)
Definition ch (a : ascii) : N := N_of_ascii a.

(** [c.isspace()] for one code point: the characters CPython's
    [Py_UNICODE_ISSPACE] accepts.  [str.strip()] and the regular
    expression class [\s] both use it. *)
Definition isspace (c : N) : bool :=
  ((9 <=? c) && (c <=? 13) || (28 <=? c) && (c <=? 32)
   || (c =? 133) || (c =? 160) || (c =? 5760)
   || (8192 <=? c) && (c <=? 8202)
   || (c =? 8232) || (c =? 8233) || (c =? 8239) || (c =? 8287)
   || (c =? 12288))%N.

(** [s.startswith(p)]. *)
Fixpoint startswith (p s : str) : bool :=
  match p, s with
  | [], _ => true
  | _ :: _, [] => false
  | a :: p', b :: s' => (a =? b)%N && startswith p' s'
  end.

(** [s.endswith(p)]. *)
Definition endswith (p s : str) : bool := startswith (reverse p) (reverse s).

(** [sub in s]: [sub] occurs in [s] as a contiguous substring. *)
Fixpoint contains (sub s : str) : bool :=
  startswith sub s ||
  match s with
  | [] => false
  | _ :: s' => contains sub s'
  end.

(** [s.count(c)] for a one-character [c]. *)
Fixpoint count (c : N) (s : str) : nat :=
  match s with
  | [] => 0
  | b :: s' => (if (b =? c)%N then 1 else 0) + count c s'
  end.

Fixpoint take_while (p : N → bool) (s : str) : str :=
  match s with
  | [] => []
  | c :: s' => if p c then c :: take_while p s' else []
  end.

Fixpoint drop_while (p : N → bool) (s : str) : str :=
  match s with
  | [] => []
  | c :: s' => if p c then drop_while p s' else s
  end.

(** [s.lstrip()], [s.rstrip()] and [s.strip()], without argument. *)
Definition lstrip (s : str) : str := drop_while isspace s.
Definition rstrip (s : str) : str := reverse (drop_while isspace (reverse s)).
Definition strip (s : str) : str := rstrip (lstrip s).

(** The white space [strip] removes before and after: [s] is [leading s],
    [strip s] and [trailing s] in a row. *)
Definition leading (s : str) : str := take_while isspace s.
Definition trailing (s : str) : str :=
  reverse (take_while isspace (reverse (lstrip s))).

(** [s.replace(old, new)]: every occurrence of [old], leftmost first and
    without overlap, becomes [new].  [skip] counts the characters of an
    occurrence that are still to be passed over.  With an empty [old]
    Python puts [new] before every character and at the end. *)
Fixpoint replace_from (old new : str) (skip : nat) (s : str) : str :=
  match s with
  | [] => []
  | c :: s' =>
      match skip with
      | S k => replace_from old new k s'
      | 0 => if startswith old s
             then new ++ replace_from old new (length old - 1) s'
             else c :: replace_from old new 0 s'
      end
  end.

Definition replace (old new s : str) : str :=
  match old with
  | [] => new ++ flat_map (λ c, c :: new) s
  | _ :: _ => replace_from old new 0 s
  end.

(** [s.split(sep)] for a one-character separator: never empty. *)
Fixpoint split (sep : N) (s : str) : list str :=
  match s with
  | [] => [[]]
  | c :: s' =>
      if (c =? sep)%N then [] :: split sep s'
      else match split sep s' with
           | [] => [[c]]
           | w :: ws => (c :: w) :: ws
           end
  end.

(** [sep.join(ls)]. *)
Fixpoint join (sep : str) (ls : list str) : str :=
  match ls with
  | [] => []
  | l :: ls' =>
      match ls' with
      | [] => l
      | _ :: _ => l ++ sep ++ join sep ls'
      end
  end.

(** [f.readlines()] on the text [s]: the lines with their newline kept;
    the last line has none when the text does not end in one. *)
Fixpoint readlines (s : str) : list str :=
  match s with
  | [] => []
  | c :: s' =>
      if (c =? NL)%N then [c] :: readlines s'
      else match readlines s' with
           | [] => [[c]]
           | w :: ws => (c :: w) :: ws
           end
  end.

(** [f.writelines(ls)] writes the concatenation of [ls]. *)
Definition writelines (ls : list str) : str := concat ls.

(** What running a piece of Python yields: a value, an exception, or no
    answer within the fuel given to its loops. *)
Inductive outcome (A : Type) : Type :=
| Returned (a : A)
| Raised
| OutOfFuel.
Global Arguments Returned {A} a.
Global Arguments Raised {A}.
Global Arguments OutOfFuel {A}.

Global Instance outcome_ret : MRet outcome := λ A a, Returned a.
Global Instance outcome_bind : MBind outcome := λ A B f m,
  match m with
  | Returned a => f a
  | Raised => Raised
  | OutOfFuel => OutOfFuel
  end.

(** [ls[i]]: an [IndexError] out of range. *)
Definition index {A} (ls : list A) (i : nat) : outcome A :=
  match ls !! i with
  | Some x => Returned x
  | None => Raised
  end.

(** [ls[-1]]. *)
Definition index_last {A} (ls : list A) : outcome A :=
  match last ls with
  | Some x => Returned x
  | None => Raised
  end.

(** [ls[-1] = x]. *)
Definition set_last {A} (ls : list A) (x : A) : outcome (list A) :=
  match ls with
  | [] => Raised
  | _ :: _ => Returned (<[length ls - 1 := x]> ls)
  end.

(** [while cond: body] over a state [S] of assigned variables. *)
Fixpoint while {S : Type} (fuel : nat) (cond : S → bool)
    (body : S → outcome S) (s : S) : outcome S :=
  match fuel with
  | 0 => OutOfFuel
  | Datatypes.S fuel' =>
      if cond s then s' ← body s; while fuel' cond body s'
      else Returned s
  end.

(** How a loop body ends: at its last statement or at a [break]. *)
Inductive ctrl (S : Type) : Type :=
| Next (s : S)
| Break (s : S).
Global Arguments Next {S} s.
Global Arguments Break {S} s.

(** [while cond: body] where [body] may [break]. *)
Fixpoint while_break {S : Type} (fuel : nat) (cond : S → bool)
    (body : S → outcome (ctrl S)) (s : S) : outcome S :=
  match fuel with
  | 0 => OutOfFuel
  | Datatypes.S fuel' =>
      if cond s then
        c ← body s;
        match c with
        | Next s' => while_break fuel' cond body s'
        | Break s' => Returned s'
        end
      else Returned s
  end.

(** [any(p(ls[j]) for j in range(a, b))], the shape of the look-ahead
    loops: [for j in range(a, b): if p(ls[j]): found = True; break]. *)
Fixpoint any_in_range {A} (p : A → bool) (ls : list A) (a n : nat)
    : outcome bool :=
  match n with
  | 0 => Returned false
  | Datatypes.S n' =>
      x ← index ls a;
      if p x then Returned true else any_in_range p ls (Datatypes.S a) n'
  end.

End Py.

Import Py.

(** ** add-submitted-by.py

    The function [add_test_user] that lines 19 to 25 define is never
    called; the transformation is the loop of lines 29 to 60. *)

Module AddSubmittedBy.

Definition SUBMIT_OPEN : str := lit "await observationService.submit({".
Definition CLOSE_STMT : str := lit "});".
Definition CLOSE_ITEM : str := lit "}),".
Definition CLOSE_STMT_USER : str := lit "}, 'test-user');".
Definition CLOSE_ITEM_USER : str := lit "}, 'test-user'),".

(** [line.count('{') - line.count('}')]. *)
Definition brace_delta (line : str) : Z :=
  (Z.of_nat (count (ch "{") line) - Z.of_nat (count (ch "}") line))%Z.

(** The variables of the inner loop (lines 42 to 45). *)
Record collect_state := CollectState {
  c_i : nat;
  brace_count : Z;
  call_lines : list str
}.

Definition collect_cond (lines : list str) (s : collect_state) : bool :=
  bool_decide (c_i s < length lines) && bool_decide (0 < brace_count s)%Z.

Definition collect_body (lines : list str) (s : collect_state)
    : outcome collect_state :=
  l ← index lines (c_i s);
  mret (CollectState (S (c_i s)) (brace_count s + brace_delta l)
                     (call_lines s ++ [l])).

(** Lines 38 to 45: the span collector, from the start line [line] at
    index [i]. *)
Definition collect (fuel : nat) (lines : list str) (i : nat) (line : str)
    : outcome collect_state :=
  while fuel (collect_cond lines) (collect_body lines)
    (CollectState (S i) (brace_delta line) [line]).

(** Lines 47 to 53: the rewrite of the last line of the span. *)
Definition add_user (call_lines : list str) : outcome (list str) :=
  last_line ← index_last call_lines;
  if bool_decide (strip last_line = CLOSE_STMT) then
    set_last call_lines (replace CLOSE_STMT CLOSE_STMT_USER last_line)
  else if bool_decide (strip last_line = CLOSE_ITEM) then
    set_last call_lines (replace CLOSE_ITEM CLOSE_ITEM_USER last_line)
  else mret call_lines.

(** The variables of the outer loop (lines 33 to 58). *)
Record state := State {
  i : nat;
  result_lines : list str
}.

Definition main_cond (lines : list str) (s : state) : bool :=
  bool_decide (i s < length lines).

Definition main_body (fuel : nat) (lines : list str) (s : state)
    : outcome state :=
  line ← index lines (i s);
  if contains SUBMIT_OPEN line then
    c ← collect fuel lines (i s) line;
    call_lines' ← add_user (call_lines c);
    mret (State (c_i c) (result_lines s ++ call_lines'))
  else
    mret (State (S (i s)) (result_lines s ++ [line])).

(** Lines 30 to 58 on the list of lines. *)
Definition rewrite_lines (fuel : nat) (lines : list str)
    : outcome (list str) :=
  s ← while fuel (main_cond lines) (main_body fuel lines) (State 0 []);
  mret (result_lines s).

(** Lines 29 to 60: the new content of a file. *)
Definition transform_with (fuel : nat) (content : str) : outcome str :=
  result ← rewrite_lines fuel (split NL content);
  mret (join [NL] result).

(** Every loop advances its index by one line each round, so one more
    round than there are lines is enough. *)
Definition transform (content : str) : outcome str :=
  transform_with (S (length (split NL content))) content.

End AddSubmittedBy.

(** The function of lines 19 to 25 of add-submitted-by.py.  It is written
    for [re.sub] and reads of its match object the matched text
    [match.group(0)] only, which is its argument here. *)

Module AddTestUser.

(** [", 'test-user');"] and the same with double quotes. *)
Definition SINGLE : str := lit ", 'test-user');".
Definition DOUBLE : str :=
  lit ", " ++ [34%N] ++ lit "test-user" ++ [34%N] ++ lit ");".

(** [full_match[:-2]] is the text without its last two characters, and
    empty for a text of less than two. *)
Definition add_test_user (full_match : str) : str :=
  if endswith SINGLE full_match || endswith DOUBLE full_match
  then full_match
  else take (length full_match - 2) full_match ++ SINGLE.

End AddTestUser.


(** ** Regular expressions *)

Module Re.

(** The fragment of [re] the scripts use: character classes, sequence,
    alternation and repetition.  [Empty] matches nothing; it is what is
    left of an expression after a character it cannot read. *)
Inductive regex : Type :=
| Empty
| Eps
| Cls (p : N → bool)
| Seq (r1 r2 : regex)
| Alt (r1 r2 : regex)
| Star (r : regex).

Fixpoint nullable (r : regex) : bool :=
  match r with
  | Empty => false
  | Eps => true
  | Cls _ => false
  | Seq r1 r2 => nullable r1 && nullable r2
  | Alt r1 r2 => nullable r1 || nullable r2
  | Star _ => true
  end.

Definition seq' (r1 r2 : regex) : regex :=
  match r1 with
  | Empty => Empty
  | Eps => r2
  | _ => match r2 with Empty => Empty | _ => Seq r1 r2 end
  end.

Definition alt' (r1 r2 : regex) : regex :=
  match r1 with
  | Empty => r2
  | _ => match r2 with Empty => r1 | _ => Alt r1 r2 end
  end.

(** What remains of [r] once it has read the character [c]. *)
Fixpoint deriv (c : N) (r : regex) : regex :=
  match r with
  | Empty => Empty
  | Eps => Empty
  | Cls p => if p c then Eps else Empty
  | Seq r1 r2 =>
      alt' (seq' (deriv c r1) r2) (if nullable r1 then deriv c r2 else Empty)
  | Alt r1 r2 => alt' (deriv c r1) (deriv c r2)
  | Star r1 => seq' (deriv c r1) (Star r1)
  end.

(** [re.match(r, s) is not None]: some prefix of [s] matches [r]. *)
Fixpoint re_match (r : regex) (s : str) : bool :=
  nullable r ||
  match s with
  | [] => false
  | c :: s' => re_match (deriv c r) s'
  end.

(** A literal text. *)
Fixpoint Lit (s : str) : regex :=
  match s with
  | [] => Eps
  | c :: s' => Seq (Cls (N.eqb c)) (Lit s')
  end.

Definition Plus (r : regex) : regex := Seq r (Star r).

(** [[abc]]: one of the characters of [s]. *)
Definition OneOf (s : str) : regex := Cls (λ c, bool_decide (c ∈ s)).

Fixpoint Seqs (rs : list regex) : regex :=
  match rs with
  | [] => Eps
  | r :: rs' => Seq r (Seqs rs')
  end.

(** [\w] on a [str] pattern is an alphanumeric character or the
    underscore.  Below 128 these are the ASCII letters and digits; the
    table of the alphanumeric characters above is Unicode's and is taken
    as [ualnum]. *)
Definition isalnum_ascii (c : N) : bool :=
  ((48 <=? c) && (c <=? 57) || (65 <=? c) && (c <=? 90)
   || (97 <=? c) && (c <=? 122))%N.

Definition isword (ualnum : N → bool) (c : N) : bool :=
  if (c <? 128)%N then isalnum_ascii c || (c =? ch "_")%N else ualnum c.

End Re.

Import Re.

(** ** add-derivations-v2.py *)

Module AddDerivationsV2.

Section WithUnicodeTable.

Variable ualnum : N → bool.

Let w : regex := Cls (isword ualnum).
Let s : regex := Cls isspace.

(** Line 26, the pattern of a submit assigned to an observation id,
    here with its parts set apart by blanks:
    [\s* (const|let|var) \s+ ( \w* [Oo]bs \w* [Ii]d \w* ) \s* = \s* await observationService\.submit\( ] *)
Definition SUBMIT_ASSIGN : regex :=
  Seqs [ Star s;
         Alt (Lit (lit "const")) (Alt (Lit (lit "let")) (Lit (lit "var")));
         Plus s;
         Seqs [Star w; OneOf (lit "Oo"); Lit (lit "bs"); Star w;
               OneOf (lit "Ii"); Lit (lit "d"); Star w];
         Star s; Lit (lit "="); Star s;
         Lit (lit "await observationService.submit(") ].

(** The keyword of [(const|let|var)] at the head of [t], and what
    follows it. *)
Definition after_keyword (t : str) : option str :=
  if startswith (lit "const") t then Some (drop 5 t)
  else if startswith (lit "let") t then Some (drop 3 t)
  else if startswith (lit "var") t then Some (drop 3 t)
  else None.

(** Lines 28 and 29: group 2 of [\s*(const|let|var)\s+(\w+)] matched at
    the head of the line, or ['observationId'] without a match.  Every
    repetition is followed by a character outside its class, so the
    match reads all the spaces, the keyword, all the spaces (one at
    least), and the longest run of word characters (one at least). *)
Definition var_name (line : str) : str :=
  let t := drop_while isspace line in
  match after_keyword t with
  | Some u =>
      let v := drop_while isspace u in
      let name := take_while (isword ualnum) v in
      if bool_decide (length v < length u) && bool_decide (name ≠ [])
      then name
      else lit "observationId"
  | None => lit "observationId"
  end.

Definition TERMINATOR : str := lit ");".
Definition MARKER : str := lit "deriveFromObservation".

(** Lines 46 to 52: the seven lines appended for the variable [v]. *)
Definition derivation (v : str) : list str :=
  [ [NL];
    lit "      // Derive violations (as done by API)" ++ [NL];
    lit "      const obs = await observationService.getById(" ++ v
      ++ lit ");" ++ [NL];
    lit "      if (obs && obs.parkingPositionId) {" ++ [NL];
    lit "        const position = await parkingPositionService.getById(obs.parkingPositionId);" ++ [NL];
    lit "        await violationService.deriveFromObservation(obs, position, 'test-user');" ++ [NL];
    lit "      }" ++ [NL] ].

(** The variables of both loops. *)
Record state := State {
  i : nat;
  result : list str
}.

(** Line 33: [i < len(lines) and ');' not in lines[i-1]].  The index
    [i] has been incremented before, so [i-1] is not negative. *)
Definition scan_cond (lines : list str) (st : state) : bool :=
  bool_decide (i st < length lines) &&
  match lines !! (i st - 1) with
  | Some l => negb (contains TERMINATOR l)
  | None => false
  end.

Definition scan_body (lines : list str) (st : state) : outcome state :=
  l ← index lines (i st);
  mret (State (S (i st)) (result st ++ [l])).

(** Lines 38 to 42. *)
Definition has_derivation (lines : list str) (i : nat) : outcome bool :=
  any_in_range (contains MARKER) lines i
    (Nat.min (i + 10) (length lines) - i).

Definition main_cond (lines : list str) (st : state) : bool :=
  bool_decide (i st < length lines).

Definition main_body (fuel : nat) (lines : list str) (st : state)
    : outcome state :=
  line ← index lines (i st);
  let appended := result st ++ [line] in
  if re_match SUBMIT_ASSIGN line then
    let v := var_name line in
    st' ← while fuel (scan_cond lines) (scan_body lines)
            (State (S (i st)) appended);
    found ← has_derivation lines (i st');
    if negb found
    then mret (State (i st') (result st' ++ derivation v))
    else mret st'
  else
    mret (State (S (i st)) appended).

(** Lines 17 to 56 on the list of lines. *)
Definition rewrite_lines (fuel : nat) (lines : list str)
    : outcome (list str) :=
  st ← while fuel (main_cond lines) (main_body fuel lines) (State 0 []);
  mret (result st).

(** Lines 14 to 59: the new content of a file. *)
Definition transform_with (fuel : nat) (content : str) : outcome str :=
  result ← rewrite_lines fuel (readlines content);
  mret (writelines result).

Definition transform (content : str) : outcome str :=
  transform_with (S (length (readlines content))) content.

End WithUnicodeTable.

End AddDerivationsV2.

(** ** add-violation-derivation.py *)

Module AddViolationDerivation.

Definition SUBMIT_CALL : str := lit "await observationService.submit(".
Definition TERMINATOR : str := lit ");".
Definition OBSERVATION_ID : str := lit "observationId".
Definition MARKER : str := lit "deriveFromObservation".

(** Lines 7 to 13: the triple-quoted text opens with a newline and has
    none at its end. *)
Definition derivation_code : str :=
  [NL] ++ lit "      // Derive violations (as done by API)" ++
  [NL] ++ lit "      const obs = await observationService.getById(observationId);" ++
  [NL] ++ lit "      if (obs && obs.parkingPositionId) {" ++
  [NL] ++ lit "        const position = await parkingPositionService.getById(obs.parkingPositionId);" ++
  [NL] ++ lit "        await violationService.deriveFromObservation(obs, position, 'test-user');" ++
  [NL] ++ lit "      }".

(** The variables of the loops. *)
Record state := State {
  i : nat;
  result_lines : list str;
  submit_lines : list str
}.

(** Lines 43 to 47. *)
Definition has_derivation (lines : list str) (i : nat) : outcome bool :=
  any_in_range (contains MARKER) lines (i + 1)
    (Nat.min (i + 5) (length lines) - (i + 1)).

Definition scan_cond (lines : list str) (st : state) : bool :=
  bool_decide (i st < length lines).

(** Lines 36 to 53. *)
Definition scan_body (lines : list str) (st : state)
    : outcome (ctrl state) :=
  l ← index lines (i st);
  let collected := submit_lines st ++ [l] in
  if contains TERMINATOR l then
    let appended := result_lines st ++ [l] in
    if contains OBSERVATION_ID (concat collected) then
      found ← has_derivation lines (i st);
      if negb found
      then mret (Break (State (i st)
                          (appended ++ [derivation_code ++ [NL]])
                          collected))
      else mret (Break (State (i st) appended collected))
    else mret (Break (State (i st) appended collected))
  else
    mret (Next (State (S (i st)) (result_lines st ++ [l]) collected)).

Definition main_cond (lines : list str) (st : state) : bool :=
  bool_decide (i st < length lines).

(** Lines 26 to 55. *)
Definition main_body (fuel : nat) (lines : list str) (st : state)
    : outcome state :=
  line ← index lines (i st);
  let appended := result_lines st ++ [line] in
  if contains SUBMIT_CALL line then
    st' ← while_break fuel (scan_cond lines) (scan_body lines)
            (State (S (i st)) appended [line]);
    mret (State (S (i st')) (result_lines st') (submit_lines st'))
  else
    mret (State (S (i st)) appended (submit_lines st)).

(** Lines 22 to 55 on the list of lines. *)
Definition rewrite_lines (fuel : nat) (lines : list str)
    : outcome (list str) :=
  st ← while fuel (main_cond lines) (main_body fuel lines) (State 0 [] []);
  mret (result_lines st).

(** Lines 19 to 58: the new content of a file. *)
Definition transform_with (fuel : nat) (content : str) : outcome str :=
  result ← rewrite_lines fuel (readlines content);
  mret (writelines result).

Definition transform (content : str) : outcome str :=
  transform_with (S (length (readlines content))) content.

End AddViolationDerivation.

(** ** fix-vehicle-fields.py *)

Module FixVehicleFields.

(** Lines 8 to 12, in the order of the dictionary's entries. *)
Definition vehicle_map : list (str * (str * str)) :=
  [ (lit "context.vehicleIds.abc123",
     (lit "licensePlate: 'ABC123'," ++ [NL] ++ lit "        issuingState: 'CA',",
      lit "ABC123"));
    (lit "context.vehicleIds.xyz789",
     (lit "licensePlate: 'XYZ789'," ++ [NL] ++ lit "        issuingState: 'WA',",
      lit "XYZ789"));
    (lit "context.vehicleIds.def456",
     (lit "licensePlate: 'DEF456'," ++ [NL] ++ lit "        issuingState: 'OR',",
      lit "DEF456")) ].

(** The text the pattern [rf'vehicleId: {re.escape(vehicle_ref)},'] of
    line 24 matches: [re.escape] makes every character of the reference
    stand for itself, and the rest of the pattern has no operator. *)
Definition pattern_text (vehicle_ref : str) : str :=
  lit "vehicleId: " ++ vehicle_ref ++ lit ",".

(** [re.sub(pattern, replacement, content)] for a pattern that is one
    fixed text and a replacement without backslash: the occurrences are
    replaced leftmost first and without overlap, as [str.replace] does. *)
Definition sub_text (pattern replacement content : str) : str :=
  replace pattern replacement content.

(** Lines 22 to 27. *)
Definition transform (content : str) : str :=
  foldl (λ content '(vehicle_ref, (replacement, plate)),
           sub_text (pattern_text vehicle_ref) replacement content)
        content vehicle_map.

End FixVehicleFields.

(** ** fix-tests.py *)

Module FixTests.

Definition SUBMIT_OPEN : str := lit "await observationService.submit({".

(** A match of [(await observationService\.submit\(\{[^}]+\}\))t] at the
    head of [s], for the closing character [t]: group 1 and the length of
    the match.  [[^}]+] reads every character up to the next closing
    brace, newlines too, and a closing brace has to follow it, so there
    is one way to match at most. *)
Definition match_call (t : N) (s : str) : option (str * nat) :=
  if startswith SUBMIT_OPEN s then
    let s1 := drop (length SUBMIT_OPEN) s in
    let body := take_while (λ c, negb (c =? ch "}")%N) s1 in
    let s2 := drop (length body) s1 in
    if bool_decide (body ≠ []) && startswith (lit "})" ++ [t]) s2
    then Some (SUBMIT_OPEN ++ body ++ lit "})",
               length SUBMIT_OPEN + length body + 3)
    else None
  else None.

(** [re.sub] with the template [\1] followed by [tail]: the matches are
    taken leftmost first, each search starting where the last match
    ended.  [skip] counts the characters of a match still to pass. *)
Fixpoint sub_from (t : N) (tail : str) (skip : nat) (s : str) : str :=
  match s with
  | [] => []
  | c :: s' =>
      match skip with
      | S k => sub_from t tail k s'
      | 0 =>
          match match_call t s with
          | Some (group1, n) => group1 ++ tail ++ sub_from t tail (n - 1) s'
          | None => c :: sub_from t tail 0 s'
          end
      end
  end.

(** Lines 17 to 30. *)
Definition transform (content : str) : str :=
  let content := sub_from (ch ",") (lit ", 'test-user'),") 0 content in
  sub_from (ch ";") (lit ", 'test-user');") 0 content.

End FixTests.

(** ** The directory loop *)

Module Driver.

(** What a run does to the outside world, in order. *)
Inductive event : Type :=
| EvRead (path : str)
| EvWrite (path content : str)
| EvPrint (message : str).

(** The files by path, and the names [os.listdir(test_dir)] yields, in
    the order it yields them. *)
Record disk := Disk {
  listing : list str;
  files : gmap str str
}.

Definition test_dir : str := lit "src/test".
Definition SUFFIX : str := lit ".integration.test.ts".

(** [os.path.join(a, b)] on POSIX. *)
Definition path_join (a b : str) : str :=
  if startswith (lit "/") b then b
  else if bool_decide (a = []) || endswith (lit "/") a then a ++ b
  else a ++ lit "/" ++ b.

(** The variables of a run: the files and the trace so far. *)
Record state := State {
  contents : gmap str str;
  trace : list event
}.

(** One file: lines 9 to 63 of add-submitted-by.py and their like in the
    other scripts.  [verbose] scripts print before and after. *)
Definition process_file (verbose : bool) (transform : str → outcome str)
    (filename : str) (st : state) : outcome state :=
  let filepath := path_join test_dir filename in
  let before := if verbose
                then [EvPrint (lit "Processing " ++ filename ++ lit "...")]
                else [] in
  let after := if verbose
               then [EvPrint (lit "Completed " ++ filename)]
               else [] in
  match contents st !! filepath with
  | None => Raised
  | Some content =>
      content' ← transform content;
      mret (State (<[filepath := content']> (contents st))
                  (trace st ++ before ++ [EvRead filepath]
                     ++ [EvWrite filepath content'] ++ after))
  end.

(** [for filename in os.listdir(test_dir)]. *)
Fixpoint for_each_file (verbose : bool) (transform : str → outcome str)
    (names : list str) (st : state) : outcome state :=
  match names with
  | [] => mret st
  | filename :: names' =>
      st' ← (if endswith SUFFIX filename
             then process_file verbose transform filename st
             else mret st);
      for_each_file verbose transform names' st'
  end.

(** A whole script. *)
Definition run (verbose : bool) (final : str)
    (transform : str → outcome str) (d : disk) : outcome state :=
  st ← for_each_file verbose transform (listing d) (State (files d) []);
  mret (State (contents st) (trace st ++ [EvPrint final])).

Definition fix_vehicle_fields : disk → outcome state :=
  run false (lit "Fixed all test files")
      (λ content, mret (FixVehicleFields.transform content)).

Definition add_submitted_by : disk → outcome state :=
  run false (lit "Fixed all test files") AddSubmittedBy.transform.

Definition add_derivations_v2 (ualnum : N → bool) : disk → outcome state :=
  run true (lit "All files processed!") (AddDerivationsV2.transform ualnum).

Definition add_violation_derivation : disk → outcome state :=
  run false (lit "Added violation derivation calls")
      AddViolationDerivation.transform.

Definition fix_tests : disk → outcome state :=
  run false (lit "Fixed all test files")
      (λ content, mret (FixTests.transform content)).

End Driver.

(** ** fix-submit-response.py *)

Module FixSubmitResponse.

Definition SUBMIT_CALL : str := lit "await observationService.submit(".
Definition TERMINATOR : str := lit ");".
Definition DERIVE_COMMENT : str := lit "// Derive violations".
Definition MARKER : str := lit "deriveFromObservation".

(** The keyword of [(const|let|var)] at the head of [s]. *)
Definition keyword (s : str) : option str :=
  if startswith (lit "const") s then Some (lit "const")
  else if startswith (lit "let") s then Some (lit "let")
  else if startswith (lit "var") s then Some (lit "var")
  else None.

(** [re.fullmatch(r, s) is not None]: the whole of [s] matches [r]. *)
Fixpoint re_full (r : regex) (s : str) : bool :=
  match s with
  | [] => nullable r
  | c :: s' => re_full (deriv c r) s'
  end.

Section WithUnicodeTable.

Variable ualnum : N → bool.

Let w : regex := Cls (isword ualnum).

(** The name of the patterns of lines 30 and 38, [\w*[Oo]bs\w*[Ii]d\w*]. *)
Definition OBS_ID : regex :=
  Seqs [Star w; OneOf (lit "Oo"); Lit (lit "bs"); Star w;
        OneOf (lit "Ii"); Lit (lit "d"); Star w].

(** A match of line 38's pattern, here with its parts set apart by
    blanks, [ (const|let|var) \s+ ( \w* [Oo]bs \w* [Ii]d \w* ) \s* = ], at
    the head of [s]: its two groups and its length.  The three keywords
    open with three letters, so one at most is read.  A character is of
    one class at most of blank, word character and [=], so that the
    blanks are read to their end, then the word characters to theirs,
    which have to be a name of the pattern as a whole, then the blanks
    again; there is one way to match at most. *)
Definition match_decl (s : str) : option (str * str * nat) :=
  match keyword s with
  | Some var_type =>
      let s1 := drop (length var_type) s in
      let blanks := take_while isspace s1 in
      let s2 := drop (length blanks) s1 in
      let var_name := take_while (isword ualnum) s2 in
      let s3 := drop (length var_name) s2 in
      let blanks' := take_while isspace s3 in
      let s4 := drop (length blanks') s3 in
      if bool_decide (blanks ≠ []) && re_full OBS_ID var_name
         && startswith (lit "=") s4
      then Some (var_type, var_name,
                 length var_type + length blanks + length var_name
                 + length blanks' + 1)
      else None
  | None => None
  end.

(** Line 30: the three groups of the pattern
    [ ( \s* ) (const|let|var) \s+ ( \w* [Oo]bs \w* [Ii]d \w* ) \s* = \s* await observationService\.submit\( ]
    matched at the head of the line.  The first group is the blanks the
    line opens with, all of them since a keyword follows; then comes a
    match of the pattern of line 38, blanks, and the call. *)
Definition groups (line : str) : option (str * str * str) :=
  let indent := take_while isspace line in
  match match_decl (drop (length indent) line) with
  | Some (var_type, var_name, n) =>
      let rest := drop n (drop (length indent) line) in
      if startswith SUBMIT_CALL (drop_while isspace rest)
      then Some (indent, var_type, var_name)
      else None
  | None => None
  end.

(** [re.sub] of line 38's pattern by a text without backslash: the
    matches are taken leftmost first, each search starting where the last
    match ended.  [skip] counts the characters of a match still to
    pass. *)
Fixpoint sub_decl (repl : str) (skip : nat) (s : str) : str :=
  match s with
  | [] => []
  | c :: s' =>
      match skip with
      | S k => sub_decl repl k s'
      | 0 =>
          match match_decl s with
          | Some (_, _, n) => repl ++ sub_decl repl (n - 1) s'
          | None => c :: sub_decl repl 0 s'
          end
      end
  end.

(** Lines 37 to 41. *)
Definition new_line (var_type var_name line : str) : str :=
  sub_decl (var_type ++ lit " _result_" ++ var_name ++ lit " =") 0 line.

(** Line 51. *)
Definition extract_line (indent var_name : str) : str :=
  indent ++ lit "const " ++ var_name ++ lit " = _result_" ++ var_name
    ++ lit ".observationId;" ++ [NL].

(** A match of line 62's
    [const (_obs_\w+) = await observationService\.getById\((\w+)\);] at
    the head of [s]: its first group and its length.  Both names are
    followed by a character that is no word character, so they are read
    to their end. *)
Definition match_get (s : str) : option (str * nat) :=
  let open := lit "const _obs_" in
  let call := lit " = await observationService.getById(" in
  if startswith open s then
    let s1 := drop (length open) s in
    let name := take_while (isword ualnum) s1 in
    let s2 := drop (length name) s1 in
    if bool_decide (name ≠ []) && startswith call s2 then
      let s3 := drop (length call) s2 in
      let arg := take_while (isword ualnum) s3 in
      let s4 := drop (length arg) s3 in
      if bool_decide (arg ≠ []) && startswith (lit ");") s4
      then Some (lit "_obs_" ++ name,
                 length open + length name + length call + length arg + 2)
      else None
    else None
  else None.

(** Lines 61 to 65: [re.sub] with the template
    [const \1 = await observationService.getById(var_name);]. *)
Fixpoint sub_get (var_name : str) (skip : nat) (s : str) : str :=
  match s with
  | [] => []
  | c :: s' =>
      match skip with
      | S k => sub_get var_name k s'
      | 0 =>
          match match_get s with
          | Some (group1, n) =>
              lit "const " ++ group1
                ++ lit " = await observationService.getById(" ++ var_name
                ++ lit ");" ++ sub_get var_name (n - 1) s'
          | None => c :: sub_get var_name 0 s'
          end
      end
  end.

(** The variables of the loops. *)
Record state := State {
  i : nat;
  result_lines : list str
}.

(** Line 47: [i < len(lines) and ');' not in lines[i-1]].  The index
    [i] has been incremented before, so [i-1] is not negative. *)
Definition scan_cond (lines : list str) (st : state) : bool :=
  bool_decide (i st < length lines) &&
  match lines !! (i st - 1) with
  | Some l => negb (contains TERMINATOR l)
  | None => false
  end.

(** Lines 48 and 49. *)
Definition scan_body (lines : list str) (st : state) : outcome state :=
  l ← index lines (i st);
  mret (State (S (i st)) (result_lines st ++ [l])).

(** What line 70 asks of [lines[i]]: it is not blank and opens neither a
    comment nor an [expect]. *)
Definition block_line (l : str) : bool :=
  bool_decide (strip l ≠ [])
  && negb (startswith (lit "//") (strip l))
  && negb (startswith (lit "expect") (strip l)).

Definition block_cond (lines : list str) (st : state) : bool :=
  bool_decide (i st < length lines) &&
  match lines !! i st with
  | Some l => block_line l
  | None => false
  end.

(** Lines 71 to 74. *)
Definition block_body (lines : list str) (st : state)
    : outcome (ctrl state) :=
  l ← index lines (i st);
  let st' := State (S (i st)) (result_lines st ++ [l]) in
  p ← index lines (i st' - 1);
  if contains MARKER p then mret (Break st') else mret (Next st').

Definition main_cond (lines : list str) (st : state) : bool :=
  bool_decide (i st < length lines).

(** Lines 27 to 79.  The [continue] of line 76 belongs to the branch of
    line 55; without the comment of the derivation block after the span
    the body goes on to lines 78 and 79, which append the start line as
    it was and pass the line after the span. *)
Definition main_body (fuel : nat) (lines : list str) (st : state)
    : outcome state :=
  line ← index lines (i st);
  match groups line with
  | Some (indent, var_type, var_name) =>
      st1 ← while fuel (scan_cond lines) (scan_body lines)
              (State (S (i st))
                 (result_lines st ++ [new_line var_type var_name line]));
      let extracted := result_lines st1 ++ [extract_line indent var_name] in
      let last_lines := mret (State (S (i st1)) (extracted ++ [line])) in
      if bool_decide (i st1 < length lines) then
        comment ← index lines (i st1);
        if contains DERIVE_COMMENT comment then
          let st2 := State (S (i st1)) (extracted ++ [comment]) in
          if bool_decide (i st2 < length lines) then
            derive_line ← index lines (i st2);
            while_break fuel (block_cond lines) (block_body lines)
              (State (S (i st2))
                 (result_lines st2 ++ [sub_get var_name 0 derive_line]))
          else mret st2
        else last_lines
      else last_lines
  | None => mret (State (S (i st)) (result_lines st ++ [line]))
  end.

(** Lines 22 to 79 on the list of lines. *)
Definition rewrite_lines (fuel : nat) (lines : list str)
    : outcome (list str) :=
  st ← while fuel (main_cond lines) (main_body fuel lines) (State 0 []);
  mret (result_lines st).

(** Lines 14 to 82: the new content of a file. *)
Definition transform_with (fuel : nat) (content : str) : outcome str :=
  result ← rewrite_lines fuel (split NL content);
  mret (join [NL] result).

Definition transform (content : str) : outcome str :=
  transform_with (S (length (split NL content))) content.

End WithUnicodeTable.

(** The whole script: it prints before and after every file. *)
Definition fix_submit_response (ualnum : N → bool)
    : Driver.disk → outcome Driver.state :=
  Driver.run true (lit "All files processed!") (transform ualnum).

End FixSubmitResponse.

(** ** fix-duplicate-obs.py *)

Module FixDuplicateObs.

(** Line 33, the pattern up to its group and after it.  Every character
    of the pattern but the group stands for itself. *)
Definition BLOCK_OPEN : str :=
  lit "      // Derive violations (as done by API)" ++ [NL]
  ++ lit "      const obs = await observationService.getById(".

Definition BLOCK_CLOSE : str :=
  lit ");" ++ [NL]
  ++ lit "      if (obs && obs.parkingPositionId) {" ++ [NL]
  ++ lit "        const position = await parkingPositionService.getById(obs.parkingPositionId);" ++ [NL]
  ++ lit "        await violationService.deriveFromObservation(obs, position, 'test-user');" ++ [NL]
  ++ lit "      }".

(** Lines 20 to 30, on the first group of the match. *)
Definition replace_derive_block (obs_var : str) : str :=
  let temp_var := lit "_obs_" ++ obs_var in
  lit "      // Derive violations (as done by API)" ++ [NL]
  ++ lit "      const " ++ temp_var
  ++ lit " = await observationService.getById(" ++ obs_var ++ lit ");" ++ [NL]
  ++ lit "      if (" ++ temp_var ++ lit " && " ++ temp_var
  ++ lit ".parkingPositionId) {" ++ [NL]
  ++ lit "        const _pos_" ++ obs_var
  ++ lit " = await parkingPositionService.getById(" ++ temp_var
  ++ lit ".parkingPositionId);" ++ [NL]
  ++ lit "        await violationService.deriveFromObservation(" ++ temp_var
  ++ lit ", _pos_" ++ obs_var ++ lit ", 'test-user');" ++ [NL]
  ++ lit "      }".

Section WithUnicodeTable.

Variable ualnum : N → bool.

(** A match of the pattern at the head of [s]: its group and its length.
    The group is followed by a closing parenthesis, which is no word
    character, so it is read to its end. *)
Definition match_block (s : str) : option (str * nat) :=
  if startswith BLOCK_OPEN s then
    let s1 := drop (length BLOCK_OPEN) s in
    let obs_var := take_while (isword ualnum) s1 in
    if bool_decide (obs_var ≠ [])
       && startswith BLOCK_CLOSE (drop (length obs_var) s1)
    then Some (obs_var,
               length BLOCK_OPEN + length obs_var + length BLOCK_CLOSE)
    else None
  else None.

(** Line 35: [re.sub] with the function of line 20.  [skip] counts the
    characters of a match still to pass. *)
Fixpoint sub_block (skip : nat) (s : str) : str :=
  match s with
  | [] => []
  | c :: s' =>
      match skip with
      | S k => sub_block k s'
      | 0 =>
          match match_block s with
          | Some (obs_var, n) =>
              replace_derive_block obs_var ++ sub_block (n - 1) s'
          | None => c :: sub_block 0 s'
          end
      end
  end.

Definition transform (content : str) : str := sub_block 0 content.

End WithUnicodeTable.

(** The whole script. *)
Definition fix_duplicate_obs (ualnum : N → bool)
    : Driver.disk → outcome Driver.state :=
  Driver.run true (lit "All files processed!")
    (λ content, mret (transform ualnum content)).

End FixDuplicateObs.

(** ** simple-fix.py *)

Module SimpleFix.

Definition CONST_RESULT_CALL : str :=
  lit "const result = await observationService.submit(".
Definition RESULT_CALL : str := lit "result = await observationService.submit(".
Definition TERMINATOR : str := lit ");".
Definition EXTRACTED : str := lit "observationId = result.observationId".
Definition EXTRACTION : str := lit "const observationId = result.observationId;".

(** Lines 61 to 65: a pattern in which every character stands for itself,
    and its replacement. *)
Definition GET_RESULT : str :=
  lit "const _obs_result = await observationService.getById(result.observationId);".
Definition GET_OBSERVATION : str :=
  lit "const _obs = await observationService.getById(observationId);".

(** Lines 67 to 83: the texts around the [\w+] of the three patterns, and
    the three replacements. *)
Definition IF_PARTS : list str :=
  [lit "if (_obs_"; lit " && _obs_"; lit ".parkingPositionId) {"].
Definition IF_TEXT : str := lit "if (_obs && _obs.parkingPositionId) {".

Definition POSITION_PARTS : list str :=
  [lit "const _pos_"; lit " = await parkingPositionService.getById(_obs_";
   lit ".parkingPositionId);"].
Definition POSITION_TEXT : str :=
  lit "const _pos = await parkingPositionService.getById(_obs.parkingPositionId);".

Definition DERIVE_PARTS : list str :=
  [lit "await violationService.deriveFromObservation(_obs_"; lit ", _pos_";
   lit ","].
Definition DERIVE_TEXT : str :=
  lit "await violationService.deriveFromObservation(_obs, _pos,".

Section WithUnicodeTable.

Variable ualnum : N → bool.

(** A match at the head of [s] of the pattern that has the texts [parts]
    with [\w+] between them: its length.  Every text after a [\w+] opens
    with a character that is no word character, so the word characters
    are read to their end. *)
Fixpoint match_holes (parts : list str) (s : str) : option nat :=
  match parts with
  | [] => Some 0
  | p :: parts' =>
      if startswith p s then
        match parts' with
        | [] => Some (length p)
        | _ :: _ =>
            let s1 := drop (length p) s in
            let word := take_while (isword ualnum) s1 in
            if bool_decide (word ≠ []) then
              n ← match_holes parts' (drop (length word) s1);
              Some (length p + length word + n)
            else None
        end
      else None
  end.

(** [re.sub] of such a pattern by a text without backslash.  [skip]
    counts the characters of a match still to pass. *)
Fixpoint sub_holes (parts : list str) (repl : str) (skip : nat) (s : str)
    : str :=
  match s with
  | [] => []
  | c :: s' =>
      match skip with
      | S k => sub_holes parts repl k s'
      | 0 =>
          match match_holes parts s with
          | Some n => repl ++ sub_holes parts repl (n - 1) s'
          | None => c :: sub_holes parts repl 0 s'
          end
      end
  end.

(** The variables of the loops. *)
Record state := State {
  i : nat;
  new_lines : list str
}.

(** Line 39: [i < len(lines) - 1 and ');' not in lines[i]]. *)
Definition scan_cond (lines : list str) (st : state) : bool :=
  bool_decide (i st < length lines - 1) &&
  match lines !! i st with
  | Some l => negb (contains TERMINATOR l)
  | None => false
  end.

(** Lines 40 and 41. *)
Definition scan_body (lines : list str) (st : state) : outcome state :=
  l ← index lines (S (i st));
  mret (State (S (i st)) (new_lines st ++ [l])).

Definition main_cond (lines : list str) (st : state) : bool :=
  bool_decide (i st < length lines).

(** Lines 34 to 52.  The pattern of line 47, a group of [\s] repeated,
    matches every line; its group is the blanks the line opens with. *)
Definition main_body (fuel : nat) (lines : list str) (st : state)
    : outcome state :=
  line ← index lines (i st);
  let appended := new_lines st ++ [line] in
  if contains RESULT_CALL line then
    st1 ← while fuel (scan_cond lines) (scan_body lines)
            (State (i st) appended);
    if bool_decide (i st1 + 1 < length lines) then
      next ← index lines (i st1 + 1);
      if negb (contains EXTRACTED next) then
        last ← index lines (i st1);
        let indent := take_while isspace last in
        mret (State (S (i st1)) (new_lines st1 ++ [indent ++ EXTRACTION]))
      else mret (State (S (i st1)) (new_lines st1))
    else mret (State (S (i st1)) (new_lines st1))
  else mret (State (S (i st)) appended).

(** Lines 29 to 54 on the list of lines. *)
Definition insert_extractions (fuel : nat) (lines : list str)
    : outcome (list str) :=
  st ← while fuel (main_cond lines) (main_body fuel lines) (State 0 []);
  mret (new_lines st).

(** Lines 59 to 83 on the content. *)
Definition rename_temporaries (content : str) : str :=
  let content := replace GET_RESULT GET_OBSERVATION content in
  let content := sub_holes IF_PARTS IF_TEXT 0 content in
  let content := sub_holes POSITION_PARTS POSITION_TEXT 0 content in
  sub_holes DERIVE_PARTS DERIVE_TEXT 0 content.

(** Lines 22 to 83: the new content of a file.  The substitution of
    lines 22 to 26 puts a text in the place of the same text. *)
Definition transform_with (fuel : nat) (content : str) : outcome str :=
  let content := replace CONST_RESULT_CALL CONST_RESULT_CALL content in
  new_lines ← insert_extractions fuel (split NL content);
  mret (rename_temporaries (join [NL] new_lines)).

Definition transform (content : str) : outcome str :=
  transform_with
    (S (length (split NL
                  (replace CONST_RESULT_CALL CONST_RESULT_CALL content))))
    content.

End WithUnicodeTable.

(** The whole script. *)
Definition simple_fix (ualnum : N → bool)
    : Driver.disk → outcome Driver.state :=
  Driver.run true (lit "All files processed!") (transform ualnum).

End SimpleFix.

(* ===================================================================== *)
(** * Part II: reference formulations                                     *)
(* ===================================================================== *)

(** The two derivation scripts walk the lines once, in one of two modes:
    looking for a start line, or inside a span that carries what the start
    line gave ([T]).  [SpanRewriter.emit] is that walk as a structural
    recursion; the loops of both scripts are proved equal to instances of
    it, and the properties of placement and passthrough are proved once. *)

Module SpanRewriter.

Section Walk.

Context {T : Type}.
(** What a start line gives, when the line is one. *)
Variable start : str → option T.
(** What a further line of the span adds to it. *)
Variable extend : T → str → T.
(** Whether the start line itself may end the span. *)
Variable start_may_close : bool.
(** Whether a line ends the span. *)
Variable closes : str → bool.
(** The lines to insert after a closed span, given the lines after it. *)
Variable block : T → list str → list str.
(** The lines to insert after a span that the end of the file cuts. *)
Variable eof_block : T → list str.

Inductive mode : Type :=
| Scan
| InSpan (t : T).

Fixpoint emit (m : mode) (lines : list str) : list str :=
  match lines with
  | [] =>
      match m with
      | Scan => []
      | InSpan t => eof_block t
      end
  | x :: xs =>
      x ::
      match m with
      | Scan =>
          match start x with
          | None => emit Scan xs
          | Some t =>
              if start_may_close && closes x
              then block t xs ++ emit Scan xs
              else emit (InSpan t) xs
          end
      | InSpan t =>
          let t' := extend t x in
          if closes x
          then block t' xs ++ emit Scan xs
          else emit (InSpan t') xs
      end
  end.

(** The same walk, giving for every input line what is inserted right
    after it. *)
Fixpoint inserted (m : mode) (lines : list str) : list (list str) :=
  match lines with
  | [] => []
  | x :: xs =>
      match m with
      | Scan =>
          match start x with
          | None => [] :: inserted Scan xs
          | Some t =>
              if start_may_close && closes x
              then block t xs :: inserted Scan xs
              else match xs with
                   | [] => [eof_block t]
                   | _ :: _ => [] :: inserted (InSpan t) xs
                   end
          end
      | InSpan t =>
          let t' := extend t x in
          if closes x
          then block t' xs :: inserted Scan xs
          else match xs with
               | [] => [eof_block t']
               | _ :: _ => [] :: inserted (InSpan t') xs
               end
      end
  end.

(** [lines] with [ins !! k] put right after line [k], for every [k]. *)
Definition splice (lines : list str) (ins : list (list str)) : list str :=
  concat (zip_with (λ l b, l :: b) lines ins).

(** The first line that closes, counted from the head of [lines]. *)
Fixpoint find_close (lines : list str) : option nat :=
  match lines with
  | [] => None
  | x :: xs => if closes x then Some 0 else S <$> find_close xs
  end.

(** The end of the span that starts at line [s]: the first line from
    [s] on (from [s + 1] on when the start line cannot close) that
    closes, or the last line of the file when none does. *)
Definition span_end (lines : list str) (s : nat) : nat :=
  let from := if start_may_close then s else S s in
  match find_close (drop from lines) with
  | Some d => from + d
  | None => length lines - 1
  end.

(** What the span from line [s] to line [e] carries at its end. *)
Definition payload (t : T) (lines : list str) (s e : nat) : T :=
  foldl extend t (take (e - s) (drop (S s) lines)).

(** [b] is what the walk inserts after the span of payload [t] that
    starts at line [s] and ends at line [e]: the block of a span that a
    line closes, or the block of a span that runs to the last line. *)
Definition closed_by (lines : list str) (t : T) (s e : nat)
    (b : list str) : Prop :=
  let from := if start_may_close then s else S s in
  let t' := payload t lines s e in
  (find_close (drop from lines) = Some (e - from)
   ∧ b = block t' (drop (S e) lines))
  ∨ (find_close (drop from lines) = None
     ∧ S e = length lines ∧ b = eof_block t').

(** [b] is the block of a span that ends at line [e]. *)
Definition from_span (lines : list str) (e : nat) (b : list str) : Prop :=
  ∃ s x t, s ≤ e ∧ lines !! s = Some x ∧ start x = Some t
           ∧ span_end lines s = e ∧ closed_by lines t s e b.

(** What the walk inserts after the span of payload [t] from line [s] to
    line [e]: the block of a span that a line closes, the block of the end
    of the file for a span that no line closes. *)
Definition span_block (lines : list str) (t : T) (s e : nat) : list str :=
  let from := if start_may_close then s else S s in
  let t' := payload t lines s e in
  match find_close (drop from lines) with
  | Some _ => block t' (drop (S e) lines)
  | None => eof_block t'
  end.

(** The spans of a file as the loop meets them, each with its start line
    and its end line: from line [i] on, the first start line opens a
    span, the span runs to its end, and the search goes on after it. *)
Fixpoint spans_from (fuel : nat) (lines : list str) (i : nat)
    : list (nat * nat) :=
  match fuel with
  | 0 => []
  | S fuel' =>
      match lines !! i with
      | None => []
      | Some x =>
          match start x with
          | None => spans_from fuel' lines (S i)
          | Some _ =>
              let e := span_end lines i in
              (i, e) :: spans_from fuel' lines (S e)
          end
      end
  end.

Definition spans (lines : list str) : list (nat * nat) :=
  spans_from (length lines) lines 0.

End Walk.

End SpanRewriter.

(** The walk of add-derivations-v2.py: a span carries the variable named
    on its start line, the start line may close it, and the block is held
    back when the marker is within the ten lines after the span. *)

Module AddDerivationsV2Ref.

Import AddDerivationsV2 SpanRewriter.

Section WithUnicodeTable.

Variable ualnum : N → bool.

Definition start (x : str) : option str :=
  if re_match (SUBMIT_ASSIGN ualnum) x then Some (var_name ualnum x)
  else None.

Definition extend (v : str) (_ : str) : str := v.

Definition window (after : list str) : bool :=
  existsb (contains MARKER) (take 10 after).

Definition block (v : str) (after : list str) : list str :=
  if window after then [] else derivation v.

Definition walk : mode → list str → list str :=
  emit start extend true (contains TERMINATOR) block derivation.

Definition end_of_span : list str → nat → nat :=
  span_end true (contains TERMINATOR).

(** The spans the loop collects, each with its start line and its end
    line. *)
Definition spans : list str → list (nat * nat) :=
  SpanRewriter.spans start true (contains TERMINATOR).

(** What the walk gives for the lines after a line [p] of the span of
    the variable [v]. *)
Definition v2_after (v p : str) (rest : list str) : list str :=
  if contains TERMINATOR p then block v rest ++ walk Scan rest
  else walk (InSpan v) rest.

(** The variable of the span a line is in, when it is in one. *)
Definition step (m : mode) (x : str) : option str :=
  match m with
  | Scan => start x
  | InSpan v => Some v
  end.

End WithUnicodeTable.

(** The lines of the block by name. *)
Definition comment_line : str :=
  lit "      // Derive violations (as done by API)" ++ [NL].

Definition get_line (v : str) : str :=
  lit "      const obs = await observationService.getById(" ++ v
    ++ lit ");" ++ [NL].

Definition block_rest : list str :=
  [ lit "      if (obs && obs.parkingPositionId) {" ++ [NL];
    lit "        const position = await parkingPositionService.getById(obs.parkingPositionId);" ++ [NL];
    lit "        await violationService.deriveFromObservation(obs, position, 'test-user');" ++ [NL];
    lit "      }" ++ [NL] ].

(** The block without its first, blank line. *)
Definition block_tail (v : str) : list str :=
  comment_line :: get_line v :: block_rest.

(** A span carries a variable name that has no newline in it. *)
Definition mode_ok (m : mode (T := str)) : Prop :=
  match m with
  | Scan => True
  | InSpan v => NL ∉ v
  end.

End AddDerivationsV2Ref.

(** The walk of add-violation-derivation.py: a span carries its lines, only
    a line after the start line closes it, the block needs the span to
    mention [observationId] and the marker to be absent from the four
    lines after the span, and a span cut by the end of the file gets no
    block. *)

Module AddViolationDerivationRef.

Import AddViolationDerivation SpanRewriter.

Definition start (x : str) : option (list str) :=
  if contains SUBMIT_CALL x then Some [x] else None.

Definition extend (span : list str) (x : str) : list str := span ++ [x].

Definition window (after : list str) : bool :=
  existsb (contains MARKER) (take 4 after).

Definition block (span : list str) (after : list str) : list str :=
  if contains OBSERVATION_ID (concat span) && negb (window after)
  then [derivation_code ++ [NL]]
  else [].

Definition walk : mode → list str → list str :=
  emit start extend false (contains TERMINATOR) block (λ _, []).

Definition end_of_span : list str → nat → nat :=
  span_end false (contains TERMINATOR).

(** The spans the loop collects, each with its start line and its end
    line. *)
Definition spans : list str → list (nat * nat) :=
  SpanRewriter.spans start false (contains TERMINATOR).

(** Whether a line after line [s] has the terminator. *)
Definition closed (lines : list str) (s : nat) : bool :=
  existsb (contains TERMINATOR) (drop (S s) lines).

(** The text of the lines [s] to [e]. *)
Definition span_text (lines : list str) (s e : nat) : str :=
  concat (take (S e - s) (drop s lines)).

End AddViolationDerivationRef.

(** The walk of add-submitted-by.py: inside a call the balance of the
    braces read so far is carried along, and the line at which the call
    ends is the one that is rewritten. *)

Module AddSubmittedByRef.

Import AddSubmittedBy.

(** Lines 48 to 53 on the last line of a span. *)
Definition rewrite_last (l : str) : str :=
  if bool_decide (strip l = CLOSE_STMT)
  then replace CLOSE_STMT CLOSE_STMT_USER l
  else if bool_decide (strip l = CLOSE_ITEM)
  then replace CLOSE_ITEM CLOSE_ITEM_USER l
  else l.

Inductive mode : Type :=
| Scan
| InCall (balance : Z).

Fixpoint walk (m : mode) (lines : list str) : list str :=
  match lines with
  | [] => []
  | x :: xs =>
      let line_of_call (balance : Z) :=
        if bool_decide (0 < balance)%Z then
          match xs with
          | [] => [rewrite_last x]
          | _ :: _ => x :: walk (InCall balance) xs
          end
        else rewrite_last x :: walk Scan xs in
      match m with
      | Scan =>
          if contains SUBMIT_OPEN x then line_of_call (brace_delta x)
          else x :: walk Scan xs
      | InCall balance => line_of_call (balance + brace_delta x)%Z
      end
  end.

(** What the walk gives for a line [x] of a call and the lines after
    it, when the braces up to [x] have the balance [bc]. *)
Definition asb_after (bc : Z) (x : str) (rest : list str) : list str :=
  if bool_decide (0 < bc)%Z then
    match rest with
    | [] => [rewrite_last x]
    | _ :: _ => x :: walk (InCall bc) rest
    end
  else rewrite_last x :: walk Scan rest.

(** The sum of the brace differences of the lines [i] to [k - 1]. *)
Definition delta_sum (lines : list str) (i k : nat) : Z :=
  foldr Z.add 0%Z (brace_delta <$> take (k - i) (drop i lines)).

(** The balance of the braces of the lines [s] to [k]. *)
Definition balance (lines : list str) (s k : nat) : Z :=
  delta_sum lines s (S k).


(** The first line after [s] at which the balance from [s] is zero:
    the end of the span as the specification words it. *)
Definition first_balanced_after (lines : list str) (s : nat) : option nat :=
  List.find (λ k, bool_decide (balance lines s k = 0%Z))
    (seq (S s) (length lines - S s)).

(** The first line from [s] on at which the balance from [s] is zero or
    less. *)
Definition first_closed_from (lines : list str) (s : nat) : option nat :=
  List.find (λ k, bool_decide (balance lines s k ≤ 0)%Z)
    (seq s (length lines - s)).

(** The end of the span that starts at line [s]: the first line from [s]
    on at which the balance is zero or less, or the last line of the file
    when there is none. *)
Definition span_last (lines : list str) (s : nat) : nat :=
  default (length lines - 1) (first_closed_from lines s).

(** The indices at which the main loop tests its condition: the first
    line, the line after a line that opens no call, and the line after the
    span of a line that opens one. *)
Inductive loop_head (lines : list str) : nat → Prop :=
| head_first : loop_head lines 0
| head_after_line i x :
    loop_head lines i → lines !! i = Some x →
    contains SUBMIT_OPEN x = false →
    loop_head lines (S i)
| head_after_span i x :
    loop_head lines i → lines !! i = Some x →
    contains SUBMIT_OPEN x = true →
    loop_head lines (S (span_last lines i)).

(** The span [s] to [e] is one the main loop collects. *)
Definition collected_span (lines : list str) (s e : nat) : Prop :=
  loop_head lines s
  ∧ (∃ x, lines !! s = Some x ∧ contains SUBMIT_OPEN x = true)
  ∧ span_last lines s = e.

(** [out] has the lines [xs], which are the lines from [i] on, each as it
    is or, at the end of a collected span, rewritten. *)
Definition asb_kept (lines out : list str) (i : nat) (xs : list str) : Prop :=
  length out = length xs
  ∧ ∀ k l, xs !! k = Some l →
      out !! k = Some l
      ∨ (out !! k = Some (rewrite_last l)
         ∧ ∃ s, collected_span lines s (i + k)).

End AddSubmittedByRef.

(** The lines of a text file, as [readlines] gives them. *)

Module FileLines.

(** A line with its newline at the end and none before. *)
Definition complete (l : str) : Prop := ∃ t, l = t ++ [NL] ∧ NL ∉ t.

(** The last line of a file that does not end in a newline. *)
Definition partial (l : str) : Prop := l ≠ [] ∧ NL ∉ l.

(** Complete lines, and at most one partial line after them. *)
Inductive file_lines : list str → Prop :=
| file_lines_nil : file_lines []
| file_lines_last l : partial l → file_lines [l]
| file_lines_cons l ls : complete l → file_lines ls → file_lines (l :: ls).

(** The lines a script reads back after it wrote [ls]. *)
Definition reread (ls : list str) : list str := readlines (writelines ls).

End FileLines.

(** What a regular expression matches, and texts no prefix of which it
    matches. *)

Module ReRef.

(** [matches r w]: the whole of [w] is a match of [r]. *)
Inductive matches : regex → str → Prop :=
| matches_eps : matches Eps []
| matches_cls p c : p c = true → matches (Cls p) [c]
| matches_seq r1 r2 w1 w2 :
    matches r1 w1 → matches r2 w2 → matches (Seq r1 r2) (w1 ++ w2)
| matches_alt_l r1 r2 w : matches r1 w → matches (Alt r1 r2) w
| matches_alt_r r1 r2 w : matches r2 w → matches (Alt r1 r2) w
| matches_star_nil r : matches (Star r) []
| matches_star_more r w1 w2 :
    matches r w1 → matches (Star r) w2 → matches (Star r) (w1 ++ w2).

Definition is_empty (r : regex) : bool :=
  match r with
  | Empty => true
  | _ => false
  end.

(** After the characters of [p] nothing is left of [r], and [r] has not
    matched on the way. *)
Fixpoint dead_after (r : regex) (p : str) : bool :=
  match p with
  | [] => is_empty r
  | c :: p' => negb (nullable r) && dead_after (deriv c r) p'
  end.

End ReRef.

(** How the occurrences of a text can lie in another. *)

Module Occurrences.

(** One of the two texts opens the other. *)
Definition compatible (a b : str) : bool := startswith a b || startswith b a.

(** [old] can overlap a copy of itself: a proper end of it opens it. *)
Definition has_border (old : str) : bool :=
  existsb (λ k, startswith (drop k old) old) (seq 1 (length old - 1)).

(** No occurrence of [old] can touch a copy of [m], whatever is around
    it: no proper end of [old] can lie over the head of [m], and [old]
    cannot start inside [m]. *)
Definition apart (old m : str) : bool :=
  forallb (λ k, negb (compatible (drop k old) m)) (seq 1 (length old - 1))
  && forallb (λ j, negb (compatible old (drop j m))) (seq 0 (length m)).

End Occurrences.

(** What a run wrote, and what it had to process. *)

Module DriverRef.

Import Driver.

(** The paths a trace writes to, in order. *)
Definition written (t : list event) : list str :=
  omap (λ e, match e with EvWrite path _ => Some path | _ => None end) t.

(** The paths of the files of the directory that have the suffix, in the
    order of the listing. *)
Definition targets (d : disk) : list str :=
  path_join test_dir <$> filter (λ n, endswith SUFFIX n = true) (listing d).

(** Every listed file that has the suffix is on the disk. *)
Definition listed_files_exist (d : disk) : Prop :=
  ∀ name, name ∈ listing d → endswith SUFFIX name = true →
          is_Some (files d !! path_join test_dir name).

(** The files after the writes of a trace, in the order of the trace. *)
Definition apply_writes (files : gmap str str) (t : list event)
    : gmap str str :=
  foldl (λ m e, match e with
                | EvWrite path content => <[path := content]> m
                | _ => m
                end) files t.

End DriverRef.

(** The walk of fix-submit-response.py.  Inside a span the start line and
    two of its groups are carried along; after the comment and the first
    line of a derivation block the lines of the block are copied up to the
    line with the call, or up to a line that is blank or opens a comment
    or an [expect], which is then read as any other line. *)

Module FixSubmitResponseRef.

Import FixSubmitResponse.

Section WithUnicodeTable.

Variable ualnum : N → bool.

Inductive mode : Type :=
| Scan
| InSpan (line indent var_name : str)
| Block.

Fixpoint walk (m : mode) (lines : list str) : list str :=
  match lines with
  | [] =>
      match m with
      | InSpan line indent var_name =>
          [extract_line indent var_name; line]
      | _ => []
      end
  | x :: xs =>
      let span_after (p line indent var_name : str) :=
        if contains TERMINATOR p then
          extract_line indent var_name ::
          match xs with
          | [] => [line]
          | comment :: xs' =>
              if contains DERIVE_COMMENT comment then
                comment ::
                match xs' with
                | [] => []
                | derive_line :: xs'' =>
                    sub_get ualnum var_name 0 derive_line :: walk Block xs''
                end
              else line :: walk Scan xs'
          end
        else walk (InSpan line indent var_name) xs in
      let scan_step :=
        match groups ualnum x with
        | Some (indent, var_type, var_name) =>
            new_line ualnum var_type var_name x
              :: span_after x x indent var_name
        | None => x :: walk Scan xs
        end in
      match m with
      | Scan => scan_step
      | InSpan line indent var_name =>
          x :: span_after x line indent var_name
      | Block =>
          if block_line x then
            x :: (if contains MARKER x then walk Scan xs else walk Block xs)
          else scan_step
      end
  end.

(** What the walk gives after a closed span of the start line [line]:
    the line of line 51, and then either the comment and the first line
    of the derivation block, or the start line once more in place of the
    line after the span. *)
Definition after_span (line indent var_name : str) (rest : list str)
    : list str :=
  extract_line indent var_name ::
  match rest with
  | [] => [line]
  | comment :: rest' =>
      if contains DERIVE_COMMENT comment then
        comment ::
        match rest' with
        | [] => []
        | derive_line :: rest'' =>
            sub_get ualnum var_name 0 derive_line :: walk Block rest''
        end
      else line :: walk Scan rest'
  end.

(** What the walk gives for the lines after a line [p] of the span. *)
Definition span_after (p line indent var_name : str) (rest : list str)
    : list str :=
  if contains TERMINATOR p then after_span line indent var_name rest
  else walk (InSpan line indent var_name) rest.

End WithUnicodeTable.

(** The keywords of the patterns of lines 30 and 38. *)
Definition keywords : list str := [lit "const"; lit "let"; lit "var"].

(** The span that the line [p] opens and the lines [more] go on has its
    first line with [);] last. *)
Fixpoint closes_last (p : str) (more : list str) : bool :=
  match more with
  | [] => contains TERMINATOR p
  | l :: more' => negb (contains TERMINATOR p) && closes_last l more'
  end.

End FixSubmitResponseRef.

(** What the renamed block of fix-duplicate-obs.py is made of, and the
    checks that no occurrence of a text can start in it. *)

Module FixDuplicateObsRef.

Import FixDuplicateObs Occurrences.

(** The texts between the eight places of the variable in the renamed
    block. *)
Definition pieces : list str :=
  [ lit "      // Derive violations (as done by API)" ++ [NL]
      ++ lit "      const _obs_";
    lit " = await observationService.getById(";
    lit ");" ++ [NL] ++ lit "      if (_obs_";
    lit " && _obs_";
    lit ".parkingPositionId) {" ++ [NL] ++ lit "        const _pos_";
    lit " = await parkingPositionService.getById(_obs_";
    lit ".parkingPositionId);" ++ [NL]
      ++ lit "        await violationService.deriveFromObservation(_obs_";
    lit ", _pos_";
    lit ", 'test-user');" ++ [NL] ++ lit "      }" ].

(** The head of the renamed block, up to the variable. *)
Definition RENAMED_OPEN : str :=
  lit "      // Derive violations (as done by API)" ++ [NL]
  ++ lit "      const _obs_".

(** The character of [p] at [k] can be a word character: it is an ASCII
    letter, digit or underscore, or it is not ASCII. *)
Definition word_at (p : str) (k : nat) : bool :=
  match p !! k with
  | Some c => (128 <=? c)%N || (isalnum_ascii c || (c =? ch "_")%N)
  | None => false
  end.

(** [p] does not open a text that starts with [u] and a word
    character. *)
Definition mid_ok (p u : str) : bool :=
  negb (startswith p u)
  && (negb (startswith u p) || negb (word_at p (length u))).

(** [p] does not open a text that starts with [u]. *)
Definition end_ok (p u : str) : bool := negb (compatible p u).

(** The checks for the texts between the places of a variable: every
    end of a text but the last is followed by a word character. *)
Fixpoint pieces_ok (p : str) (ps : list str) : bool :=
  match ps with
  | [] => true
  | a :: ps' =>
      match ps' with
      | [] => forallb (λ k, end_ok p (drop k a)) (seq 0 (length a))
      | _ :: _ =>
          forallb (λ k, mid_ok p (drop k a)) (seq 0 (length a))
          && pieces_ok p ps'
      end
  end.

End FixDuplicateObsRef.

(** The walk of the loop of simple-fix.py.  Inside a call the last line
    read is carried along; the line after the call is read as any other
    line. *)

Module SimpleFixRef.

Import SimpleFix.

Inductive mode : Type :=
| Scan
| InCall (p : str).

(** Line 48 for the last line [p] of a call. *)
Definition extraction_line (p : str) : str :=
  take_while isspace p ++ EXTRACTION.

Fixpoint walk (m : mode) (lines : list str) : list str :=
  match lines with
  | [] => []
  | x :: xs =>
      let scan_step :=
        x :: (if contains RESULT_CALL x then walk (InCall x) xs
              else walk Scan xs) in
      match m with
      | Scan => scan_step
      | InCall p =>
          if contains TERMINATOR p then
            if contains EXTRACTED x then scan_step
            else extraction_line p :: scan_step
          else x :: walk (InCall x) xs
      end
  end.

(** The call that the line [p] opens and the lines [more] go on has its
    first line with [);] last; [last_of p more] is that line. *)
Fixpoint closes_last (p : str) (more : list str) : bool :=
  match more with
  | [] => contains TERMINATOR p
  | l :: more' => negb (contains TERMINATOR p) && closes_last l more'
  end.

Definition last_of (p : str) (more : list str) : str := List.last more p.

End SimpleFixRef.

(** Inputs the statements below are tried on. *)

Module Samples.


(** A call over three lines between two other lines. *)
Definition call : list str :=
  [ lit "before();";
    lit "  const r = await observationService.submit({";
    lit "    a: 1,";
    lit "  });";
    lit "after();" ].

(** The text of a file, from its lines. *)
Definition text (ls : list string) : str :=
  concat ((λ l, lit l ++ [NL]) <$> ls).

(** The derivation block of add-violation-derivation.py as it stands in a
    file: a blank line and six lines. *)
Definition block_lines : list string :=
  [ EmptyString;
    "      // Derive violations (as done by API)";
    "      const obs = await observationService.getById(observationId);";
    "      if (obs && obs.parkingPositionId) {";
    "        const position = await parkingPositionService.getById(obs.parkingPositionId);";
    "        await violationService.deriveFromObservation(obs, position, 'test-user');";
    "      }" ]%string.

(** A submit call assigned to [observationId]; the file after one run of
    add-violation-derivation.py; the file after two runs. *)
Definition submit_lines : list string :=
  [ "const observationId = await observationService.submit({";
    "  a: 1,";
    "});" ]%string.

Definition submitted : str := text (submit_lines ++ ["foo();"%string]).

Definition derived_once : str :=
  text (submit_lines ++ block_lines ++ ["foo();"%string]).

Definition derived_twice : str :=
  text (submit_lines ++ block_lines ++ block_lines ++ ["foo();"%string]).

(** A submit call followed by four lines and then, on the fifth line
    after it, a line with the marker. *)
Definition marker_on_fifth : str :=
  text (submit_lines
          ++ [ "l1"; "l2"; "l3"; "l4";
               "await violationService.deriveFromObservation(o, p, 'u');" ]%string).

(** A submit call assigned to [observationId2]. *)
Definition other_variable : str :=
  text [ "const observationId2 = await observationService.submit({";
         "  a: 1,";
         "});";
         "foo();" ]%string.

Definition other_variable_derived : str :=
  text ([ "const observationId2 = await observationService.submit({";
          "  a: 1,";
          "});" ]%string ++ block_lines ++ ["foo();"%string]).

(** A directory with one test file that has nothing to rewrite, and a
    file of another kind. *)
Definition plain_path : str := lit "src/test/plain.integration.test.ts".

Definition plain_disk : Driver.disk :=
  Driver.Disk [lit "plain.integration.test.ts"; lit "README.md"]
    {[ plain_path := lit "const x = 1;" ]}.

(** A submit call, and the file after fix-tests.py ran once and twice. *)
Definition plain_call : str :=
  lit "await observationService.submit({ a: 1 });".

Definition plain_call_once : str :=
  lit "await observationService.submit({ a: 1 }), 'test-user');".

Definition plain_call_twice : str :=
  lit "await observationService.submit({ a: 1 }), 'test-user'), 'test-user');".

(** The same call as the comment of fix-tests.py on lines 14 to 16 says
    it is to be written, with the parameter inside the call. *)
Definition plain_call_commented : str :=
  lit "await observationService.submit({ a: 1 }, 'test-user');".

(** The call over three lines, as add-submitted-by.py rewrites it and as
    fix-tests.py does. *)
Definition spread_call : str :=
  lit "await observationService.submit({" ++ [NL]
    ++ lit "  a: 1" ++ [NL] ++ lit "});".

Definition spread_call_commented : str :=
  lit "await observationService.submit({" ++ [NL]
    ++ lit "  a: 1" ++ [NL] ++ lit "}, 'test-user');".

Definition spread_call_once : str :=
  lit "await observationService.submit({" ++ [NL]
    ++ lit "  a: 1" ++ [NL] ++ lit "}), 'test-user');".

End Samples.

(* ===================================================================== *)
(** * Part III: properties                                                *)
(* ===================================================================== *)

(** ** Strings and loops *)

Section PyFacts.

Lemma bind_Returned {A B} (f : A → outcome B) (a : A) :
  (Returned a ≫= f) = f a.
Proof. reflexivity. Qed.

Lemma Returned_eq {A} (a b : A) : Returned a = Returned b → a = b.
Proof. congruence. Qed.

Lemma index_Some {A} (ls : list A) (k : nat) (x : A) :
  ls !! k = Some x → index ls k = Returned x.
Proof. intros H. unfold index. by rewrite H. Qed.

Lemma index_lt {A} (ls : list A) (k : nat) :
  k < length ls → ∃ x, ls !! k = Some x ∧ index ls k = Returned x.
Proof.
  intros H. destruct (lookup_lt_is_Some_2 ls k H) as [x Hx].
  exists x. split; [done | by apply index_Some].
Qed.

Lemma drop_lookup_cons {A} (ls : list A) (k : nat) (x : A) :
  ls !! k = Some x → drop k ls = x :: drop (S k) ls.
Proof. intros H. by rewrite (drop_S _ _ _ H). Qed.

(** The look-ahead loop tests the [n] lines from [a] on. *)
Lemma any_in_range_spec {A} (p : A → bool) (ls : list A) (n a : nat) :
  a + n ≤ length ls →
  any_in_range p ls a n = Returned (existsb p (take n (drop a ls))).
Proof.
  revert a. induction n as [|n IH]; intros a Hle; simpl.
  - done.
  - destruct (index_lt ls a) as (x & Hx & Hi); [lia|].
    rewrite Hi, bind_Returned, (drop_lookup_cons _ _ _ Hx). simpl.
    destruct (p x); [done|]. rewrite IH by lia. done.
Qed.

Lemma take_min_drop {A} (ls : list A) (a w : nat) :
  take (Nat.min (a + w) (length ls) - a) (drop a ls) = take w (drop a ls).
Proof.
  destruct (decide (a + w ≤ length ls)) as [H|H].
  - f_equal. lia.
  - rewrite !take_ge; [done | rewrite length_drop; lia | rewrite length_drop; lia].
Qed.

End PyFacts.

(** ** The walk over spans *)

Section WalkFacts.

Import SpanRewriter.

Context {T : Type}.
Variable start : str → option T.
Variable extend : T → str → T.
Variable start_may_close : bool.
Variable closes : str → bool.
Variable block : T → list str → list str.
Variable eof_block : T → list str.

Local Abbreviation emit := (emit start extend start_may_close closes block eof_block).
Local Abbreviation inserted :=
  (inserted start extend start_may_close closes block eof_block).
Local Abbreviation span_end := (span_end start_may_close closes).
Local Abbreviation from_span :=
  (from_span start extend start_may_close closes block eof_block).
Local Abbreviation closed_by :=
  (closed_by extend start_may_close closes block eof_block).
Local Abbreviation span_block :=
  (span_block extend start_may_close closes block eof_block).
Local Abbreviation spans_from := (spans_from start start_may_close closes).
Local Abbreviation spans := (spans start start_may_close closes).


Lemma splice_cons x xs b bs :
  splice (x :: xs) (b :: bs) = x :: b ++ splice xs bs.
Proof. reflexivity. Qed.

(** The walk copies every line and puts the blocks between them. *)
Lemma emit_splice m lines :
  emit m lines =
  splice lines (inserted m lines)
    ++ match lines with [] => emit m [] | _ :: _ => [] end.
Proof.
  revert m. induction lines as [|x xs IH]; intros m; [done|].
  rewrite app_nil_r.
  destruct m as [|t]; cbn [SpanRewriter.emit SpanRewriter.inserted].
  - destruct (start x) as [t|].
    + destruct (start_may_close && closes x).
      * rewrite splice_cons, IH. f_equal. f_equal.
        destruct xs; [done | by rewrite app_nil_r].
      * destruct xs as [|y ys]; [by rewrite splice_cons, app_nil_r|].
        by rewrite splice_cons, IH, app_nil_r.
    + rewrite splice_cons, IH. f_equal.
      destruct xs; [done | by rewrite app_nil_r].
  - destruct (closes x).
    + rewrite splice_cons, IH. f_equal. f_equal.
      destruct xs; [done | by rewrite app_nil_r].
    + destruct xs as [|y ys]; [by rewrite splice_cons, app_nil_r|].
      by rewrite splice_cons, IH, app_nil_r.
Qed.

Lemma emit_Scan_splice lines :
  emit Scan lines = splice lines (inserted Scan lines).
Proof. rewrite emit_splice. destruct lines; by rewrite ?app_nil_r. Qed.

(** Every input line is in the output, in the order of the input. *)
Lemma emit_sublist m lines : lines `sublist_of` emit m lines.
Proof.
  revert m. induction lines as [|x xs IH]; intros m.
  - apply sublist_nil_l.
  - cbn [SpanRewriter.emit]. apply sublist_skip.
    destruct m as [|t].
    + destruct (start x) as [t|]; [|apply IH].
      destruct (start_may_close && closes x); [|apply IH].
      apply sublist_inserts_l, IH.
    + destruct (closes x); [|apply IH].
      apply sublist_inserts_l, IH.
Qed.

Lemma span_end_cons x xs s :
  s < length xs → span_end (x :: xs) (S s) = S (span_end xs s).
Proof.
  intros Hs. unfold SpanRewriter.span_end.
  destruct start_may_close; cbn [drop];
    (destruct (find_close closes (drop _ xs)); simpl; lia).
Qed.

Lemma from_span_cons x xs e b :
  from_span xs e b → from_span (x :: xs) (S e) b.
Proof.
  intros (s & y & t & Hse & Hy & Ht & Hend & Hb).
  assert (s < length xs) as Hlt by (by eapply lookup_lt_Some).
  exists (S s), y, t. split_and!; [lia | done | done | |].
  - rewrite span_end_cons by done. by rewrite Hend.
  - unfold SpanRewriter.closed_by, payload in *.
    replace (S e - S s) with (e - s) by lia.
    destruct start_may_close; cbn [drop length];
      (destruct Hb as [[Hf Hb]|(Hf & Hlen & Hb)];
       [left; split; [rewrite Hf; f_equal; lia | done]
       |right; split_and!; [done | lia | done]]).
Qed.

(** Whatever the walk inserts after a line is the block of a span that
    ends at that line: of the span the walk is in, or of a span that
    starts later. *)
Lemma inserted_origin m lines e b :
  inserted m lines !! e = Some b → b ≠ [] →
  match m with
  | Scan => False
  | InSpan t0 =>
      let t' := foldl extend t0 (take (S e) lines) in
      (find_close closes lines = Some e ∧ b = block t' (drop (S e) lines))
      ∨ (find_close closes lines = None ∧ S e = length lines
         ∧ b = eof_block t')
  end
  ∨ from_span lines e b.
Proof.
  revert m e. induction lines as [|x xs IH]; intros m e Hb Hne; [done|].
  assert (∀ t1, ([] :: inserted (InSpan t1) xs) !! e = Some b →
            ∃ e', e = S e' ∧
              (((find_close closes xs = Some e'
                 ∧ b = block (foldl extend t1 (take (S e') xs))
                         (drop (S e') xs))
                ∨ (find_close closes xs = None ∧ S e' = length xs
                   ∧ b = eof_block (foldl extend t1 (take (S e') xs))))
               ∨ from_span xs e' b)) as Hin.
  { intros t1 H1. destruct e as [|e']; [by injection H1 as <-|].
    exists e'. split; [done|]. apply (IH (InSpan t1) e' H1 Hne). }
  assert (∀ b0, (b0 :: inserted Scan xs) !! e = Some b →
            (e = 0 ∧ b = b0) ∨ from_span (x :: xs) e b) as Hscan.
  { intros b0 H1. destruct e as [|e']; [left; by injection H1 as <-|].
    right. destruct (IH Scan e' H1 Hne) as [[]|H].
    by apply from_span_cons. }
  destruct m as [|t0]; cbn [SpanRewriter.inserted] in Hb.
  - right. destruct (start x) as [t|] eqn:Hstart.
    + destruct (start_may_close && closes x) eqn:Hclose.
      * destruct (Hscan _ Hb) as [[-> ->]|H]; [|done].
        apply andb_true_iff in Hclose as [Hsmc Hc].
        exists 0, x, t.
        unfold SpanRewriter.span_end, SpanRewriter.closed_by, payload.
        rewrite Hsmc. cbn [drop find_close]. rewrite Hc.
        split_and!; try done. by left.
      * assert (if start_may_close then closes x = false else True) as Hc.
        { destruct start_may_close; [done|done]. }
        destruct xs as [|y ys] eqn:Hxs.
        -- destruct e as [|e]; [|done]. injection Hb as <-.
           exists 0, x, t.
           unfold SpanRewriter.span_end, SpanRewriter.closed_by, payload.
           destruct start_may_close; cbn [drop find_close]; rewrite ?Hc;
             (split_and!; try done; by right).
        -- rewrite <- Hxs in *. clear Hxs.
           destruct (Hin t Hb) as (e' & -> & [H|H]);
             [|by apply from_span_cons].
           exists 0, x, t.
           unfold SpanRewriter.span_end, SpanRewriter.closed_by, payload.
           replace (S e' - 0) with (S e') by lia.
           destruct start_may_close; cbn [drop find_close];
             rewrite ?Hc, ?drop_0.
           ++ destruct H as [[Hf ->]|(Hf & Hlen & ->)]; rewrite Hf;
                cbn [fmap option_fmap option_map length];
                (split_and!; [lia | done | done | simpl; lia |]).
              ** left. done.
              ** right. split_and!; [done | lia | done].
           ++ destruct H as [[Hf ->]|(Hf & Hlen & ->)]; rewrite Hf;
                cbn [length];
                (split_and!; [lia | done | done | simpl; lia |]).
              ** left. split; [f_equal; lia | done].
              ** right. split_and!; [done | lia | done].
    + destruct (Hscan _ Hb) as [[-> ->]|H]; done.
  - destruct (closes x) eqn:Hclose.
    + destruct (Hscan _ Hb) as [[-> ->]|H]; [|by right].
      left. left. cbn [find_close]. by rewrite Hclose.
    + destruct xs as [|y ys] eqn:Hxs.
      * destruct e as [|e]; [|done]. injection Hb as <-.
        left. right. cbn [find_close]. by rewrite Hclose.
      * rewrite <- Hxs in *. clear Hxs.
        destruct (Hin _ Hb) as (e' & -> & [H|H]);
          [|right; by apply from_span_cons].
        left. cbn [find_close]. rewrite Hclose.
        destruct H as [[Hf ->]|(Hf & Hlen & ->)]; rewrite Hf.
        -- left. done.
        -- right. split_and!; [done | simpl; lia | done].
Qed.

Lemma inserted_from_span lines e b :
  inserted Scan lines !! e = Some b → b ≠ [] → from_span lines e b.
Proof.
  intros Hb Hne. by destruct (inserted_origin Scan lines e b Hb Hne) as [[]|H].
Qed.

Lemma span_end_drop lines i :
  i < length lines → span_end lines i = i + span_end (drop i lines) 0.
Proof.
  intros Hi. unfold SpanRewriter.span_end.
  rewrite length_drop, !drop_drop.
  destruct start_may_close;
    (replace (i + 0) with i by lia); (replace (i + 1) with (S i) by lia);
    (destruct (find_close closes (drop _ lines)); lia).
Qed.

Lemma span_block_drop lines t i d :
  span_block lines t i (i + d) = span_block (drop i lines) t 0 d.
Proof.
  unfold SpanRewriter.span_block, payload. rewrite !drop_drop.
  replace (i + d - i) with (d - 0) by lia.
  replace (i + 1) with (S i) by lia.
  replace (i + S d) with (S (i + d)) by lia.
  destruct start_may_close; [by replace (i + 0) with i by lia|].
  by replace (i + 1) with (S i) by lia.
Qed.

(** Inside a span: nothing is inserted before its end, the block of the
    span is inserted at its end, and the search starts again after it. *)
Lemma inserted_InSpan t0 zs :
  zs ≠ [] →
  let d := match find_close closes zs with
           | Some d => d
           | None => length zs - 1
           end in
  d < length zs
  ∧ (∀ j, j < d → inserted (InSpan t0) zs !! j = Some [])
  ∧ inserted (InSpan t0) zs !! d
    = Some (let t' := foldl extend t0 (take (S d) zs) in
            match find_close closes zs with
            | Some _ => block t' (drop (S d) zs)
            | None => eof_block t'
            end)
  ∧ drop (S d) (inserted (InSpan t0) zs) = inserted Scan (drop (S d) zs).
Proof.
  revert t0. induction zs as [|x xs IH]; intros t0 Hne; [done|].
  cbn [SpanRewriter.inserted find_close].
  destruct (closes x) eqn:Hc.
  - cbn. split_and!; [lia | intros j Hj; lia | done | done].
  - destruct xs as [|y ys] eqn:Hxs.
    + cbn. split_and!; [lia | intros j Hj; lia | done | done].
    + rewrite <- Hxs in *. assert (xs ≠ []) as Hxne by (by rewrite Hxs).
      destruct (IH (extend t0 x) Hxne) as (Hd & Hbefore & Hat & Hafter).
      clear IH. cbn [length].
      destruct (find_close closes xs) as [d'|] eqn:Hf;
        cbn [fmap option_fmap option_map].
      * split_and!; [simpl; lia | | done | done].
        intros [|j] Hj; [done|]. apply Hbefore. lia.
      * replace (S (length xs) - 1) with (S (length xs - 1)) by lia.
        split_and!; [simpl; lia | | done | done].
        intros [|j] Hj; [done|]. apply Hbefore. lia.
Qed.

(** At a start line: the same, for the span that starts there. *)
Lemma inserted_start x xs t :
  start x = Some t →
  let d := span_end (x :: xs) 0 in
  d < length (x :: xs)
  ∧ (∀ j, j < d → inserted Scan (x :: xs) !! j = Some [])
  ∧ inserted Scan (x :: xs) !! d = Some (span_block (x :: xs) t 0 d)
  ∧ drop (S d) (inserted Scan (x :: xs))
    = inserted Scan (drop (S d) (x :: xs)).
Proof.
  intros Hstart. unfold SpanRewriter.span_end, SpanRewriter.span_block, payload.
  cbn [SpanRewriter.inserted]. rewrite Hstart.
  assert (∀ t0, xs ≠ [] →
    let d := match find_close closes xs with
             | Some d => d
             | None => length xs - 1
             end in
    S d < length (x :: xs)
    ∧ (∀ j, j < S d → ([] :: inserted (InSpan t0) xs) !! j = Some [])
    ∧ ([] :: inserted (InSpan t0) xs) !! S d
      = Some (let t' := foldl extend t0 (take (S d) xs) in
              match find_close closes xs with
              | Some _ => block t' (drop (S d) xs)
              | None => eof_block t'
              end)
    ∧ drop (S (S d)) ([] :: inserted (InSpan t0) xs)
      = inserted Scan (drop (S (S d)) (x :: xs))) as Hin.
  { intros t0 Hne.
    destruct (inserted_InSpan t0 xs Hne) as (Hd & Hbefore & Hat & Hafter).
    split_and!; [simpl; lia | | done | done].
    intros [|j] Hj; [done|]. apply Hbefore. lia. }
  destruct start_may_close; cbn [andb drop find_close].
  - destruct (closes x) eqn:Hc.
    + cbn. split_and!; [lia | intros j Hj; lia | done | done].
    + destruct xs as [|y ys] eqn:Hxs.
      * cbn. split_and!; [lia | intros j Hj; lia | done | done].
      * rewrite <- Hxs in *. assert (xs ≠ []) as Hxne by (by rewrite Hxs).
        assert (0 < length xs) as Hlen by (rewrite Hxs; simpl; lia).
        specialize (Hin t Hxne). cbn [length].
        destruct (find_close closes xs) as [d'|] eqn:Hf;
          cbn [fmap option_fmap option_map].
        -- replace (0 + S d') with (S d') by lia.
           replace (S d' - 0) with (S d') by lia. done.
        -- replace (S (length xs) - 1) with (S (length xs - 1)) by lia.
           replace (S (length xs - 1) - 0) with (S (length xs - 1)) by lia.
           done.
  - destruct xs as [|y ys] eqn:Hxs.
    + cbn. split_and!; [lia | intros j Hj; lia | done | done].
    + rewrite <- Hxs in *. assert (xs ≠ []) as Hxne by (by rewrite Hxs).
      assert (0 < length xs) as Hlen by (rewrite Hxs; simpl; lia).
      specialize (Hin t Hxne). cbn [length]. rewrite drop_0.
      destruct (find_close closes xs) as [d'|] eqn:Hf.
      * replace (1 + d') with (S d') by lia.
        replace (S d' - 0) with (S d') by lia. done.
      * replace (S (length xs) - 1) with (S (length xs - 1)) by lia.
        replace (S (length xs - 1) - 0) with (S (length xs - 1)) by lia.
        done.
Qed.

(** The spans the loop meets are where the walk inserts: every span has
    its block right after its end line, and nothing is inserted anywhere
    else. *)
Lemma inserted_drop_spans lines fuel i :
  length lines - i ≤ fuel →
  (∀ s e, (s, e) ∈ spans_from fuel lines i →
     ∃ x t, lines !! s = Some x ∧ start x = Some t
       ∧ i ≤ s ∧ s ≤ e ∧ e < length lines ∧ e = span_end lines s
       ∧ inserted Scan (drop i lines) !! (e - i)
         = Some (span_block lines t s e))
  ∧ (∀ j b, inserted Scan (drop i lines) !! j = Some b → b ≠ [] →
       ∃ s, (s, i + j) ∈ spans_from fuel lines i).
Proof.
  revert i. induction fuel as [|fuel IH]; intros i Hfuel.
  { rewrite drop_ge by lia. split; [intros s e H; by apply elem_of_nil in H|].
    done. }
  cbn [SpanRewriter.spans_from].
  destruct (lines !! i) as [x|] eqn:Hx.
  2:{ apply lookup_ge_None in Hx. rewrite drop_ge by lia.
      split; [intros s e H; by apply elem_of_nil in H | done]. }
  assert (i < length lines) as Hi by (by eapply lookup_lt_Some).
  rewrite (drop_lookup_cons _ _ _ Hx).
  destruct (start x) as [t|] eqn:Hstart.
  - destruct (inserted_start x (drop (S i) lines) t Hstart)
      as (Hd & Hbefore & Hat & Hafter).
    rewrite <- (drop_lookup_cons _ _ _ Hx) in Hd, Hbefore, Hat, Hafter.
    rewrite <- (drop_lookup_cons _ _ _ Hx).
    remember (span_end (drop i lines) 0) as d eqn:Hdef.
    assert (span_end lines i = i + d) as He
      by (rewrite Hdef; by apply span_end_drop).
    rewrite length_drop in Hd. rewrite drop_drop in Hafter.
    replace (i + S d) with (S (i + d)) in Hafter by lia.
    rewrite He.
    destruct (IH (S (i + d))) as [IH1 IH2]; [lia|]. clear IH. split.
    + intros s e [Heq|Hin]%elem_of_cons.
      * apply pair_equal_spec in Heq as [-> ->].
        exists x, t. split_and!; [done | done | lia | lia | lia | done |].
        replace (i + d - i) with d by lia.
        by rewrite Hat, span_block_drop.
      * destruct (IH1 s e Hin) as (y & u & Hy & Hu & H1 & H2 & H3 & H4 & H5).
        exists y, u. split_and!; [done | done | lia | lia | lia | done |].
        rewrite <- H5, <- Hafter, lookup_drop. f_equal. lia.
    + intros j b Hb Hne.
      destruct (decide (j < d)) as [Hlt|Hge].
      { rewrite (Hbefore j Hlt) in Hb. by injection Hb as <-. }
      destruct (decide (j = d)) as [->|Hnd].
      { exists i. apply elem_of_cons. by left. }
      assert (inserted Scan (drop (S (i + d)) lines) !! (j - S d) = Some b)
        as Hb'.
      { rewrite <- Hafter, lookup_drop, <- Hb. f_equal. lia. }
      destruct (IH2 _ _ Hb' Hne) as [s Hs].
      exists s. apply elem_of_cons. right.
      by replace (i + j) with (S (i + d) + (j - S d)) by lia.
  - cbn [SpanRewriter.inserted]. rewrite Hstart.
    destruct (IH (S i)) as [IH1 IH2]; [lia|]. clear IH. split.
    + intros s e Hin.
      destruct (IH1 s e Hin) as (y & u & Hy & Hu & H1 & H2 & H3 & H4 & H5).
      exists y, u. split_and!; [done | done | lia | lia | lia | done |].
      replace (e - i) with (S (e - S i)) by lia. done.
    + intros [|j] b Hb Hne; [by injection Hb as <-|].
      destruct (IH2 j b Hb Hne) as [s Hs].
      exists s. by replace (i + S j) with (S i + j) by lia.
Qed.

(** Every span the loop meets starts at a start line, ends where the
    collector ends it, and has its block right after its end line. *)
Lemma inserted_spans lines s e :
  (s, e) ∈ spans lines →
  ∃ x t, lines !! s = Some x ∧ start x = Some t
    ∧ s ≤ e ∧ e < length lines ∧ e = span_end lines s
    ∧ inserted Scan lines !! e = Some (span_block lines t s e).
Proof.
  intros Hin.
  destruct (inserted_drop_spans lines (length lines) 0) as [H _]; [lia|].
  destruct (H s e Hin) as (x & t & Hx & Ht & _ & H2 & H3 & H4 & H5).
  exists x, t. rewrite drop_0 in H5.
  replace (e - 0) with e in H5 by lia. done.
Qed.

(** Whatever the walk inserts follows the end line of a span the loop
    meets. *)
Lemma inserted_in_spans lines e b :
  inserted Scan lines !! e = Some b → b ≠ [] → ∃ s, (s, e) ∈ spans lines.
Proof.
  intros Hb Hne.
  destruct (inserted_drop_spans lines (length lines) 0) as [_ H]; [lia|].
  rewrite drop_0 in H. apply (H e b Hb Hne).
Qed.

End WalkFacts.

(** ** add-derivations-v2.py: the loops are the walk *)

Section AddDerivationsV2Facts.

Import AddDerivationsV2 AddDerivationsV2Ref SpanRewriter.

Variable ualnum : N → bool.

Local Abbreviation walk := (AddDerivationsV2Ref.walk ualnum).
Local Abbreviation start := (AddDerivationsV2Ref.start ualnum).

Lemma v2_has_derivation_spec lines j :
  j ≤ length lines →
  has_derivation lines j = Returned (window (drop j lines)).
Proof.
  intros Hj. unfold has_derivation, window.
  rewrite any_in_range_spec by lia. by rewrite take_min_drop.
Qed.

Lemma v2_walk_InSpan_cons v x xs :
  walk (InSpan v) (x :: xs) = x :: v2_after ualnum v x xs.
Proof. reflexivity. Qed.

Lemma v2_walk_Scan_cons x xs :
  walk Scan (x :: xs) =
  x :: match start x with
       | Some v => v2_after ualnum v x xs
       | None => walk Scan xs
       end.
Proof.
  unfold AddDerivationsV2Ref.walk. cbn [emit].
  destruct (AddDerivationsV2Ref.start ualnum x); reflexivity.
Qed.

Lemma v2_scan_body_step lines i res l :
  lines !! i = Some l →
  scan_body lines (State i res) = Returned (State (S i) (res ++ [l])).
Proof. intros Hl. unfold scan_body. cbn. by rewrite (index_Some _ _ _ Hl). Qed.

(** The scan of lines 33 to 35 stops at the end of the span and has
    appended the lines of the span. *)
Lemma v2_scan_run lines v fuel : ∀ i res p,
  lines !! (i - 1) = Some p → 1 ≤ i → i ≤ length lines →
  length lines - i < fuel →
  ∃ j, i ≤ j ∧ j ≤ length lines
    ∧ while fuel (scan_cond lines) (scan_body lines) (State i res)
      = Returned (State j (res ++ take (j - i) (drop i lines)))
    ∧ (j = length lines
       ∨ ∃ l, lines !! (j - 1) = Some l ∧ contains TERMINATOR l = true)
    ∧ take (j - i) (drop i lines) ++ block v (drop j lines)
        ++ walk Scan (drop j lines)
      = v2_after ualnum v p (drop i lines).
Proof.
  induction fuel as [|fuel IH]; intros i res p Hp Hi Hlen Hfuel; [lia|].
  cbn [while]. unfold scan_cond at 1. cbn [AddDerivationsV2.i]. rewrite Hp.
  destruct (decide (i < length lines)) as [Hlt|Hge].
  - rewrite bool_decide_true by done. cbn [andb].
    destruct (contains TERMINATOR p) eqn:Hterm; cbn [negb].
    + exists i. replace (i - i) with 0 by lia. rewrite take_0, app_nil_r.
      split_and!; [lia | lia | done | right; by exists p |].
      unfold v2_after. by rewrite Hterm.
    + destruct (index_lt lines i Hlt) as (l & Hl & Hidx).
      rewrite (v2_scan_body_step _ _ _ _ Hl), bind_Returned.
      destruct (IH (S i) (res ++ [l]) l)
        as (j & Hij & Hj & Hrun & Hstop & Hwalk);
        [by replace (S i - 1) with i by lia | lia | lia | lia |].
      exists j. rewrite Hrun.
      rewrite (drop_lookup_cons _ _ _ Hl).
      replace (j - i) with (S (j - S i)) by lia. cbn [take].
      split_and!; [lia | lia | by rewrite <- app_assoc | done |].
      unfold v2_after at 1. rewrite Hterm, v2_walk_InSpan_cons.
      cbn [app]. by rewrite Hwalk.
  - rewrite bool_decide_false by done. cbn [andb].
    exists i. replace (i - i) with 0 by lia. rewrite take_0, app_nil_r.
    split_and!; [lia | lia | done | left; lia |].
    rewrite drop_ge by lia. unfold v2_after, block, window. simpl.
    destruct (contains TERMINATOR p); by rewrite ?app_nil_r.
Qed.

Lemma v2_main_body_step fuel0 lines i res x :
  lines !! i = Some x →
  main_body ualnum fuel0 lines (State i res) =
  if re_match (SUBMIT_ASSIGN ualnum) x then
    st' ← while fuel0 (scan_cond lines) (scan_body lines)
            (State (S i) (res ++ [x]));
    found ← has_derivation lines (AddDerivationsV2.i st');
    if negb found
    then mret (State (AddDerivationsV2.i st')
                     (result st' ++ derivation (var_name ualnum x)))
    else mret st'
  else mret (State (S i) (res ++ [x])).
Proof.
  intros Hx. unfold main_body. cbn. by rewrite (index_Some _ _ _ Hx).
Qed.

(** Lines 17 to 56 compute the walk. *)
Lemma v2_main_run lines fuel0 (Hfuel0 : length lines < fuel0) :
  ∀ fuel i res, i ≤ length lines → length lines - i < fuel →
  while fuel (main_cond lines) (main_body ualnum fuel0 lines) (State i res)
  = Returned (State (length lines) (res ++ walk Scan (drop i lines))).
Proof.
  induction fuel as [|fuel IH]; intros i res Hi Hfuel; [lia|].
  cbn [while]. unfold main_cond at 1. cbn [AddDerivationsV2.i].
  destruct (decide (i < length lines)) as [Hlt|Hge].
  - rewrite bool_decide_true by done.
    destruct (index_lt lines i Hlt) as (x & Hx & Hidx).
    rewrite (v2_main_body_step _ _ _ _ _ Hx).
    rewrite (drop_lookup_cons _ _ _ Hx), v2_walk_Scan_cons.
    unfold AddDerivationsV2Ref.start.
    destruct (re_match (SUBMIT_ASSIGN ualnum) x).
    + destruct (v2_scan_run lines (var_name ualnum x) fuel0 (S i)
                  (res ++ [x]) x)
        as (j & Hij & Hj & Hrun & _ & Hwalk);
        [by replace (S i - 1) with i by lia | lia | lia | lia |].
      rewrite Hrun, !bind_Returned. cbn [AddDerivationsV2.i result].
      rewrite v2_has_derivation_spec, !bind_Returned by done.
      rewrite <- Hwalk. unfold block.
      destruct (window (drop j lines)); cbn [negb];
        rewrite bind_Returned, IH by lia;
        by rewrite <- ?app_assoc.
    + rewrite bind_Returned, IH by lia. by rewrite <- app_assoc.
  - rewrite bool_decide_false by done.
    assert (i = length lines) as -> by lia.
    by rewrite drop_all, app_nil_r.
Qed.

Lemma v2_rewrite_lines_walk lines fuel :
  length lines < fuel →
  rewrite_lines ualnum fuel lines = Returned (walk Scan lines).
Proof.
  intros Hfuel. unfold rewrite_lines.
  rewrite (v2_main_run lines fuel Hfuel fuel 0 []) by lia.
  reflexivity.
Qed.

Lemma v2_transform_walk content :
  transform ualnum content
  = Returned (writelines (walk Scan (readlines content))).
Proof.
  unfold transform, transform_with.
  by rewrite v2_rewrite_lines_walk by lia.
Qed.

End AddDerivationsV2Facts.

(** ** add-violation-derivation.py: the loops are the walk *)

Section AddViolationDerivationFacts.

Import AddViolationDerivation AddViolationDerivationRef SpanRewriter.

Lemma vd_has_derivation_spec lines j :
  j < length lines →
  has_derivation lines j = Returned (window (drop (S j) lines)).
Proof.
  intros Hj. unfold has_derivation, window.
  rewrite any_in_range_spec by lia.
  replace (j + 5) with (j + 1 + 4) by lia.
  rewrite take_min_drop. by replace (j + 1) with (S j) by lia.
Qed.

Lemma vd_walk_InSpan_cons span x xs :
  walk (InSpan span) (x :: xs) =
  x :: if contains TERMINATOR x
       then block (span ++ [x]) xs ++ walk Scan xs
       else walk (InSpan (span ++ [x])) xs.
Proof. reflexivity. Qed.

Lemma vd_walk_Scan_cons x xs :
  walk Scan (x :: xs) =
  x :: if contains SUBMIT_CALL x then walk (InSpan [x]) xs
       else walk Scan xs.
Proof.
  unfold walk, start. cbn [emit andb].
  destruct (contains SUBMIT_CALL x); reflexivity.
Qed.

Lemma vd_scan_body_step lines i res span l :
  lines !! i = Some l →
  scan_body lines (State i res span) =
  if contains TERMINATOR l then
    if contains OBSERVATION_ID (concat (span ++ [l])) then
      found ← has_derivation lines i;
      if negb found
      then mret (Break (State i ((res ++ [l]) ++ [derivation_code ++ [NL]])
                              (span ++ [l])))
      else mret (Break (State i (res ++ [l]) (span ++ [l])))
    else mret (Break (State i (res ++ [l]) (span ++ [l])))
  else mret (Next (State (S i) (res ++ [l]) (span ++ [l]))).
Proof.
  intros Hl. unfold scan_body. cbn. by rewrite (index_Some _ _ _ Hl).
Qed.

(** The scan of lines 35 to 53 stops at the line that closes the span,
    or past the last line. *)
Lemma vd_scan_run lines fuel : ∀ i res span,
  i ≤ length lines → length lines - i < fuel →
  ∃ j res' span', i ≤ j ∧ j ≤ length lines
    ∧ while_break fuel (scan_cond lines) (scan_body lines)
        (State i res span)
      = Returned (State j res' span')
    ∧ (j = length lines
       ∨ ∃ l, lines !! j = Some l ∧ contains TERMINATOR l = true)
    ∧ res' ++ walk Scan (drop (S j) lines)
      = res ++ walk (InSpan span) (drop i lines).
Proof.
  induction fuel as [|fuel IH]; intros i res span Hi Hfuel; [lia|].
  cbn [while_break]. unfold scan_cond at 1.
  cbn [AddViolationDerivation.i].
  destruct (decide (i < length lines)) as [Hlt|Hge].
  - rewrite bool_decide_true by done.
    destruct (index_lt lines i Hlt) as (l & Hl & _).
    rewrite (vd_scan_body_step _ _ _ _ _ Hl).
    rewrite (drop_lookup_cons _ _ _ Hl), vd_walk_InSpan_cons.
    destruct (contains TERMINATOR l) eqn:Hterm.
    + unfold block. rewrite vd_has_derivation_spec by done.
      destruct (contains OBSERVATION_ID (concat (span ++ [l])));
        [destruct (window (drop (S i) lines))|];
        cbn [andb negb mbind outcome_bind mret outcome_ret];
        eexists i, _, _;
        (split_and!; [lia | lia | reflexivity | right; by exists l |]);
        by rewrite <- ?app_assoc.
    + cbn [mbind outcome_bind mret outcome_ret].
      destruct (IH (S i) (res ++ [l]) (span ++ [l]))
        as (j & res' & span' & Hij & Hj & Hrun & Hstop & Hwalk);
        [lia | lia |].
      exists j, res', span'. rewrite Hrun, Hwalk.
      split_and!; [lia | lia | done | done | by rewrite <- app_assoc].
  - rewrite bool_decide_false by done.
    exists i, res, span. rewrite !drop_ge by lia.
    split_and!; [lia | lia | done | left; lia | done].
Qed.

Lemma vd_main_body_step fuel0 lines i res span x :
  lines !! i = Some x →
  main_body fuel0 lines (State i res span) =
  if contains SUBMIT_CALL x then
    st' ← while_break fuel0 (scan_cond lines) (scan_body lines)
            (State (S i) (res ++ [x]) [x]);
    mret (State (S (AddViolationDerivation.i st')) (result_lines st')
                (submit_lines st'))
  else mret (State (S i) (res ++ [x]) span).
Proof.
  intros Hx. unfold main_body. cbn. by rewrite (index_Some _ _ _ Hx).
Qed.

(** Lines 22 to 55 compute the walk. *)
Lemma vd_main_run lines fuel0 (Hfuel0 : length lines < fuel0) :
  ∀ fuel i res span, length lines - i < fuel →
  ∃ k span',
    while fuel (main_cond lines) (main_body fuel0 lines) (State i res span)
    = Returned (State k (res ++ walk Scan (drop i lines)) span').
Proof.
  induction fuel as [|fuel IH]; intros i res span Hfuel; [lia|].
  cbn [while]. unfold main_cond at 1. cbn [AddViolationDerivation.i].
  destruct (decide (i < length lines)) as [Hlt|Hge].
  - rewrite bool_decide_true by done.
    destruct (index_lt lines i Hlt) as (x & Hx & _).
    rewrite (vd_main_body_step _ _ _ _ _ _ Hx).
    rewrite (drop_lookup_cons _ _ _ Hx), vd_walk_Scan_cons.
    destruct (contains SUBMIT_CALL x).
    + destruct (vd_scan_run lines fuel0 (S i) (res ++ [x]) [x])
        as (j & res' & span' & Hij & Hj & Hrun & _ & Hwalk); [lia | lia |].
      rewrite Hrun, !bind_Returned.
      cbn [AddViolationDerivation.i result_lines submit_lines].
      destruct (IH (S j) res' span') as (k & span'' & Hk); [lia|].
      exists k, span''. rewrite Hk, Hwalk. by rewrite <- app_assoc.
    + rewrite bind_Returned.
      destruct (IH (S i) (res ++ [x]) span) as (k & span' & Hk); [lia|].
      exists k, span'. rewrite Hk. by rewrite <- app_assoc.
  - rewrite bool_decide_false by done.
    exists i, span. rewrite drop_ge by lia. by rewrite app_nil_r.
Qed.

Lemma vd_rewrite_lines_walk lines fuel :
  length lines < fuel →
  rewrite_lines fuel lines = Returned (walk Scan lines).
Proof.
  intros Hfuel. unfold rewrite_lines.
  destruct (vd_main_run lines fuel Hfuel fuel 0 [] []) as (k & span & ->);
    [lia|].
  reflexivity.
Qed.

Lemma vd_transform_walk content :
  transform content = Returned (writelines (walk Scan (readlines content))).
Proof.
  unfold transform, transform_with.
  by rewrite vd_rewrite_lines_walk by lia.
Qed.

End AddViolationDerivationFacts.

(** ** add-submitted-by.py: the loops are the walk *)

Section AddSubmittedByFacts.

Import AddSubmittedBy AddSubmittedByRef.

Lemma asb_walk_Scan_cons x xs :
  walk Scan (x :: xs) =
  if contains SUBMIT_OPEN x then asb_after (brace_delta x) x xs
  else x :: walk Scan xs.
Proof. reflexivity. Qed.

Lemma asb_walk_InCall_cons bc x xs :
  walk (InCall bc) (x :: xs) = asb_after (bc + brace_delta x) x xs.
Proof. reflexivity. Qed.

Lemma set_last_snoc {A} (init : list A) (x y : A) :
  set_last (init ++ [x]) y = Returned (init ++ [y]).
Proof.
  unfold set_last. destruct (init ++ [x]) eqn:E.
  - by destruct init.
  - rewrite <- E. f_equal. rewrite length_app. simpl.
    replace (length init + 1 - 1) with (length init + 0) by lia.
    by rewrite insert_app_r.
Qed.

Lemma index_last_snoc {A} (init : list A) (x : A) :
  index_last (init ++ [x]) = Returned x.
Proof. unfold index_last. by rewrite last_snoc. Qed.

(** Lines 47 to 53 rewrite the last line of the span and no other. *)
Lemma add_user_snoc init x :
  add_user (init ++ [x]) = Returned (init ++ [rewrite_last x]).
Proof.
  unfold add_user, rewrite_last.
  rewrite index_last_snoc, bind_Returned.
  repeat case_bool_decide; by rewrite ?set_last_snoc.
Qed.

Lemma asb_collect_body_step lines i bc cl l :
  lines !! i = Some l →
  collect_body lines (CollectState i bc cl)
  = Returned (CollectState (S i) (bc + brace_delta l) (cl ++ [l])).
Proof.
  intros Hl. unfold collect_body. cbn. by rewrite (index_Some _ _ _ Hl).
Qed.

(** The collector of lines 42 to 45 stops after the line that brings
    the balance to zero or below, or past the last line. *)
Lemma asb_collect_run lines fuel : ∀ i bc init x,
  i ≤ length lines → length lines - i < fuel →
  ∃ j bc', i ≤ j ∧ j ≤ length lines
    ∧ while fuel (collect_cond lines) (collect_body lines)
        (CollectState i bc (init ++ [x]))
      = Returned (CollectState j bc'
                    (init ++ [x] ++ take (j - i) (drop i lines)))
    ∧ ((bc ≤ 0)%Z → j = i)
    ∧ ∃ rewritten,
        add_user (init ++ [x] ++ take (j - i) (drop i lines))
        = Returned rewritten
        ∧ rewritten ++ walk Scan (drop j lines)
          = init ++ asb_after bc x (drop i lines).
Proof.
  induction fuel as [|fuel IH]; intros i bc init x Hi Hfuel; [lia|].
  cbn [while]. unfold collect_cond at 1. cbn [c_i brace_count].
  destruct (decide (i < length lines)) as [Hlt|Hge];
    [destruct (decide (0 < bc)%Z) as [Hpos|Hneg]|].
  - rewrite !bool_decide_true by done. cbn [andb].
    destruct (index_lt lines i Hlt) as (l & Hl & _).
    rewrite (asb_collect_body_step _ _ _ _ _ Hl), bind_Returned.
    destruct (IH (S i) (bc + brace_delta l)%Z (init ++ [x]) l)
      as (j & bc' & Hij & Hj & Hrun & _ & rewritten & Hadd & Hwalk);
      [lia | lia |].
    exists j, bc'. rewrite Hrun.
    rewrite (drop_lookup_cons _ _ _ Hl).
    replace (j - i) with (S (j - S i)) by lia. cbn [take].
    rewrite <- !app_assoc in *. cbn [app] in *.
    split_and!; [lia | lia | done | lia |].
    exists rewritten. split; [done|]. rewrite Hwalk.
    unfold asb_after at 2. rewrite bool_decide_true by done.
    by rewrite asb_walk_InCall_cons.
  - rewrite (bool_decide_false (0 < bc)%Z) by done.
    rewrite andb_false_r.
    exists i, bc. replace (i - i) with 0 by lia.
    rewrite take_0, app_nil_r.
    split_and!; [lia | lia | done | done |].
    exists (init ++ [rewrite_last x]). split; [apply add_user_snoc|].
    unfold asb_after. rewrite bool_decide_false by done.
    by rewrite <- app_assoc.
  - rewrite (bool_decide_false (i < length lines)) by done. cbn [andb].
    exists i, bc. replace (i - i) with 0 by lia.
    rewrite take_0, app_nil_r.
    split_and!; [lia | lia | done | done |].
    exists (init ++ [rewrite_last x]). split; [apply add_user_snoc|].
    unfold asb_after. rewrite !drop_ge by lia.
    case_bool_decide; by rewrite ?app_nil_r.
Qed.

Lemma asb_main_body_step fuel0 lines i res x :
  lines !! i = Some x →
  main_body fuel0 lines (State i res) =
  if contains SUBMIT_OPEN x then
    c ← collect fuel0 lines i x;
    call_lines' ← add_user (call_lines c);
    mret (State (c_i c) (res ++ call_lines'))
  else mret (State (S i) (res ++ [x])).
Proof.
  intros Hx. unfold main_body. cbn. by rewrite (index_Some _ _ _ Hx).
Qed.

(** Lines 30 to 58 compute the walk. *)
Lemma asb_main_run lines fuel0 (Hfuel0 : length lines < fuel0) :
  ∀ fuel i res, i ≤ length lines → length lines - i < fuel →
  while fuel (main_cond lines) (main_body fuel0 lines) (State i res)
  = Returned (State (length lines) (res ++ walk Scan (drop i lines))).
Proof.
  induction fuel as [|fuel IH]; intros i res Hi Hfuel; [lia|].
  cbn [while]. unfold main_cond at 1. cbn [AddSubmittedBy.i].
  destruct (decide (i < length lines)) as [Hlt|Hge].
  - rewrite bool_decide_true by done.
    destruct (index_lt lines i Hlt) as (x & Hx & _).
    rewrite (asb_main_body_step _ _ _ _ _ Hx).
    rewrite (drop_lookup_cons _ _ _ Hx), asb_walk_Scan_cons.
    destruct (contains SUBMIT_OPEN x).
    + unfold collect.
      destruct (asb_collect_run lines fuel0 (S i) (brace_delta x) [] x)
        as (j & bc' & Hij & Hj & Hrun & _ & rewritten & Hadd & Hwalk);
        [lia | lia |].
      cbn [app] in Hrun, Hadd, Hwalk.
      rewrite Hrun, !bind_Returned. cbn [call_lines c_i].
      rewrite Hadd, !bind_Returned, IH by lia.
      by rewrite <- app_assoc, Hwalk.
    + rewrite bind_Returned, IH by lia. by rewrite <- app_assoc.
  - rewrite bool_decide_false by done.
    assert (i = length lines) as -> by lia.
    by rewrite drop_all, app_nil_r.
Qed.

Lemma asb_rewrite_lines_walk lines fuel :
  length lines < fuel →
  rewrite_lines fuel lines = Returned (walk Scan lines).
Proof.
  intros Hfuel. unfold rewrite_lines.
  by rewrite (asb_main_run lines fuel Hfuel fuel 0 []) by lia.
Qed.

Lemma asb_transform_walk content :
  transform content = Returned (join [NL] (walk Scan (split NL content))).
Proof.
  unfold transform, transform_with.
  by rewrite asb_rewrite_lines_walk by lia.
Qed.

End AddSubmittedByFacts.

(** ** Stripping and replacing *)

Section StripFacts.

Lemma take_drop_while p (s : str) : take_while p s ++ drop_while p s = s.
Proof.
  induction s as [|c s IH]; [done|]. simpl.
  destruct (p c); [by rewrite <- IH at 3 | done].
Qed.

Lemma take_while_all p (s : str) : forallb p (take_while p s) = true.
Proof.
  induction s as [|c s IH]; [done|]. simpl.
  destruct (p c) eqn:E; [simpl; by rewrite E | done].
Qed.

Lemma drop_while_app_all p (u s : str) :
  forallb p u = true → drop_while p (u ++ s) = drop_while p s.
Proof.
  induction u as [|c u IH]; [done|]. simpl.
  intros [-> Hu]%andb_true_iff. by apply IH.
Qed.

Lemma drop_while_head p c (s : str) :
  p c = false → drop_while p (c :: s) = c :: s.
Proof. intros H. simpl. by rewrite H. Qed.

Lemma forallb_reverse {A} (p : A → bool) (l : list A) :
  forallb p (reverse l) = forallb p l.
Proof.
  induction l as [|a l IH]; [done|].
  rewrite reverse_cons, forallb_app, IH. simpl.
  destruct (p a), (forallb p l); done.
Qed.

Lemma strip_decompose (s : str) :
  s = leading s ++ strip s ++ trailing s
  ∧ forallb isspace (leading s) = true
  ∧ forallb isspace (trailing s) = true.
Proof.
  unfold leading, trailing, strip, rstrip, lstrip. split_and!.
  - rewrite <- reverse_app, take_drop_while, reverse_involutive.
    by rewrite take_drop_while.
  - apply take_while_all.
  - rewrite forallb_reverse. apply take_while_all.
Qed.

(** A text between white space strips to itself when it neither starts
    nor ends with white space. *)
Lemma strip_padded (u v core : str) c d mid :
  core = c :: mid → last core = Some d →
  isspace c = false → isspace d = false →
  forallb isspace u = true → forallb isspace v = true →
  strip (u ++ core ++ v) = core.
Proof.
  intros -> Hlast Hc Hd Hu Hv. unfold strip, rstrip, lstrip.
  rewrite drop_while_app_all by done.
  cbn [app]. rewrite drop_while_head by done.
  change (c :: mid ++ v) with ((c :: mid) ++ v).
  rewrite reverse_app, drop_while_app_all by (by rewrite forallb_reverse).
  apply last_Some in Hlast as [init Hinit]. rewrite Hinit.
  rewrite reverse_app. cbn [reverse app Datatypes.app]. simpl.
  rewrite Hd. by rewrite reverse_cons, reverse_involutive.
Qed.

Lemma startswith_app (p s : str) : startswith p (p ++ s) = true.
Proof. induction p as [|a p IH]; [done|]. simpl. by rewrite N.eqb_refl. Qed.

Lemma startswith_prefix (p s : str) :
  startswith p s = true ↔ ∃ t, s = p ++ t.
Proof.
  split.
  - revert s. induction p as [|a p IH]; intros s H; [by exists s|].
    destruct s as [|b s]; [done|]. simpl in H.
    apply andb_true_iff in H as [->%N.eqb_eq H].
    destruct (IH s H) as [t ->]. by exists t.
  - intros [t ->]. apply startswith_app.
Qed.

Lemma startswith_head_ne (a b : N) (p s : str) :
  a ≠ b → startswith (a :: p) (b :: s) = false.
Proof. intros H. simpl. by rewrite (proj2 (N.eqb_neq a b) H). Qed.

(** Characters that cannot open an occurrence are copied. *)
Lemma replace_from_skip_prefix (a : N) (old new u s : str) :
  Forall (λ c, c ≠ a) u →
  replace_from (a :: old) new 0 (u ++ s)
  = u ++ replace_from (a :: old) new 0 s.
Proof.
  induction 1 as [|c u Hc Hu IH]; [done|].
  cbn [app replace_from]. rewrite startswith_head_ne by done.
  by rewrite IH.
Qed.

Lemma replace_from_skipping (old new : str) (k : nat) (u s : str) :
  length u = k →
  replace_from old new k (u ++ s) = replace_from old new 0 s.
Proof.
  revert k. induction u as [|c u IH]; intros k <-; [done|].
  simpl. by apply IH.
Qed.

Lemma replace_from_no_head (a : N) (old new s : str) :
  Forall (λ c, c ≠ a) s → replace_from (a :: old) new 0 s = s.
Proof.
  intros H. rewrite <- (app_nil_r s) at 1.
  rewrite replace_from_skip_prefix by done. by rewrite app_nil_r.
Qed.

(** One occurrence between characters that cannot open one. *)
Lemma replace_padded (a : N) (old new u v : str) :
  Forall (λ c, c ≠ a) u → Forall (λ c, c ≠ a) v →
  replace (a :: old) new (u ++ (a :: old) ++ v) = u ++ new ++ v.
Proof.
  intros Hu Hv. unfold replace.
  rewrite replace_from_skip_prefix by done. f_equal.
  cbn [app replace_from].
  change (a :: old ++ v) with ((a :: old) ++ v).
  rewrite startswith_app. f_equal.
  rewrite replace_from_skipping by (simpl; lia).
  by apply replace_from_no_head.
Qed.

Lemma isspace_not (a : N) (u : str) :
  isspace a = false → forallb isspace u = true → Forall (λ c, c ≠ a) u.
Proof.
  intros Ha Hu. apply Forall_forall. intros c Hc ->.
  apply list_elem_of_In in Hc.
  rewrite forallb_forall in Hu. specialize (Hu _ Hc). congruence.
Qed.

Lemma count_app (c : N) (u v : str) :
  count c (u ++ v) = count c u + count c v.
Proof. induction u as [|b u IH]; [done|]. simpl. rewrite IH. lia. Qed.

Lemma count_spaces (c : N) (u : str) :
  isspace c = false → forallb isspace u = true → count c u = 0.
Proof.
  intros Hc. induction u as [|b u IH]; [done|]. simpl.
  intros [Hb Hu]%andb_true_iff. rewrite IH by done.
  destruct (N.eqb_spec b c) as [->|]; [congruence | done].
Qed.

Lemma contains_app_r (sub u s : str) :
  contains sub s = true → contains sub (u ++ s) = true.
Proof.
  intros H. induction u as [|c u IH]; [done|]. simpl.
  rewrite IH. apply orb_true_r.
Qed.

Lemma startswith_app_l (p s t : str) :
  startswith p s = true → startswith p (s ++ t) = true.
Proof.
  intros [u ->]%startswith_prefix. rewrite <- app_assoc.
  apply startswith_app.
Qed.

Lemma contains_app_l (sub s t : str) :
  contains sub s = true → contains sub (s ++ t) = true.
Proof.
  induction s as [|c s IH]; simpl.
  - rewrite orb_false_r. destruct sub; [|done]. intros _.
    destruct t; done.
  - intros [H|H]%orb_true_iff.
    + change (c :: s ++ t) with ((c :: s) ++ t).
      by rewrite (startswith_app_l _ _ _ H).
    + rewrite (IH H). apply orb_true_r.
Qed.

Lemma contains_occurs (sub s : str) :
  contains sub s = true ↔ ∃ u v, s = u ++ sub ++ v.
Proof.
  split.
  - induction s as [|c s IH]; simpl.
    + rewrite orb_false_r. intros [t Ht]%startswith_prefix.
      exists [], t. done.
    + intros [[t Ht]%startswith_prefix|H]%orb_true_iff.
      * exists [], t. done.
      * destruct (IH H) as (u & v & ->). by exists (c :: u), v.
  - intros (u & v & ->). apply contains_app_r.
    assert (startswith sub (sub ++ v) = true) as H by apply startswith_app.
    destruct (sub ++ v); simpl in *; by rewrite H.
Qed.

Lemma contains_length (sub s : str) :
  contains sub s = true → length sub ≤ length s.
Proof.
  intros (u & v & ->)%contains_occurs. rewrite !length_app. lia.
Qed.

End StripFacts.

(** ** add-submitted-by.py: the rewrite of the last line *)

Section RewriteLastFacts.

Import AddSubmittedBy AddSubmittedByRef.

Lemma rewrite_last_stmt x :
  strip x = CLOSE_STMT →
  rewrite_last x = leading x ++ CLOSE_STMT_USER ++ trailing x.
Proof.
  intros H. unfold rewrite_last. rewrite bool_decide_true by done.
  destruct (strip_decompose x) as (Hx & Hu & Hv). rewrite H in Hx.
  remember (leading x) as u. remember (trailing x) as v.
  rewrite Hx. change CLOSE_STMT with (ch "}" :: lit ");").
  apply replace_padded; by apply isspace_not.
Qed.

Lemma rewrite_last_item x :
  strip x = CLOSE_ITEM →
  rewrite_last x = leading x ++ CLOSE_ITEM_USER ++ trailing x.
Proof.
  intros H. unfold rewrite_last.
  rewrite bool_decide_false by (by rewrite H).
  rewrite bool_decide_true by done.
  destruct (strip_decompose x) as (Hx & Hu & Hv). rewrite H in Hx.
  remember (leading x) as u. remember (trailing x) as v.
  rewrite Hx. change CLOSE_ITEM with (ch "}" :: lit "),").
  apply replace_padded; by apply isspace_not.
Qed.

Lemma rewrite_last_other x :
  strip x ≠ CLOSE_STMT → strip x ≠ CLOSE_ITEM → rewrite_last x = x.
Proof. intros H1 H2. unfold rewrite_last. by rewrite !bool_decide_false. Qed.

(** The three ways the last line of a span comes out. *)
Lemma rewrite_last_cases x :
  (strip x = CLOSE_STMT
   ∧ x = leading x ++ CLOSE_STMT ++ trailing x
   ∧ rewrite_last x = leading x ++ CLOSE_STMT_USER ++ trailing x)
  ∨ (strip x = CLOSE_ITEM
     ∧ x = leading x ++ CLOSE_ITEM ++ trailing x
     ∧ rewrite_last x = leading x ++ CLOSE_ITEM_USER ++ trailing x)
  ∨ (strip x ≠ CLOSE_STMT ∧ strip x ≠ CLOSE_ITEM ∧ rewrite_last x = x).
Proof.
  destruct (strip_decompose x) as (Hx & _ & _).
  destruct (decide (strip x = CLOSE_STMT)) as [H1|H1].
  - left. rewrite H1 in Hx. by rewrite <- (rewrite_last_stmt x H1).
  - destruct (decide (strip x = CLOSE_ITEM)) as [H2|H2].
    + right; left. rewrite H2 in Hx. by rewrite <- (rewrite_last_item x H2).
    + right; right. by rewrite rewrite_last_other.
Qed.


Lemma contains_no_head (a : N) (p s : str) :
  Forall (λ c, c ≠ a) s → contains (a :: p) s = false.
Proof.
  induction 1 as [|c s Hc Hs IH]; [done|].
  cbn [contains]. rewrite IH, orb_false_r.
  apply startswith_head_ne. congruence.
Qed.

(** A line that opens a call is not one that closes one: the start line
    of a span is never rewritten. *)
Lemma rewrite_last_submit x :
  contains SUBMIT_OPEN x = true → rewrite_last x = x.
Proof.
  intros Hsub.
  destruct (strip_decompose x) as (_ & Hu & Hv).
  assert (∀ core, x = leading x ++ core ++ trailing x →
            Forall (λ c, c ≠ ch "a") core → False) as Hno.
  { intros core Hx Hcore. rewrite Hx in Hsub.
    change SUBMIT_OPEN with (ch "a" :: lit "wait observationService.submit({") in Hsub.
    rewrite contains_no_head in Hsub; [done|].
    rewrite !Forall_app. split_and!; [by apply isspace_not | done
                                     | by apply isspace_not]. }
  destruct (rewrite_last_cases x)
    as [(H & Hx & Hr)|[(H & Hx & Hr)|(H1 & H2 & Hr)]]; [| |done].
  - destruct (Hno _ Hx). by repeat constructor.
  - destruct (Hno _ Hx). by repeat constructor.
Qed.

Lemma rewrite_last_delta x : brace_delta (rewrite_last x) = brace_delta x.
Proof.
  destruct (strip_decompose x) as (_ & Hu & Hv).
  destruct (rewrite_last_cases x)
    as [(H & Hx & Hr)|[(H & Hx & Hr)|(H1 & H2 & Hr)]];
    [| |by rewrite Hr];
    rewrite Hr; rewrite Hx at 3; unfold brace_delta;
    rewrite !count_app; reflexivity.
Qed.

Lemma rewrite_last_idempotent x :
  rewrite_last (rewrite_last x) = rewrite_last x.
Proof.
  destruct (strip_decompose x) as (_ & Hu & Hv).
  destruct (rewrite_last_cases x)
    as [(H & Hx & Hr)|[(H & Hx & Hr)|(H1 & H2 & Hr)]];
    [| |by rewrite Hr];
    rewrite Hr; apply rewrite_last_other;
    erewrite strip_padded; try done.
Qed.

Lemma rewrite_last_no_newline x :
  NL ∉ x → NL ∉ rewrite_last x.
Proof.
  intros Hx.
  destruct (rewrite_last_cases x)
    as [(H & Hd & Hr)|[(H & Hd & Hr)|(H1 & H2 & Hr)]];
    [| |by rewrite Hr];
    rewrite Hr; rewrite Hd in Hx;
    rewrite !elem_of_app in *; intros [?|[Hin|?]]; try tauto;
    by apply list_elem_of_In in Hin; vm_compute in Hin; intuition discriminate.
Qed.

End RewriteLastFacts.

(** ** add-submitted-by.py: the span collector *)

Section CollectFacts.

Import AddSubmittedBy AddSubmittedByRef.

Lemma delta_sum_same lines i : delta_sum lines i i = 0%Z.
Proof. unfold delta_sum. by replace (i - i) with 0 by lia. Qed.

Lemma delta_sum_step lines i k l :
  lines !! i = Some l → i < k →
  delta_sum lines i k = (brace_delta l + delta_sum lines (S i) k)%Z.
Proof.
  intros Hl Hk. unfold delta_sum.
  rewrite (drop_lookup_cons _ _ _ Hl).
  by replace (k - i) with (S (k - S i)) by lia.
Qed.

(** The loop of lines 42 to 45 runs as long as the balance read so far
    is positive and lines are left. *)
Lemma asb_collect_loop lines fuel : ∀ i bc cl j,
  i ≤ j → j ≤ length lines → length lines - i < fuel →
  (∀ k, i ≤ k → k < j → (0 < bc + delta_sum lines i k)%Z) →
  (j = length lines ∨ (bc + delta_sum lines i j ≤ 0)%Z) →
  while fuel (collect_cond lines) (collect_body lines)
    (CollectState i bc cl)
  = Returned (CollectState j (bc + delta_sum lines i j)
                (cl ++ take (j - i) (drop i lines))).
Proof.
  induction fuel as [|fuel IH]; intros i bc cl j Hij Hj Hfuel Hpos Hstop;
    [lia|].
  cbn [while]. unfold collect_cond at 1. cbn [c_i brace_count].
  destruct (decide (i = j)) as [<-|Hne].
  - rewrite delta_sum_same, Z.add_0_r in *.
    replace (i - i) with 0 by lia. rewrite take_0, app_nil_r.
    destruct Hstop as [->|Hle].
    + rewrite (bool_decide_false (_ < _)) by lia. done.
    + rewrite (bool_decide_false (_ < _)%Z) by lia.
      by rewrite andb_false_r.
  - assert (0 < bc)%Z as Hbc.
    { specialize (Hpos i). rewrite delta_sum_same in Hpos. lia. }
    rewrite !bool_decide_true by lia. cbn [andb].
    destruct (index_lt lines i) as (l & Hl & _); [lia|].
    rewrite (asb_collect_body_step _ _ _ _ _ Hl), bind_Returned.
    rewrite (IH (S i) _ _ j); [| lia | lia | lia | |].
    + rewrite (delta_sum_step _ _ _ _ Hl) by lia.
      rewrite (drop_lookup_cons _ _ _ Hl).
      replace (j - i) with (S (j - S i)) by lia. cbn [take].
      rewrite <- app_assoc. do 2 f_equal. lia.
    + intros k Hk1 Hk2. specialize (Hpos k).
      rewrite (delta_sum_step _ _ _ _ Hl) in Hpos by lia. lia.
    + rewrite (delta_sum_step _ _ _ _ Hl) in Hstop by lia.
      destruct Hstop; [by left | right; lia].
Qed.

(** From the start line on. *)
Lemma asb_collect_to lines fuel s line j :
  lines !! s = Some line → length lines < fuel →
  s < j → j ≤ length lines →
  (∀ k, s < k → k < j → (0 < delta_sum lines s k)%Z) →
  (j = length lines ∨ (delta_sum lines s j ≤ 0)%Z) →
  collect fuel lines s line
  = Returned (CollectState j (delta_sum lines s j)
                (take (j - s) (drop s lines))).
Proof.
  intros Hl Hfuel Hsj Hj Hpos Hstop. unfold collect.
  rewrite (asb_collect_loop lines fuel (S s) _ _ j); [| lia | lia | lia | |].
  - rewrite (delta_sum_step _ _ _ _ Hl) by lia.
    rewrite (drop_lookup_cons _ _ _ Hl).
    by replace (j - s) with (S (j - S s)) by lia.
  - intros k Hk1 Hk2. specialize (Hpos k).
    rewrite (delta_sum_step _ _ _ _ Hl) in Hpos by lia. apply Hpos; lia.
  - rewrite (delta_sum_step _ _ _ _ Hl) in Hstop by lia. done.
Qed.




(** A call that is balanced on its start line is a span of one line: the
    collector does not look for a later line with the balance at zero. *)
Example collect_one_line_call :
  first_balanced_after
    [lit "await observationService.submit({ a: 1 });"; lit "next();"] 0
  = Some 1
  ∧ collect 3
      [lit "await observationService.submit({ a: 1 });"; lit "next();"] 0
      (lit "await observationService.submit({ a: 1 });")
    = Returned (CollectState 1 0
                  [lit "await observationService.submit({ a: 1 });"]).
Proof. split; reflexivity. Qed.

End CollectFacts.

(** ** add-submitted-by.py: when the parameter is added *)

Section TestUserFacts.

Import AddSubmittedBy AddSubmittedByRef.



(** On [Samples.call] the line [  });] becomes [  }, 'test-user');]. *)
Example test_user_added_sample :
  rewrite_lines 6 Samples.call
  = Returned [ lit "before();";
               lit "  const r = await observationService.submit({";
               lit "    a: 1,";
               lit "  }, 'test-user');";
               lit "after();" ].
Proof. reflexivity. Qed.

End TestUserFacts.

(** ** Termination of the span collectors *)

Section TerminationFacts.

Import AddSubmittedByRef.

Lemma vd_scan_eof lines fuel : ∀ i res span,
  (∀ k l, i ≤ k → lines !! k = Some l →
          contains AddViolationDerivation.TERMINATOR l = false) →
  i ≤ length lines → length lines - i < fuel →
  while_break fuel (AddViolationDerivation.scan_cond lines)
    (AddViolationDerivation.scan_body lines)
    (AddViolationDerivation.State i res span)
  = Returned (AddViolationDerivation.State (length lines)
                (res ++ drop i lines) (span ++ drop i lines)).
Proof.
  induction fuel as [|fuel IH]; intros i res span Hno Hi Hfuel; [lia|].
  cbn [while_break]. unfold AddViolationDerivation.scan_cond at 1.
  cbn [AddViolationDerivation.i].
  destruct (decide (i < length lines)) as [Hlt|Hge].
  - rewrite bool_decide_true by done.
    destruct (index_lt lines i Hlt) as (l & Hl & _).
    rewrite (vd_scan_body_step _ _ _ _ _ Hl), (Hno i l) by done.
    cbn [mbind outcome_bind mret outcome_ret].
    rewrite IH; [| intros k l' Hk; apply Hno; lia | lia | lia].
    rewrite (drop_lookup_cons _ _ _ Hl). by rewrite <- !app_assoc.
  - rewrite bool_decide_false by done.
    assert (i = length lines) as -> by lia.
    by rewrite drop_all, !app_nil_r.
Qed.

(** C6.  With more fuel than there are lines, each of the three span
    collectors returns, with its index at most the number of lines; when
    nothing ends the span (the balance of the braces stays positive, or
    no line has the terminator) it stops past the last line, with all
    the lines from the start on in the span.  The rewriting loops around
    them return as well. *)
Theorem span_collectors_terminate
    (ualnum : N → bool) (fuel : nat) (lines : list str) :
  length lines < fuel →
  (∀ s line, lines !! s = Some line →
     ∃ st, AddSubmittedBy.collect fuel lines s line = Returned st
       ∧ AddSubmittedBy.c_i st ≤ length lines
       ∧ ((∀ k, s ≤ k → k < length lines → (0 < balance lines s k)%Z) →
          AddSubmittedBy.c_i st = length lines
          ∧ AddSubmittedBy.call_lines st = drop s lines))
  ∧ (∀ i res, 1 ≤ i → i ≤ length lines →
       ∃ st, while fuel (AddDerivationsV2.scan_cond lines)
               (AddDerivationsV2.scan_body lines)
               (AddDerivationsV2.State i res)
             = Returned st
         ∧ AddDerivationsV2.i st ≤ length lines
         ∧ ((∀ k l, i - 1 ≤ k → lines !! k = Some l →
                    contains AddDerivationsV2.TERMINATOR l = false) →
            AddDerivationsV2.i st = length lines
            ∧ AddDerivationsV2.result st = res ++ drop i lines))
  ∧ (∀ i res span, i ≤ length lines →
       ∃ st, while_break fuel (AddViolationDerivation.scan_cond lines)
               (AddViolationDerivation.scan_body lines)
               (AddViolationDerivation.State i res span)
             = Returned st
         ∧ AddViolationDerivation.i st ≤ length lines
         ∧ ((∀ k l, i ≤ k → lines !! k = Some l →
                    contains AddViolationDerivation.TERMINATOR l = false) →
            AddViolationDerivation.i st = length lines
            ∧ AddViolationDerivation.result_lines st = res ++ drop i lines
            ∧ AddViolationDerivation.submit_lines st
              = span ++ drop i lines))
  ∧ (∃ out, AddSubmittedBy.rewrite_lines fuel lines = Returned out)
  ∧ (∃ out, AddDerivationsV2.rewrite_lines ualnum fuel lines = Returned out)
  ∧ (∃ out, AddViolationDerivation.rewrite_lines fuel lines = Returned out).
Proof.
  intros Hfuel. split_and!.
  - intros s line Hl.
    assert (s < length lines) as Hs by (by eapply lookup_lt_Some).
    destruct (asb_collect_run lines fuel (S s) (AddSubmittedBy.brace_delta line)
                [] line)
      as (j & bc' & Hsj & Hj & Hrun & _); [lia | lia |].
    cbn [app] in Hrun.
    eexists. split; [apply Hrun|].
    cbn [AddSubmittedBy.c_i AddSubmittedBy.call_lines AddDerivationsV2.i
         AddDerivationsV2.result AddViolationDerivation.i
         AddViolationDerivation.result_lines
         AddViolationDerivation.submit_lines].
    split; [done|].
    intros Hpos.
    assert (AddSubmittedBy.collect fuel lines s line
            = Returned (AddSubmittedBy.CollectState (length lines)
                          (delta_sum lines s (length lines))
                          (take (length lines - s) (drop s lines)))) as Heof.
    { apply asb_collect_to; [done | done | lia | lia | | by left].
      intros k Hk1 Hk2. destruct k as [|k]; [lia|]. apply (Hpos k); lia. }
    unfold AddSubmittedBy.collect in Heof.
    rewrite Hrun in Heof. injection Heof as -> _ Hcl.
    split; [done|]. rewrite Hcl.
    apply take_ge. rewrite length_drop. lia.
  - intros i res Hi1 Hi2.
    destruct (index_lt lines (i - 1)) as (p & Hp & _); [lia|].
    destruct (v2_scan_run ualnum lines [] fuel i res p)
      as (j & Hij & Hj & Hrun & Hstop & _); [done | lia | lia | lia |].
    eexists. split; [apply Hrun|].
    cbn [AddSubmittedBy.c_i AddSubmittedBy.call_lines AddDerivationsV2.i
         AddDerivationsV2.result AddViolationDerivation.i
         AddViolationDerivation.result_lines
         AddViolationDerivation.submit_lines].
    split; [done|].
    intros Hno. destruct Hstop as [->|(l & Hl & Hterm)].
    + split; [done|]. f_equal. apply take_ge. rewrite length_drop. lia.
    + rewrite (Hno (j - 1) l) in Hterm; [done | lia | done].
  - intros i res span Hi.
    destruct (vd_scan_run lines fuel i res span)
      as (j & res' & span' & Hij & Hj & Hrun & _); [lia | lia |].
    eexists. split; [apply Hrun|].
    cbn [AddSubmittedBy.c_i AddSubmittedBy.call_lines AddDerivationsV2.i
         AddDerivationsV2.result AddViolationDerivation.i
         AddViolationDerivation.result_lines
         AddViolationDerivation.submit_lines].
    split; [done|].
    intros Hno. rewrite vd_scan_eof in Hrun by (done || lia).
    by injection Hrun as <- <- <-.
  - eexists. by apply asb_rewrite_lines_walk.
  - eexists. by apply v2_rewrite_lines_walk.
  - eexists. by apply vd_rewrite_lines_walk.
Qed.

Lemma span_collectors_terminate_witness :
  length Samples.call < 6
  ∧ (∃ st, AddSubmittedBy.collect 6 Samples.call 1
             (lit "  const r = await observationService.submit({")
           = Returned st
       ∧ AddSubmittedBy.c_i st ≤ length Samples.call)
  ∧ (∃ out, AddSubmittedBy.rewrite_lines 6 Samples.call = Returned out).
Proof.
  assert (length Samples.call < 6) as Hfuel by (simpl; lia).
  destruct (span_collectors_terminate (λ _, false) 6 Samples.call Hfuel)
    as (Hcollect & _ & _ & Hrun & _).
  split; [exact Hfuel|]. split; [|exact Hrun].
  destruct (Hcollect 1 (lit "  const r = await observationService.submit({"))
    as (st & Hst & Hle & _); [reflexivity|].
  exists st. by split.
Defined.

End TerminationFacts.

(** ** Where the blocks are put *)

Section PlacementFacts.

Import SpanRewriter.


Lemma foldl_snoc_extend (span : list str) (more : list str) :
  foldl AddViolationDerivationRef.extend span more = span ++ more.
Proof.
  revert span. induction more as [|l more IH]; intros span; simpl.
  - by rewrite app_nil_r.
  - rewrite IH. unfold AddViolationDerivationRef.extend.
    by rewrite <- app_assoc.
Qed.

Lemma find_close_existsb (closes : str → bool) (l : list str) :
  existsb closes l = bool_decide (is_Some (find_close closes l)).
Proof.
  induction l as [|x xs IH]; [done|]. cbn [existsb find_close].
  destruct (closes x); cbn [orb].
  - symmetry. by apply bool_decide_eq_true_2.
  - rewrite IH. apply bool_decide_ext. by rewrite fmap_is_Some.
Qed.


(** The block of a span of add-violation-derivation.py: the derivation
    code when a line closes the span, the text of the span has
    [observationId] and the marker is not within the four lines after
    it. *)
Lemma vd_span_block lines x s :
  lines !! s = Some x →
  let e := span_end false (contains AddViolationDerivation.TERMINATOR)
             lines s in
  span_block AddViolationDerivationRef.extend false
    (contains AddViolationDerivation.TERMINATOR)
    AddViolationDerivationRef.block (λ _, []) lines [x] s e
  = if AddViolationDerivationRef.closed lines s
       && contains AddViolationDerivation.OBSERVATION_ID
            (AddViolationDerivationRef.span_text lines s e)
       && negb (AddViolationDerivationRef.window (drop (S e) lines))
    then [AddViolationDerivation.derivation_code ++ [NL]] else [].
Proof.
  intros Hx.
  unfold SpanRewriter.span_block, span_end, payload,
    AddViolationDerivationRef.closed.
  rewrite find_close_existsb, foldl_snoc_extend.
  destruct (find_close _ (drop (S s) lines)) as [d|]; [|done].
  rewrite bool_decide_eq_true_2 by done. cbn [andb].
  unfold AddViolationDerivationRef.span_text.
  rewrite (drop_lookup_cons _ _ _ Hx).
  replace (S (S s + d) - s) with (S (S s + d - s)) by lia.
  done.
Qed.


(** What add-violation-derivation.py puts after the end line of a span
    it collects. *)
Lemma vd_spans_inserted (lines : list str) (s e : nat) :
  (s, e) ∈ AddViolationDerivationRef.spans lines →
  ∃ x, lines !! s = Some x
    ∧ contains AddViolationDerivation.SUBMIT_CALL x = true
    ∧ s ≤ e
    ∧ AddViolationDerivationRef.end_of_span lines s = e
    ∧ inserted AddViolationDerivationRef.start
        AddViolationDerivationRef.extend false
        (contains AddViolationDerivation.TERMINATOR)
        AddViolationDerivationRef.block (λ _, [])
        Scan lines !! e
      = Some (if AddViolationDerivationRef.closed lines s
                 && contains AddViolationDerivation.OBSERVATION_ID
                      (AddViolationDerivationRef.span_text lines s e)
                 && negb (AddViolationDerivationRef.window
                            (drop (S e) lines))
              then [AddViolationDerivation.derivation_code ++ [NL]]
              else []).
Proof.
  intros Hin.
  destruct (inserted_spans _ AddViolationDerivationRef.extend _ _
              AddViolationDerivationRef.block (λ _, [])
              lines s e Hin)
    as (x & t & Hx & Hstart & Hse & He & Hend & Hat).
  unfold AddViolationDerivationRef.start in Hstart.
  destruct (contains AddViolationDerivation.SUBMIT_CALL x) eqn:Hm;
    [|done].
  apply (inj Some) in Hstart. subst t.
  exists x. split_and!; [done | done | done | done |].
  rewrite Hat, Hend. f_equal. by apply vd_span_block.
Qed.

(** A closed span of add-violation-derivation.py ends after its start
    line. *)
Lemma vd_closed_span_end (lines : list str) (s : nat) :
  AddViolationDerivationRef.closed lines s = true →
  s < AddViolationDerivationRef.end_of_span lines s.
Proof.
  unfold AddViolationDerivationRef.closed.
  rewrite find_close_existsb. intros [d Hd]%bool_decide_eq_true.
  unfold AddViolationDerivationRef.end_of_span, span_end.
  rewrite Hd. lia.
Qed.


(** A submit call over three lines: the block for [obsId] goes between
    its last line and the line after it. *)
Example block_placement_sample :
  AddDerivationsV2.rewrite_lines (λ _, false) 5
    [ lit "const obsId = await observationService.submit({" ++ [NL];
      lit "  a: 1," ++ [NL];
      lit "});" ++ [NL];
      lit "next();" ++ [NL] ]
  = Returned
      ([ lit "const obsId = await observationService.submit({" ++ [NL];
         lit "  a: 1," ++ [NL];
         lit "});" ++ [NL] ]
         ++ AddDerivationsV2.derivation (lit "obsId")
         ++ [ lit "next();" ++ [NL] ]).
Proof. vm_compute. reflexivity. Qed.

(** The spans of that file and of a file with a second call that no
    line closes: the first span runs from line 0 to line 2, the second
    from line 4 to the last line for add-derivations-v2.py and for
    add-violation-derivation.py alike. *)
Example spans_sample :
  AddDerivationsV2Ref.spans (λ _, false)
    [ lit "const obsId = await observationService.submit({" ++ [NL];
      lit "  a: 1," ++ [NL];
      lit "});" ++ [NL];
      lit "next();" ++ [NL] ]
  = [(0, 2)]
  ∧ AddDerivationsV2Ref.spans (λ _, false)
      [ lit "const obsId = await observationService.submit({" ++ [NL];
        lit "  a: 1," ++ [NL];
        lit "});" ++ [NL];
        lit "next();" ++ [NL];
        lit "const obsId2 = await observationService.submit({" ++ [NL];
        lit "  b: 2," ++ [NL] ]
    = [(0, 2); (4, 5)]
  ∧ AddViolationDerivationRef.spans
      [ lit "const obsId = await observationService.submit({" ++ [NL];
        lit "  a: 1," ++ [NL];
        lit "});" ++ [NL];
        lit "next();" ++ [NL];
        lit "const obsId2 = await observationService.submit({" ++ [NL];
        lit "  b: 2," ++ [NL] ]
    = [(0, 2); (4, 5)].
Proof. split_and!; vm_compute; reflexivity. Qed.

End PlacementFacts.

(** ** Lines that are passed through *)

Section PassthroughFacts.

Import AddSubmittedBy AddSubmittedByRef.

Lemma find_seq_first (f : nat → bool) (n a e : nat) :
  a ≤ e → e < a + n → f e = true → (∀ k, a ≤ k → k < e → f k = false) →
  List.find f (seq a n) = Some e.
Proof.
  revert a. induction n as [|n IH]; intros a Hae Hen Hfe Hbefore; [lia|].
  simpl. destruct (decide (a = e)) as [->|Hne].
  - by rewrite Hfe.
  - rewrite Hbefore by lia. apply IH; [lia | lia | done |].
    intros k Hk1 Hk2. apply Hbefore; lia.
Qed.

Lemma find_seq_none (f : nat → bool) (n a : nat) :
  (∀ k, a ≤ k → k < a + n → f k = false) → List.find f (seq a n) = None.
Proof.
  revert a. induction n as [|n IH]; intros a Hall; [done|].
  simpl. rewrite Hall by lia. apply IH. intros k Hk1 Hk2. apply Hall; lia.
Qed.

Lemma span_last_closed lines s e :
  s ≤ e → e < length lines →
  (∀ k, s ≤ k → k < e → (0 < balance lines s k)%Z) →
  (balance lines s e ≤ 0)%Z →
  span_last lines s = e.
Proof.
  intros Hse He Hpos Hstop. unfold span_last, first_closed_from.
  rewrite (find_seq_first _ _ _ e); [done | lia | lia | |].
  - by apply bool_decide_eq_true.
  - intros k Hk1 Hk2. apply bool_decide_eq_false. specialize (Hpos k). lia.
Qed.

Lemma span_last_open lines s :
  (∀ k, s ≤ k → k < length lines → (0 < balance lines s k)%Z) →
  span_last lines s = length lines - 1.
Proof.
  intros Hpos. unfold span_last, first_closed_from.
  rewrite find_seq_none; [done|].
  intros k Hk1 Hk2. apply bool_decide_eq_false. specialize (Hpos k). lia.
Qed.

Lemma delta_sum_snoc lines s k l :
  lines !! k = Some l → s ≤ k →
  delta_sum lines s (S k) = (delta_sum lines s k + brace_delta l)%Z.
Proof.
  intros Hl Hsk. unfold delta_sum.
  replace (S k - s) with (S (k - s)) by lia.
  rewrite (take_S_r _ _ l).
  - rewrite fmap_app, foldr_app. simpl.
    generalize (brace_delta <$> take (k - s) (drop s lines)).
    intros zs. induction zs as [|z zs IH]; simpl; lia.
  - rewrite lookup_drop. by replace (s + (k - s)) with k by lia.
Qed.

Lemma balance_start lines s l :
  lines !! s = Some l → balance lines s s = brace_delta l.
Proof.
  intros Hl. unfold balance.
  rewrite (delta_sum_snoc _ _ _ _ Hl), delta_sum_same by lia. lia.
Qed.

Lemma asb_kept_cons lines out i x xs y :
  (y = x ∨ (y = rewrite_last x ∧ ∃ s, collected_span lines s i)) →
  asb_kept lines out (S i) xs →
  asb_kept lines (y :: out) i (x :: xs).
Proof.
  intros Hy [Hlen Hout]. split; [simpl; by rewrite Hlen|].
  intros [|k] l Hl; simpl in *.
  - injection Hl as <-. replace (i + 0) with i by lia.
    destruct Hy as [->|[-> ?]]; [by left | by right].
  - replace (i + S k) with (S i + k) by lia. by apply Hout.
Qed.

Lemma asb_walk_kept lines : ∀ xs i,
  drop i lines = xs →
  (loop_head lines i → asb_kept lines (walk Scan xs) i xs)
  ∧ (∀ bc s0 x0,
       loop_head lines s0 → lines !! s0 = Some x0 →
       contains SUBMIT_OPEN x0 = true → s0 < i →
       (∀ k, s0 ≤ k → k < i → (0 < balance lines s0 k)%Z) →
       bc = balance lines s0 (i - 1) →
       asb_kept lines (walk (InCall bc) xs) i xs).
Proof.
  induction xs as [|x xs IH]; intros i Hdrop.
  { split; intros; (split; [done | by intros k l Hk]). }
  assert (lines !! i = Some x) as Hx.
  { rewrite <- (Nat.add_0_r i), <- lookup_drop, Hdrop. done. }
  assert (drop (S i) lines = xs) as Hdrop'.
  { rewrite (drop_lookup_cons _ _ _ Hx) in Hdrop. congruence. }
  assert (i < length lines) as Hi by (by eapply lookup_lt_Some).
  destruct (IH (S i) Hdrop') as [IHscan IHcall].
  assert (∀ s0 x0 bc',
            loop_head lines s0 → lines !! s0 = Some x0 →
            contains SUBMIT_OPEN x0 = true → s0 ≤ i →
            (∀ k, s0 ≤ k → k < i → (0 < balance lines s0 k)%Z) →
            bc' = balance lines s0 i →
            asb_kept lines (asb_after bc' x xs) i (x :: xs)) as Hafter.
  { intros s0 x0 bc' Hhead Hx0 Hsub Hs0 Hpos ->. unfold asb_after.
    case_bool_decide as Hbal.
    - destruct xs as [|y ys] eqn:Hxs.
      + assert (length lines = S i) as Hlen.
        { apply (f_equal length) in Hdrop'. rewrite length_drop in Hdrop'.
          simpl in Hdrop'. lia. }
        apply asb_kept_cons; [|by split].
        right. split; [done|]. exists s0. split_and!; [done | by exists x0 |].
        rewrite span_last_open; [lia|].
        intros k Hk1 Hk2. destruct (decide (k = i)) as [->|]; [done|].
        apply Hpos; lia.
      + rewrite <- Hxs in *. apply asb_kept_cons; [by left|].
        apply (IHcall _ s0 x0); [done | done | done | lia | | ].
        * intros k Hk1 Hk2. destruct (decide (k = i)) as [->|]; [done|].
          apply Hpos; lia.
        * by replace (S i - 1) with i by lia.
    - assert (span_last lines s0 = i) as Hend.
      { apply span_last_closed; [done | done | done | lia]. }
      apply asb_kept_cons.
      + right. split; [done|]. exists s0. split_and!; [done | by exists x0 | done].
      + apply IHscan. rewrite <- Hend. by eapply head_after_span. }
  split.
  - intros Hhead. rewrite asb_walk_Scan_cons.
    destruct (contains SUBMIT_OPEN x) eqn:Hsub.
    + apply (Hafter i x); [done | done | done | lia | intros; lia |].
      by rewrite (balance_start _ _ _ Hx).
    + apply asb_kept_cons; [by left|]. apply IHscan.
      by eapply head_after_line.
  - intros bc s0 x0 Hhead Hx0 Hsub Hs0 Hpos ->.
    rewrite asb_walk_InCall_cons.
    apply (Hafter s0 x0); [done | done | done | lia | done |].
    unfold balance. replace (S (i - 1)) with i by lia.
    by rewrite (delta_sum_snoc _ _ _ _ Hx) by lia.
Qed.

Lemma span_last_ge lines s : s < length lines → s ≤ span_last lines s.
Proof.
  intros Hs. unfold span_last, first_closed_from.
  destruct (List.find _ _) as [k|] eqn:Hfind; simpl; [|lia].
  apply find_some in Hfind as [Hin _]. apply in_seq in Hin. lia.
Qed.

(** C5.  The derivation scripts keep every line of their input, in its
    order: the input is a subsequence of what they write.  What
    add-submitted-by.py writes has the lines of its input one for one; a
    line comes out changed only if it is the last line of a span the loop
    collected, so a line outside every collected span comes out as it
    went in, at the place it had. *)
Theorem untouched_lines_pass_through (ualnum : N → bool) (lines : list str) :
  (∃ out, AddDerivationsV2.rewrite_lines ualnum (S (length lines)) lines
          = Returned out
     ∧ lines `sublist_of` out)
  ∧ (∃ out, AddViolationDerivation.rewrite_lines (S (length lines)) lines
            = Returned out
       ∧ lines `sublist_of` out)
  ∧ (∃ out, AddSubmittedBy.rewrite_lines (S (length lines)) lines
            = Returned out
       ∧ length out = length lines
       ∧ (∀ k l, lines !! k = Some l →
            out !! k = Some l
            ∨ (out !! k = Some (rewrite_last l)
               ∧ ∃ s, collected_span lines s k))
       ∧ (∀ k l, lines !! k = Some l →
            (∀ s e, collected_span lines s e → ¬ (s ≤ k ∧ k ≤ e)) →
            out !! k = Some l)).
Proof.
  split_and!.
  - eexists. split; [apply v2_rewrite_lines_walk; lia|]. apply emit_sublist.
  - eexists. split; [apply vd_rewrite_lines_walk; lia|]. apply emit_sublist.
  - eexists. split; [apply asb_rewrite_lines_walk; lia|].
    destruct (asb_walk_kept lines lines 0 (drop_0 _)) as [Hkept _].
    destruct (Hkept (head_first _)) as [Hlen Hout].
    change (∀ k l, lines !! k = Some l →
              walk Scan lines !! k = Some l
              ∨ (walk Scan lines !! k = Some (rewrite_last l)
                 ∧ ∃ s, collected_span lines s k)) in Hout.
    split_and!; [done | done |].
    intros k l Hl Hfree.
    destruct (Hout k l Hl) as [H|[_ [s Hspan]]]; [done|].
    destruct (Hfree s k Hspan). split; [|lia].
    destruct Hspan as (_ & (x & Hx & _) & <-).
    apply span_last_ge. by eapply lookup_lt_Some.
Qed.

End PassthroughFacts.

(** ** The look-ahead for the marker *)

Section GuardFacts.

(** add-derivations-v2.py looks at the ten lines after the span. *)
Lemma v2_window_is_ten_lines (lines : list str) (j : nat) :
  j ≤ length lines →
  AddDerivationsV2.has_derivation lines j
  = Returned (existsb (contains AddDerivationsV2.MARKER)
                (take 10 (drop j lines))).
Proof. apply v2_has_derivation_spec. Qed.

(** add-violation-derivation.py looks at the four lines after the line
    [j] that ends the span: [range(j+1, min(j+5, len(lines)))]. *)
Lemma vd_window_is_four_lines (lines : list str) (j : nat) :
  j < length lines →
  AddViolationDerivation.has_derivation lines j
  = Returned (existsb (contains AddViolationDerivation.MARKER)
                (take 4 (drop (S j) lines))).
Proof. apply vd_has_derivation_spec. Qed.

(** C4 at a failing input: the file that one run of
    add-violation-derivation.py has written.  The span ends at line 2, the
    block follows, and its line with the marker is line 8, the sixth after
    the span; the look-ahead reads lines 3 to 6, finds nothing, and the
    second run inserts the block again. *)
Theorem violation_guard_misses_its_own_block :
  AddViolationDerivation.transform Samples.submitted
  = Returned Samples.derived_once
  ∧ (∃ l, readlines Samples.derived_once !! 8 = Some l
          ∧ contains AddViolationDerivation.MARKER l = true)
  ∧ AddViolationDerivation.has_derivation (readlines Samples.derived_once) 2
    = Returned false
  ∧ AddViolationDerivation.transform Samples.derived_once
    = Returned Samples.derived_twice
  ∧ Samples.derived_twice ≠ Samples.derived_once.
Proof.
  split_and!.
  - vm_compute. reflexivity.
  - eexists. split; vm_compute; reflexivity.
  - vm_compute. reflexivity.
  - vm_compute. reflexivity.
  - vm_compute. discriminate.
Qed.

(** The same with the marker on the fifth line after the span: a window of
    five lines would hold it. *)
Example violation_guard_misses_fifth_line :
  (∃ l, readlines Samples.marker_on_fifth !! (2 + 5) = Some l
        ∧ contains AddViolationDerivation.MARKER l = true)
  ∧ AddViolationDerivation.transform Samples.marker_on_fifth
    ≠ Returned Samples.marker_on_fifth.
Proof.
  split.
  - eexists. split; vm_compute; reflexivity.
  - vm_compute. discriminate.
Qed.

(** The block goes in only when the text of the span has
    [observationId]: without it the line that ends the span is appended
    and nothing else. *)
Lemma vd_no_block_without_observation_id lines i res span l :
  lines !! i = Some l →
  contains AddViolationDerivation.TERMINATOR l = true →
  contains AddViolationDerivation.OBSERVATION_ID (concat (span ++ [l]))
  = false →
  AddViolationDerivation.scan_body lines
    (AddViolationDerivation.State i res span)
  = Returned (Break (AddViolationDerivation.State i (res ++ [l])
                       (span ++ [l]))).
Proof.
  intros Hl Hterm Hobs. rewrite (vd_scan_body_step _ _ _ _ _ Hl).
  by rewrite Hterm, Hobs.
Qed.

(** C10 at a failing input: a submit call assigned to [observationId2].
    The name has [observationId] in it, the test of line 41 holds, and the
    block, which names [observationId], is inserted. *)
Theorem violation_block_after_other_variable :
  AddViolationDerivation.transform Samples.other_variable
  = Returned Samples.other_variable_derived
  ∧ Samples.other_variable_derived ≠ Samples.other_variable.
Proof.
  split.
  - vm_compute. reflexivity.
  - vm_compute. discriminate.
Qed.

End GuardFacts.

(** ** Replacing the occurrences of a text *)

Section ReplaceFacts.

Import Occurrences.

Lemma startswith_length (p s : str) :
  startswith p s = true → length p ≤ length s.
Proof. intros [t ->]%startswith_prefix. rewrite length_app. lia. Qed.

Lemma startswith_app_long (p s t : str) :
  length p ≤ length s → startswith p (s ++ t) = startswith p s.
Proof.
  revert s. induction p as [|a p IH]; intros s Hlen; [done|].
  destruct s as [|b s]; [simpl in Hlen; lia|].
  simpl. rewrite IH; [done | simpl in Hlen; lia].
Qed.

Lemma startswith_app_short (p s t : str) :
  length s ≤ length p → startswith p (s ++ t) = true →
  startswith s p = true ∧ startswith (drop (length s) p) t = true.
Proof.
  revert p. induction s as [|b s IH]; intros p Hlen H; [done|].
  destruct p as [|a p]; [simpl in Hlen; lia|]. simpl in *.
  apply andb_true_iff in H as [Hab H]. apply N.eqb_eq in Hab as ->.
  rewrite N.eqb_refl. apply IH; [lia | done].
Qed.

Lemma compatible_of_startswith_app (old s y : str) :
  startswith old (s ++ y) = true → compatible old s = true.
Proof.
  intros H. unfold compatible.
  destruct (decide (length old ≤ length s)) as [Hle|Hgt].
  - rewrite startswith_app_long in H by done. by rewrite H.
  - destruct (startswith_app_short old s y) as [-> _]; [lia | done |].
    apply orb_true_r.
Qed.

(** A match at the head is replaced and the scan goes on behind it. *)
Lemma replace_from_match (old new s : str) :
  old ≠ [] → startswith old s = true →
  replace_from old new 0 s
  = new ++ replace_from old new 0 (drop (length old) s).
Proof.
  intros Hold [t ->]%startswith_prefix.
  rewrite drop_app_length. destruct old as [|a old]; [done|].
  cbn [app replace_from].
  change (a :: old ++ t) with ((a :: old) ++ t). rewrite startswith_app.
  f_equal. apply replace_from_skipping. simpl. lia.
Qed.

Lemma replace_from_no_match (old new : str) c (s : str) :
  startswith old (c :: s) = false →
  replace_from old new 0 (c :: s) = c :: replace_from old new 0 s.
Proof. intros H. cbn [replace_from]. by rewrite H. Qed.

(** A text that [old] cannot touch is copied. *)
Lemma replace_from_copy (old new m y : str) :
  (∀ j, j < length m → compatible old (drop j m) = false) →
  replace_from old new 0 (m ++ y) = m ++ replace_from old new 0 y.
Proof.
  induction m as [|c m IH]; intros Hm; [done|]. cbn [app].
  rewrite replace_from_no_match.
  - f_equal. apply IH. intros j Hj. apply (Hm (S j)). simpl. lia.
  - destruct (startswith old (c :: m ++ y)) eqn:E; [|done].
    apply (compatible_of_startswith_app old (c :: m) y) in E.
    specialize (Hm 0). rewrite drop_0 in Hm.
    rewrite Hm in E; [done | simpl; lia].
Qed.

Lemma apart_inside (old m : str) j :
  apart old m = true → j < length m → compatible old (drop j m) = false.
Proof.
  intros [_ H]%andb_true_iff Hj. rewrite forallb_forall in H.
  apply negb_true_iff, H, in_seq. lia.
Qed.

Lemma apart_over (old m : str) k :
  apart old m = true → 0 < k → k < length old →
  compatible (drop k old) m = false.
Proof.
  intros [H _]%andb_true_iff Hk1 Hk2. rewrite forallb_forall in H.
  apply negb_true_iff, H, in_seq. lia.
Qed.

(** A match that starts before a text [m] apart from [old] ends before
    it. *)
Lemma match_before_apart (old m x y : str) :
  apart old m = true → x ≠ [] →
  startswith old (x ++ m ++ y) = true → startswith old x = true.
Proof.
  intros Hap Hx H.
  destruct (decide (length old ≤ length x)) as [Hle|Hgt].
  - by rewrite startswith_app_long in H.
  - destruct (startswith_app_short old x (m ++ y)) as [_ Hrest];
      [lia | done |].
    apply compatible_of_startswith_app in Hrest.
    rewrite apart_over in Hrest; [done | done | | lia].
    destruct x; [done | simpl; lia].
Qed.

(** A match that starts before an occurrence of [old] ends before it,
    when [old] cannot overlap itself. *)
Lemma match_before_occurrence (old x y : str) :
  has_border old = false → x ≠ [] →
  startswith old (x ++ old ++ y) = true → startswith old x = true.
Proof.
  intros Hb Hx H.
  destruct (decide (length old ≤ length x)) as [Hle|Hgt].
  - by rewrite startswith_app_long in H.
  - destruct (startswith_app_short old x (old ++ y)) as [_ Hrest];
      [lia | done |].
    rewrite startswith_app_long in Hrest by (rewrite length_drop; lia).
    assert (has_border old = true); [|congruence].
    unfold has_border. apply existsb_exists. exists (length x).
    split; [|done]. apply in_seq. destruct x; [done | simpl in *; lia].
Qed.

(** The scan on both sides of a text it cannot touch. *)
Lemma replace_from_around (old new m : str) :
  old ≠ [] → apart old m = true →
  ∀ x y, replace_from old new 0 (x ++ m ++ y)
         = replace_from old new 0 x ++ m ++ replace_from old new 0 y.
Proof.
  intros Hold Hap x.
  remember (length x) as n eqn:Hn. revert x Hn.
  induction n as [n IH] using lt_wf_ind. intros x Hn y.
  destruct x as [|c x].
  { cbn [app]. apply replace_from_copy. intros j Hj.
    by apply apart_inside. }
  destruct (startswith old ((c :: x) ++ m ++ y)) eqn:E.
  - assert (startswith old (c :: x) = true) as Ex
      by (by eapply match_before_apart).
    rewrite (replace_from_match old new (c :: x)) by done.
    rewrite (replace_from_match old new ((c :: x) ++ m ++ y)) by done.
    destruct (proj1 (startswith_prefix old (c :: x)) Ex) as [t Ht].
    rewrite Ht, <- !app_assoc, !drop_app_length.
    rewrite (IH (length t)); [done | | done].
    subst n. rewrite Ht, length_app.
    destruct old; [done | simpl; lia].
  - cbn [app] in *. rewrite replace_from_no_match by done.
    rewrite (IH (length x)); [| subst n; simpl; lia | done].
    rewrite replace_from_no_match; [done|].
    destruct (startswith old (c :: x)) eqn:Ex; [|done].
    change (c :: x ++ m ++ y) with ((c :: x) ++ m ++ y) in E.
    by rewrite (startswith_app_l _ _ _ Ex) in E.
Qed.

(** The scan on both sides of an occurrence. *)
Lemma replace_from_occurrence (old new : str) :
  old ≠ [] → has_border old = false →
  ∀ x y, replace_from old new 0 (x ++ old ++ y)
         = replace_from old new 0 x ++ new ++ replace_from old new 0 y.
Proof.
  intros Hold Hb x.
  remember (length x) as n eqn:Hn. revert x Hn.
  induction n as [n IH] using lt_wf_ind. intros x Hn y.
  destruct x as [|c x].
  { cbn [app]. rewrite replace_from_match by (done || apply startswith_app).
    by rewrite drop_app_length. }
  destruct (startswith old ((c :: x) ++ old ++ y)) eqn:E.
  - assert (startswith old (c :: x) = true) as Ex
      by (by eapply match_before_occurrence).
    rewrite (replace_from_match old new (c :: x)) by done.
    rewrite (replace_from_match old new ((c :: x) ++ old ++ y)) by done.
    destruct (proj1 (startswith_prefix old (c :: x)) Ex) as [t Ht].
    rewrite Ht, <- !app_assoc, !drop_app_length.
    rewrite (IH (length t)); [done | | done].
    subst n. rewrite Ht, length_app.
    destruct old; [done | simpl; lia].
  - cbn [app] in *. rewrite replace_from_no_match by done.
    rewrite (IH (length x)); [| subst n; simpl; lia | done].
    rewrite replace_from_no_match; [done|].
    destruct (startswith old (c :: x)) eqn:Ex; [|done].
    change (c :: x ++ old ++ y) with ((c :: x) ++ old ++ y) in E.
    by rewrite (startswith_app_l _ _ _ Ex) in E.
Qed.

Lemma replace_nonempty (old new s : str) :
  old ≠ [] → replace old new s = replace_from old new 0 s.
Proof. by destruct old. Qed.

End ReplaceFacts.

(** ** fix-vehicle-fields.py *)

Section VehicleFacts.

Import FixVehicleFields Occurrences.

Let ABC : str := pattern_text (lit "context.vehicleIds.abc123").
Let XYZ : str := pattern_text (lit "context.vehicleIds.xyz789").
Let DEF : str := pattern_text (lit "context.vehicleIds.def456").
Let ABC_FIELDS : str :=
  lit "licensePlate: 'ABC123'," ++ [NL] ++ lit "        issuingState: 'CA',".
Let XYZ_FIELDS : str :=
  lit "licensePlate: 'XYZ789'," ++ [NL] ++ lit "        issuingState: 'WA',".
Let DEF_FIELDS : str :=
  lit "licensePlate: 'DEF456'," ++ [NL] ++ lit "        issuingState: 'OR',".

Lemma vehicle_transform_unfold content :
  transform content
  = replace_from DEF DEF_FIELDS 0
      (replace_from XYZ XYZ_FIELDS 0 (replace_from ABC ABC_FIELDS 0 content)).
Proof. reflexivity. Qed.

Lemma vehicle_transform_spaces (u : str) :
  forallb isspace u = true → transform u = u.
Proof.
  intros Hu. rewrite vehicle_transform_unfold.
  assert (Forall (λ c, c ≠ ch "v") u) as Hv by (by apply isspace_not).
  change ABC with (ch "v" :: lit "ehicleId: context.vehicleIds.abc123,").
  change XYZ with (ch "v" :: lit "ehicleId: context.vehicleIds.xyz789,").
  change DEF with (ch "v" :: lit "ehicleId: context.vehicleIds.def456,").
  rewrite (replace_from_no_head _ _ ABC_FIELDS u Hv).
  rewrite (replace_from_no_head _ _ XYZ_FIELDS u Hv).
  by rewrite (replace_from_no_head _ _ DEF_FIELDS u Hv).
Qed.

(** C7, as the code has it.  Wherever the text
    [vehicleId: context.vehicleIds.abc123,] stands in a file, it is
    replaced by [licensePlate: 'ABC123',], a newline, eight blanks and
    [issuingState: 'CA',]; what stands before and after it is transformed
    on its own, and white space before it is kept.  So the first of the
    two lines keeps the indentation of the original line, and the second
    is indented by eight blanks whatever that indentation was. *)
Theorem vehicle_reference_becomes_two_fields (pre post : str) :
  transform (pre ++ lit "vehicleId: context.vehicleIds.abc123," ++ post)
  = transform pre
      ++ (lit "licensePlate: 'ABC123'," ++ [NL]
            ++ lit "        " ++ lit "issuingState: 'CA',")
      ++ transform post
  ∧ (forallb isspace pre = true → transform pre = pre).
Proof.
  split; [|apply vehicle_transform_spaces].
  rewrite !vehicle_transform_unfold.
  change (lit "vehicleId: context.vehicleIds.abc123,") with ABC.
  change (lit "licensePlate: 'ABC123'," ++ [NL]
            ++ lit "        " ++ lit "issuingState: 'CA',") with ABC_FIELDS.
  rewrite (replace_from_occurrence ABC ABC_FIELDS);
    [| discriminate | by vm_compute].
  rewrite (replace_from_around XYZ XYZ_FIELDS ABC_FIELDS);
    [| discriminate | by vm_compute].
  rewrite (replace_from_around DEF DEF_FIELDS ABC_FIELDS);
    [| discriminate | by vm_compute].
  reflexivity.
Qed.

(** C7 as it is worded fails: a reference indented by two blanks becomes
    two lines of which the second is indented by eight. *)
Lemma vehicle_second_line_keeps_eight_blanks :
  transform (lit "  vehicleId: context.vehicleIds.abc123,")
  = lit "  licensePlate: 'ABC123'," ++ [NL]
      ++ lit "        issuingState: 'CA',"
  ∧ transform (lit "  vehicleId: context.vehicleIds.abc123,")
    ≠ lit "  licensePlate: 'ABC123'," ++ [NL] ++ lit "  issuingState: 'CA',"
  ∧ leading (lit "  vehicleId: context.vehicleIds.abc123,") = lit "  "
  ∧ leading <$> split NL (transform (lit "  vehicleId: context.vehicleIds.abc123,"))
    = [lit "  "; lit "        "].
Proof.
  split_and!; [by vm_compute | | by vm_compute | by vm_compute].
  vm_compute. discriminate.
Qed.

End VehicleFacts.

(** ** The directory loop writes every file back *)

Section DriverFacts.

Import Driver DriverRef.

Lemma written_app t1 t2 : written (t1 ++ t2) = written t1 ++ written t2.
Proof. apply omap_app. Qed.

Lemma process_file_written verbose f filename st content content' :
  contents st !! path_join test_dir filename = Some content →
  f content = Returned content' →
  ∃ st', process_file verbose f filename st = Returned st'
    ∧ written (trace st')
      = written (trace st) ++ [path_join test_dir filename]
    ∧ contents st'
      = <[path_join test_dir filename := content']> (contents st)
    ∧ EvWrite (path_join test_dir filename) content' ∈ trace st'.
Proof.
  intros Hfile Hf. unfold process_file. rewrite Hfile, Hf.
  eexists. split; [reflexivity|]. cbn [trace contents]. split_and!.
  - rewrite !written_app. destruct verbose; simpl; by rewrite ?app_nil_r.
  - done.
  - rewrite !elem_of_app. right. right. right. left. apply list_elem_of_singleton.
    done.
Qed.

(** The loop over the names writes one file for every name with the
    suffix, in the order of the names. *)
Lemma for_each_file_written verbose f
    (Hf : ∀ content, ∃ content', f content = Returned content') :
  ∀ names st,
    (∀ name, name ∈ names → endswith SUFFIX name = true →
             is_Some (contents st !! path_join test_dir name)) →
    ∃ st', for_each_file verbose f names st = Returned st'
      ∧ written (trace st')
        = written (trace st)
            ++ (path_join test_dir
                  <$> filter (λ n, endswith SUFFIX n = true) names).
Proof.
  induction names as [|name names IH]; intros st Hexist.
  - exists st. split; [done|]. by rewrite app_nil_r.
  - cbn [for_each_file]. destruct (endswith SUFFIX name) eqn:Hsuffix.
    + destruct (Hexist name) as [content Hcontent];
        [apply list_elem_of_here | done |].
      destruct (Hf content) as [content' Hcontent'].
      destruct (process_file_written verbose f name st content content')
        as (st1 & Hrun & Hwritten & Hfiles & _); [done | done |].
      rewrite Hrun, bind_Returned.
      destruct (IH st1) as (st' & Hrest & Hwritten').
      { intros n Hn Hs. rewrite Hfiles.
        destruct (decide (path_join test_dir name = path_join test_dir n))
          as [->|Hne].
        - rewrite lookup_insert_eq. by eexists.
        - rewrite lookup_insert_ne by done.
          apply Hexist; [by apply list_elem_of_further | done]. }
      exists st'. split; [done|].
      rewrite Hwritten', Hwritten, filter_cons_True by done.
      by rewrite <- app_assoc.
    + rewrite bind_Returned.
      destruct (IH st) as (st' & Hrest & Hwritten').
      { intros n Hn Hs. apply Hexist; [by apply list_elem_of_further | done]. }
      exists st'. split; [done|].
      rewrite Hwritten', filter_cons_False; [done|]. by rewrite Hsuffix.
Qed.

Lemma run_written verbose final f d
    (Hf : ∀ content, ∃ content', f content = Returned content') :
  listed_files_exist d →
  ∃ st, run verbose final f d = Returned st
        ∧ written (trace st) = targets d.
Proof.
  intros Hexist. unfold run.
  destruct (for_each_file_written verbose f Hf (listing d)
              (State (files d) [])) as (st & Hrun & Hwritten); [done|].
  rewrite Hrun, bind_Returned. eexists. split; [reflexivity|].
  cbn [trace]. rewrite written_app, Hwritten. simpl. by rewrite app_nil_r.
Qed.

Lemma apply_writes_app files t1 t2 :
  apply_writes files (t1 ++ t2) = apply_writes (apply_writes files t1) t2.
Proof. apply foldl_app. Qed.

(** Every write of [t], done on [files], writes what [f] makes of the
    content the file holds at that point. *)
Let transformed (f : str → outcome str) (files : gmap str str)
    (t : list event) : Prop :=
  ∀ k path content, t !! k = Some (EvWrite path content) →
    ∃ read, apply_writes files (take k t) !! path = Some read
            ∧ f read = Returned content.

Lemma transformed_app f files t1 t2 :
  transformed f files t1 →
  transformed f (apply_writes files t1) t2 →
  transformed f files (t1 ++ t2).
Proof.
  intros H1 H2 k path content Hk.
  destruct (decide (k < length t1)) as [Hlt|Hge].
  - rewrite lookup_app_l in Hk by done.
    rewrite take_app_le by lia. by apply H1.
  - rewrite lookup_app_r in Hk by lia.
    rewrite take_app_ge, apply_writes_app by lia. by apply H2.
Qed.

Lemma process_file_writes verbose f filename st st' :
  process_file verbose f filename st = Returned st' →
  ∃ t, trace st' = trace st ++ t
    ∧ contents st' = apply_writes (contents st) t
    ∧ transformed f (contents st) t.
Proof.
  unfold process_file.
  destruct (contents st !! path_join test_dir filename) as [read|] eqn:Hread;
    [|done].
  destruct (f read) as [content| |] eqn:Hf; [|done|done].
  rewrite bind_Returned. intros Hst. apply Returned_eq in Hst. subst st'.
  cbn [trace contents]. eexists. split; [reflexivity|]. split.
  - by destruct verbose.
  - intros k path c Hk. exists read.
    destruct verbose.
    + destruct k as [|[|[|[|k]]]]; try done.
      cbn in Hk. apply (inj Some) in Hk.
      assert (path = path_join test_dir filename ∧ c = content) as [-> ->]
        by (by inversion Hk).
      done.
    + destruct k as [|[|k]]; try done.
      cbn in Hk. apply (inj Some) in Hk.
      assert (path = path_join test_dir filename ∧ c = content) as [-> ->]
        by (by inversion Hk).
      done.
Qed.

Lemma for_each_file_writes verbose f names :
  ∀ st st', for_each_file verbose f names st = Returned st' →
  ∃ t, trace st' = trace st ++ t
    ∧ contents st' = apply_writes (contents st) t
    ∧ transformed f (contents st) t.
Proof.
  induction names as [|name names IH]; intros st st' Hrun.
  - apply Returned_eq in Hrun. subst st'. exists [].
    split; [by rewrite app_nil_r|]. split; [done|]. by intros k ? ? ?.
  - cbn [for_each_file] in Hrun.
    destruct (endswith SUFFIX name).
    + destruct (process_file verbose f name st) as [st1| |] eqn:Hstep;
        [|done|done].
      rewrite bind_Returned in Hrun.
      destruct (process_file_writes _ _ _ _ _ Hstep) as (t1 & Ht1 & Hc1 & H1).
      destruct (IH _ _ Hrun) as (t2 & Ht2 & Hc2 & H2).
      exists (t1 ++ t2). split_and!.
      * by rewrite Ht2, Ht1, <- app_assoc.
      * by rewrite Hc2, Hc1, apply_writes_app.
      * apply transformed_app; [done|]. by rewrite <- Hc1.
    + rewrite bind_Returned in Hrun. by apply IH.
Qed.

(** A run writes, at every write, what the transformation makes of the
    content the file holds at that point, and leaves the files as its
    writes make them. *)
Lemma run_writes verbose final f d st :
  run verbose final f d = Returned st →
  contents st = apply_writes (files d) (trace st)
  ∧ ∀ before path content after,
      trace st = before ++ EvWrite path content :: after →
      ∃ read, apply_writes (files d) before !! path = Some read
              ∧ f read = Returned content.
Proof.
  unfold run. intros Hrun.
  destruct (for_each_file verbose f (listing d) (State (files d) []))
    as [st1| |] eqn:Hloop; [|done|done].
  rewrite bind_Returned in Hrun. apply Returned_eq in Hrun. subst st.
  destruct (for_each_file_writes _ _ _ _ _ Hloop) as (t & Ht & Hc & Hall).
  cbn [trace contents] in *. rewrite app_nil_l in Ht. rewrite Ht. split.
  - rewrite apply_writes_app. by rewrite Hc.
  - intros before path content after Hsplit.
    assert (transformed f (files d) (t ++ [EvPrint final])) as Hfull.
    { apply transformed_app; [done|]. by intros [|k] ? ? ?. }
    destruct (Hfull (length before) path content) as (read & Hread & Hf).
    { rewrite Hsplit. by apply list_lookup_middle. }
    exists read. split; [|done].
    rewrite Hsplit, take_app_length in Hread. done.
Qed.

(** C8, as the code has it.  A run of fix-vehicle-fields.py or of
    add-derivations-v2.py writes every file of the directory that has the
    suffix, once for every time the listing names it and in the order of
    the listing, whether or not the transformation changed its content;
    no other file is written.  What each write puts in the file is what
    the transformation makes of the content the file holds at that point
    (the files of the directory with the earlier writes of the run done):
    the same content again when the transformation leaves it as it
    is. *)
Theorem every_processed_file_is_written_back
    (ualnum : N → bool) (d : Driver.disk) :
  listed_files_exist d →
  (∃ st, fix_vehicle_fields d = Returned st
         ∧ written (trace st) = targets d
         ∧ ∀ before path content after,
             trace st = before ++ EvWrite path content :: after →
             ∃ read, apply_writes (files d) before !! path = Some read
                     ∧ content = FixVehicleFields.transform read)
  ∧ (∃ st, add_derivations_v2 ualnum d = Returned st
           ∧ written (trace st) = targets d
           ∧ ∀ before path content after,
               trace st = before ++ EvWrite path content :: after →
               ∃ read, apply_writes (files d) before !! path = Some read
                       ∧ AddDerivationsV2.transform ualnum read
                         = Returned content).
Proof.
  intros Hexist. split.
  - destruct (run_written false (lit "Fixed all test files")
                (λ content, mret (FixVehicleFields.transform content)) d)
      as (st & Hrun & Hwritten); [intros content; by eexists | done |].
    exists st. split; [done|]. split; [done|].
    intros before path content after Hsplit.
    destruct (run_writes _ _ _ _ _ Hrun) as [_ Hall].
    destruct (Hall _ _ _ _ Hsplit) as (read & Hread & Hf).
    exists read. split; [done|]. symmetry. by apply Returned_eq.
  - destruct (run_written true (lit "All files processed!")
                (AddDerivationsV2.transform ualnum) d)
      as (st & Hrun & Hwritten);
      [intros content; eexists; apply v2_transform_walk | done |].
    exists st. split; [done|]. split; [done|].
    intros before path content after Hsplit.
    destruct (run_writes _ _ _ _ _ Hrun) as [_ Hall].
    apply (Hall _ _ _ _ Hsplit).
Qed.

Lemma plain_disk_files_exist : listed_files_exist Samples.plain_disk.
Proof.
  intros name Hname Hsuffix.
  apply list_elem_of_In in Hname. simpl in Hname.
  destruct Hname as [<-|[<-|[]]].
  - by eexists.
  - vm_compute in Hsuffix. discriminate.
Qed.

Lemma every_processed_file_is_written_back_witness :
  listed_files_exist Samples.plain_disk
  ∧ (∃ st, fix_vehicle_fields Samples.plain_disk = Returned st
           ∧ written (trace st) = targets Samples.plain_disk
           ∧ ∀ before path content after,
               trace st = before ++ EvWrite path content :: after →
               ∃ read,
                 apply_writes (files Samples.plain_disk) before !! path
                 = Some read
                 ∧ content = FixVehicleFields.transform read)
  ∧ (∃ st, add_derivations_v2 (λ _, false) Samples.plain_disk = Returned st
           ∧ written (trace st) = targets Samples.plain_disk
           ∧ ∀ before path content after,
               trace st = before ++ EvWrite path content :: after →
               ∃ read,
                 apply_writes (files Samples.plain_disk) before !! path
                 = Some read
                 ∧ AddDerivationsV2.transform (λ _, false) read
                   = Returned content).
Proof.
  split; [apply plain_disk_files_exist|].
  apply (every_processed_file_is_written_back (λ _, false) Samples.plain_disk).
  apply plain_disk_files_exist.
Defined.

(** C8 as it is worded fails: the transformation leaves the one test file
    of [Samples.plain_disk] as it is, and the run writes it all the
    same. *)
Lemma unchanged_file_is_written_back :
  FixVehicleFields.transform (lit "const x = 1;") = lit "const x = 1;"
  ∧ ∃ st, fix_vehicle_fields Samples.plain_disk = Returned st
          ∧ trace st = [ EvRead Samples.plain_path;
                         EvWrite Samples.plain_path (lit "const x = 1;");
                         EvPrint (lit "Fixed all test files") ]
          ∧ contents st = files Samples.plain_disk.
Proof.
  split; [by vm_compute|].
  eexists. split; [reflexivity|]. split; [reflexivity|].
  cbn. apply insert_id. reflexivity.
Qed.

End DriverFacts.

(** ** Splitting into lines and joining them *)

Section LinesFacts.

Lemma split_nonempty (s : str) : split NL s ≠ [].
Proof.
  destruct s as [|c s]; [done|]. simpl.
  destruct (c =? NL)%N; [done|]. by destruct (split NL s).
Qed.

Lemma split_no_newline (s : str) : Forall (λ l, NL ∉ l) (split NL s).
Proof.
  induction s as [|c s IH]; simpl.
  - constructor; [|done]. apply not_elem_of_nil.
  - destruct (N.eqb_spec c NL) as [->|Hne].
    + constructor; [apply not_elem_of_nil | done].
    + destruct (split NL s) as [|w ws] eqn:E;
        [by destruct (split_nonempty s)|].
      inversion IH as [|? ? Hw Hws]; subst. constructor; [|done].
      rewrite elem_of_cons. intros [?|?]; congruence.
Qed.

Lemma split_line (l s : str) :
  NL ∉ l → split NL (l ++ NL :: s) = l :: split NL s.
Proof.
  induction l as [|c l IH]; intros Hl.
  - cbn [app split]. by rewrite N.eqb_refl.
  - cbn [app split].
    rewrite not_elem_of_cons in Hl. destruct Hl as [Hc Hl].
    destruct (N.eqb_spec c NL) as [->|_]; [done|].
    by rewrite IH.
Qed.

Lemma split_last (l : str) : NL ∉ l → split NL l = [l].
Proof.
  induction l as [|c l IH]; intros Hl; [done|]. cbn [split].
  rewrite not_elem_of_cons in Hl. destruct Hl as [Hc Hl].
  destruct (N.eqb_spec c NL) as [->|_]; [done|].
  by rewrite IH.
Qed.

(** Splitting what was joined gives the lines back. *)
Lemma split_join (ls : list str) :
  ls ≠ [] → Forall (λ l, NL ∉ l) ls → split NL (join [NL] ls) = ls.
Proof.
  induction ls as [|l ls IH]; intros Hne Hall; [done|].
  inversion Hall as [|? ? Hl Hls]; subst.
  destruct ls as [|l' ls'].
  - simpl. by apply split_last.
  - change (join [NL] (l :: l' :: ls')) with (l ++ NL :: join [NL] (l' :: ls')).
    rewrite split_line by done. by rewrite IH.
Qed.

End LinesFacts.

(** ** add-submitted-by.py: a second run changes nothing *)

Section AddSubmittedByIdempotence.

Import AddSubmittedBy AddSubmittedByRef.

Lemma asb_walk_length m lines : length (walk m lines) = length lines.
Proof.
  revert m. induction lines as [|x xs IH]; intros m; [done|].
  assert (∀ bc, length (asb_after bc x xs) = S (length xs)) as Hafter.
  { intros bc. unfold asb_after. case_bool_decide.
    - destruct xs as [|y ys] eqn:Hxs; [done|]. rewrite <- Hxs in *.
      cbn [length]. by rewrite IH.
    - cbn [length]. by rewrite IH. }
  destruct m as [|bc].
  - rewrite asb_walk_Scan_cons. destruct (contains SUBMIT_OPEN x).
    + apply Hafter.
    + cbn [length]. by rewrite IH.
  - rewrite asb_walk_InCall_cons. apply Hafter.
Qed.

Lemma asb_walk_no_newline m lines :
  Forall (λ l, NL ∉ l) lines → Forall (λ l, NL ∉ l) (walk m lines).
Proof.
  revert m. induction lines as [|x xs IH]; intros m Hall; [done|].
  inversion Hall as [|? ? Hx Hxs]; subst.
  assert (∀ bc, Forall (λ l, NL ∉ l) (asb_after bc x xs)) as Hafter.
  { intros bc. unfold asb_after. case_bool_decide.
    - destruct xs as [|y ys].
      + constructor; [by apply rewrite_last_no_newline | done].
      + constructor; [done | by apply IH].
    - constructor; [by apply rewrite_last_no_newline | by apply IH]. }
  destruct m as [|bc].
  - rewrite asb_walk_Scan_cons. destruct (contains SUBMIT_OPEN x).
    + apply Hafter.
    + constructor; [done | by apply IH].
  - rewrite asb_walk_InCall_cons. apply Hafter.
Qed.

(** Walking over what the walk gave gives the same again. *)
Lemma asb_walk_idempotent m lines : walk m (walk m lines) = walk m lines.
Proof.
  revert m. induction lines as [|x xs IH]; intros m; [done|].
  assert (∀ bc y, (y = x ∨ y = rewrite_last x) →
            ∃ y' rest, asb_after bc x xs = y' :: rest
              ∧ (y' = x ∨ y' = rewrite_last x)
              ∧ asb_after bc y' rest = asb_after bc x xs) as Hafter.
  { intros bc y _. unfold asb_after. case_bool_decide as Hbc.
    - destruct xs as [|z zs] eqn:Hxs.
      + eexists _, _. split; [done|]. split; [by right|].
        by rewrite rewrite_last_idempotent.
      + rewrite <- Hxs in *.
        destruct (walk (InCall bc) xs) as [|w ws] eqn:Hw.
        { apply (f_equal length) in Hw. rewrite asb_walk_length in Hw.
          subst xs. done. }
        eexists _, _. split; [done|]. split; [by left|].
        by rewrite <- Hw, IH.
    - eexists _, _. split; [done|]. split; [by right|].
      by rewrite rewrite_last_idempotent, IH. }
  destruct m as [|bc0].
  - rewrite asb_walk_Scan_cons. destruct (contains SUBMIT_OPEN x) eqn:Hsub.
    + destruct (Hafter (brace_delta x) x) as (y' & rest & Hout & Hy & Hsame);
        [by left|].
      rewrite Hout. rewrite Hout in Hsame.
      assert (y' = x) as ->.
      { destruct Hy as [->| ->]; [done | by apply rewrite_last_submit]. }
      by rewrite asb_walk_Scan_cons, Hsub.
    + by rewrite asb_walk_Scan_cons, Hsub, IH.
  - rewrite asb_walk_InCall_cons.
    destruct (Hafter (bc0 + brace_delta x)%Z x)
      as (y' & rest & Hout & Hy & Hsame); [by left|].
    rewrite Hout. rewrite Hout in Hsame.
    rewrite asb_walk_InCall_cons.
    assert (brace_delta y' = brace_delta x) as ->; [|done].
    destruct Hy as [->| ->]; [done | apply rewrite_last_delta].
Qed.

Lemma asb_transform_idempotent (content once : str) :
  transform content = Returned once → transform once = Returned once.
Proof.
  rewrite !asb_transform_walk. intros [= <-].
  rewrite split_join.
  - by rewrite asb_walk_idempotent.
  - intros E. apply (f_equal length) in E.
    rewrite asb_walk_length in E.
    destruct (split NL content) eqn:Hs; [by destruct (split_nonempty content)|].
    done.
  - apply asb_walk_no_newline, split_no_newline.
Qed.

End AddSubmittedByIdempotence.

(** ** Reading back what was written *)

Section FileLinesFacts.

Import FileLines.

Lemma readlines_line (t s : str) :
  NL ∉ t → readlines (t ++ NL :: s) = (t ++ [NL]) :: readlines s.
Proof.
  induction t as [|c t IH]; intros Ht.
  - cbn [app readlines]. by rewrite N.eqb_refl.
  - rewrite not_elem_of_cons in Ht. destruct Ht as [Hc Ht].
    cbn [app readlines]. destruct (N.eqb_spec c NL) as [->|_]; [done|].
    by rewrite IH.
Qed.

Lemma readlines_partial (l : str) : partial l → readlines l = [l].
Proof.
  intros [Hne Hl]. induction l as [|c l IH]; [done|].
  rewrite not_elem_of_cons in Hl. destruct Hl as [Hc Hl].
  cbn [readlines]. destruct (N.eqb_spec c NL) as [->|_]; [done|].
  destruct l as [|c' l']; [done|]. rewrite IH; done.
Qed.

Lemma concat_readlines (s : str) : concat (readlines s) = s.
Proof.
  induction s as [|c s IH]; [done|]. cbn [readlines].
  destruct (N.eqb_spec c NL) as [->|_].
  - simpl. by rewrite IH.
  - destruct (readlines s) as [|w ws]; simpl in *; by rewrite <- IH.
Qed.

Lemma partial_cons c l : c ≠ NL → NL ∉ l → partial (c :: l).
Proof.
  intros Hc Hl. split; [done|]. rewrite not_elem_of_cons. split; congruence.
Qed.

Lemma complete_cons c l : c ≠ NL → complete l → complete (c :: l).
Proof.
  intros Hc (t & -> & Ht). exists (c :: t). split; [done|].
  rewrite not_elem_of_cons. split; congruence.
Qed.

Lemma readlines_file_lines (s : str) : file_lines (readlines s).
Proof.
  induction s as [|c s IH]; [constructor|]. cbn [readlines].
  destruct (N.eqb_spec c NL) as [->|Hc].
  - apply file_lines_cons; [|done]. exists []. split; [done|].
    apply not_elem_of_nil.
  - destruct (readlines s) as [|w ws].
    + apply file_lines_last, partial_cons; [done | apply not_elem_of_nil].
    + inversion IH as [|? [_ Hw]|? ? Hw Hws]; subst.
      * apply file_lines_last. by apply partial_cons.
      * apply file_lines_cons; [|done]. by apply complete_cons.
Qed.

Lemma reread_cons_complete (l : str) (ls : list str) :
  complete l → reread (l :: ls) = l :: reread ls.
Proof.
  intros (t & -> & Ht). unfold reread, writelines. cbn [concat].
  rewrite <- app_assoc. cbn [app]. by apply readlines_line.
Qed.

Lemma reread_app_complete (b ls : list str) :
  Forall complete b → reread (b ++ ls) = b ++ reread ls.
Proof.
  induction 1 as [|l b Hl Hb IH]; [done|].
  cbn [app]. rewrite reread_cons_complete by done. by rewrite IH.
Qed.

Lemma reread_complete (b : list str) : Forall complete b → reread b = b.
Proof.
  intros Hb. rewrite <- (app_nil_r b) at 1.
  rewrite reread_app_complete by done. by rewrite app_nil_r.
Qed.

(** A partial line before a line that begins with a newline takes the
    newline. *)
Lemma reread_partial_newline (z : str) (rest : str) (ls : list str) :
  partial z → reread (z :: (NL :: rest) :: ls)
              = (z ++ [NL]) :: reread (rest :: ls).
Proof.
  intros [_ Hz]. unfold reread, writelines. cbn [concat app].
  by apply readlines_line.
Qed.

Lemma writelines_reread (ls : list str) :
  writelines (reread ls) = writelines ls.
Proof. apply concat_readlines. Qed.

Lemma contains_nil (s : str) : contains [] s = true.
Proof. by destruct s. Qed.

Lemma contains_snoc_other (sub s : str) (c : N) :
  c ∉ sub → contains sub (s ++ [c]) = contains sub s.
Proof.
  intros Hc. destruct sub as [|a sub].
  { by rewrite !contains_nil. }
  assert (∀ p u : str, c ∉ p → p ≠ [] →
            startswith p (u ++ [c]) = startswith p u) as Hstart.
  { intros p u. revert p. induction u as [|b u IH]; intros p Hp Hne.
    - destruct p as [|a' p]; [done|]. cbn [app startswith].
      rewrite not_elem_of_cons in Hp. destruct Hp as [Hac _].
      destruct (N.eqb_spec a' c) as [->|]; [done | done].
    - destruct p as [|a' p]; [done|]. cbn [app startswith].
      destruct p as [|a'' p'].
      + by destruct (u ++ [c]), u.
      + rewrite IH; [done | | done].
        rewrite not_elem_of_cons in Hp. tauto. }
  induction s as [|b s IH].
  - cbn [app contains]. rewrite !orb_false_r.
    cbn [startswith]. rewrite not_elem_of_cons in Hc.
    destruct Hc as [Hac _].
    destruct (N.eqb_spec a c) as [->|]; [done|]. done.
  - cbn [app contains].
    change (b :: s ++ [c]) with ((b :: s) ++ [c]).
    rewrite Hstart by done. by rewrite IH.
Qed.

End FileLinesFacts.

(** ** Regular expressions: the matcher finds the matches *)

Section ReFacts.

Import ReRef.

Lemma nullable_matches (r : regex) : nullable r = true ↔ matches r [].
Proof.
  split.
  - induction r as [| |p|r1 IH1 r2 IH2|r1 IH1 r2 IH2|r IH]; simpl; try done.
    + constructor.
    + intros [H1 H2]%andb_true_iff.
      apply (matches_seq r1 r2 [] []); auto.
    + intros [H|H]%orb_true_iff;
        [apply matches_alt_l | apply matches_alt_r]; auto.
    + constructor.
  - remember [] as w eqn:Hw. induction 1 as
      [|p c Hp|r1 r2 w1 w2 H1 IH1 H2 IH2|r1 r2 w H IH|r1 r2 w H IH
       |r|r w1 w2 H1 IH1 H2 IH2]; simpl; try done.
    + apply app_eq_nil in Hw as [-> ->]. rewrite IH1, IH2; done.
    + by rewrite IH.
    + rewrite IH by done. apply orb_true_r.
Qed.

Lemma matches_Empty (w : str) : ¬ matches Empty w.
Proof. inversion 1. Qed.

Lemma matches_Eps (w : str) : matches Eps w ↔ w = [].
Proof. split; [by inversion 1 | intros ->; constructor]. Qed.

Lemma seq'_matches (r1 r2 : regex) (w : str) :
  matches (seq' r1 r2) w ↔ matches (Seq r1 r2) w.
Proof.
  assert (matches Eps [] ∧ ∀ r u, matches (Seq Eps r) u ↔ matches r u)
    as [_ Heps].
  { split; [constructor|]. intros r u. split.
    - inversion 1 as [| |? ? u1 u2 H1 H2| | | |]; subst.
      apply matches_Eps in H1 as ->. done.
    - intros H. by apply (matches_seq Eps r [] u); [constructor|]. }
  assert (∀ r u, matches (Seq Empty r) u ↔ False) as Hempty1.
  { intros r u. split; [|done].
    inversion 1 as [| |? ? u1 u2 H1 H2| | | |]; subst.
    by apply matches_Empty in H1. }
  assert (∀ r u, matches (Seq r Empty) u ↔ False) as Hempty2.
  { intros r u. split; [|done].
    inversion 1 as [| |? ? u1 u2 H1 H2| | | |]; subst.
    by apply matches_Empty in H2. }
  destruct r1; simpl;
    try (rewrite Hempty1; split; [apply matches_Empty | done]);
    try (by rewrite Heps);
    (destruct r2; simpl; try done;
     rewrite Hempty2; split; [apply matches_Empty | done]).
Qed.

Lemma alt'_matches (r1 r2 : regex) (w : str) :
  matches (alt' r1 r2) w ↔ matches (Alt r1 r2) w.
Proof.
  assert (∀ r u, matches (Alt Empty r) u ↔ matches r u) as Hl.
  { intros r u. split; [|by apply matches_alt_r].
    inversion 1 as [| | |? ? ? H1|? ? ? H1| |]; subst;
      [by apply matches_Empty in H1 | done]. }
  assert (∀ r u, matches (Alt r Empty) u ↔ matches r u) as Hr.
  { intros r u. split; [|by apply matches_alt_l].
    inversion 1 as [| | |? ? ? H1|? ? ? H1| |]; subst;
      [done | by apply matches_Empty in H1]. }
  destruct r1; simpl; try (by rewrite Hl);
    (destruct r2; simpl; try done; by rewrite Hr).
Qed.

Lemma matches_star_cons (r : regex) (c : N) (w : str) :
  matches (Star r) (c :: w) →
  ∃ w1 w2, w = w1 ++ w2 ∧ matches r (c :: w1) ∧ matches (Star r) w2.
Proof.
  remember (Star r) as r' eqn:Hr. remember (c :: w) as s eqn:Hs.
  intros H. revert Hr Hs. induction H as
    [|p c' Hp|r1 r2 w1 w2 H1 IH1 H2 IH2|r1 r2 u H IH|r1 r2 u H IH
     |r0|r0 w1 w2 H1 IH1 H2 IH2]; intros Hr Hs; try done.
  injection Hr as ->. destruct w1 as [|c1 w1].
  - apply IH2; done.
  - injection Hs as -> <-. by exists w1, w2.
Qed.

(** What is left of [r] after [c] matches the rest of what [r] matches
    from [c] on. *)
Lemma deriv_matches (r : regex) (c : N) (w : str) :
  matches (deriv c r) w ↔ matches r (c :: w).
Proof.
  revert w. induction r as [| |p|r1 IH1 r2 IH2|r1 IH1 r2 IH2|r IH];
    intros w; cbn [deriv].
  - split; inversion 1.
  - split; inversion 1.
  - destruct (p c) eqn:Hp; split.
    + intros ->%matches_Eps. by constructor.
    + inversion 1; subst. constructor.
    + inversion 1.
    + inversion 1; subst. congruence.
  - rewrite alt'_matches. split.
    + inversion 1 as [| | |? ? ? H1|? ? ? H1| |]; subst.
      * apply seq'_matches in H1.
        inversion H1 as [| |? ? u1 u2 Hu1 Hu2| | | |]; subst.
        apply IH1 in Hu1. by apply (matches_seq r1 r2 (c :: u1) u2).
      * destruct (nullable r1) eqn:Hn; [|by apply matches_Empty in H1].
        apply IH2 in H1. apply nullable_matches in Hn.
        by apply (matches_seq r1 r2 [] (c :: w)).
    + inversion 1 as [| |? ? u1 u2 Hu1 Hu2 Hr Hw| | | |]; subst.
      destruct u1 as [|c1 u1].
      * simpl in Hw. subst u2. apply matches_alt_r.
        rewrite (proj2 (nullable_matches r1) Hu1). by apply IH2.
      * injection Hw as -> <-. apply matches_alt_l, seq'_matches.
        apply matches_seq; [by apply IH1 | done].
  - rewrite alt'_matches. split.
    + inversion 1; subst;
        [apply matches_alt_l; by apply IH1 | apply matches_alt_r; by apply IH2].
    + inversion 1; subst;
        [apply matches_alt_l; by apply IH1 | apply matches_alt_r; by apply IH2].
  - rewrite seq'_matches. split.
    + inversion 1 as [| |? ? u1 u2 Hu1 Hu2| | | |]; subst.
      apply IH in Hu1. by apply (matches_star_more r (c :: u1) u2).
    + intros (w1 & w2 & -> & H1 & H2)%matches_star_cons.
      apply matches_seq; [by apply IH | done].
Qed.

(** [re_match] answers whether some prefix of the text is a match. *)
Lemma re_match_correct (r : regex) (s : str) :
  re_match r s = true ↔ ∃ w t, s = w ++ t ∧ matches r w.
Proof.
  revert r. induction s as [|c s IH]; intros r; cbn [re_match].
  - rewrite orb_false_r, nullable_matches. split.
    + intros H. by exists [], [].
    + intros (w & t & Hs & H). symmetry in Hs.
      apply app_eq_nil in Hs as [-> _]. done.
  - rewrite orb_true_iff, nullable_matches, IH. split.
    + intros [H|(w & t & -> & H)].
      * by exists [], (c :: s).
      * exists (c :: w), t. split; [done | by apply deriv_matches].
    + intros (w & t & Hs & H). destruct w as [|c' w].
      * by left.
      * injection Hs as <- ->. right. exists w, t.
        split; [done | by apply deriv_matches].
Qed.

Lemma re_match_nullable (r : regex) (s : str) :
  nullable r = true → re_match r s = true.
Proof. intros H. destruct s; simpl; by rewrite H. Qed.

(** A match of the head of a text is a match of the head of a longer
    text. *)
Lemma re_match_app (r : regex) (s t : str) :
  re_match r s = true → re_match r (s ++ t) = true.
Proof.
  revert r. induction s as [|c s IH]; intros r H.
  - simpl in H. rewrite orb_false_r in H. by apply re_match_nullable.
  - cbn [app re_match] in *. apply orb_true_iff in H as [H|H].
    + by rewrite H.
    + rewrite (IH _ H). apply orb_true_r.
Qed.

Lemma re_match_Empty (s : str) : re_match Empty s = false.
Proof. induction s as [|c s IH]; [done|]. simpl. exact IH. Qed.

(** Once nothing is left of the expression no longer text matches. *)
Lemma re_match_dead (r : regex) (p t : str) :
  dead_after r p = true → re_match r (p ++ t) = false.
Proof.
  revert r. induction p as [|c p IH]; intros r H.
  - simpl in H. destruct r; try done. apply re_match_Empty.
  - cbn [dead_after] in H. apply andb_true_iff in H as [Hn H].
    cbn [app re_match]. apply negb_true_iff in Hn. rewrite Hn.
    by apply IH.
Qed.

End ReFacts.

(** ** add-derivations-v2.py: a second run changes nothing *)

Section AddDerivationsV2Idempotence.

Import AddDerivationsV2 AddDerivationsV2Ref SpanRewriter FileLines ReRef.

Variable ualnum : N → bool.

Local Abbreviation W := (AddDerivationsV2Ref.walk ualnum).
Local Abbreviation start := (AddDerivationsV2Ref.start ualnum).
Local Abbreviation step := (AddDerivationsV2Ref.step ualnum).
Local Abbreviation after := (v2_after ualnum).

Local Ltac closed_bool := vm_compute; reflexivity.
Local Ltac no_newline :=
  apply (bool_decide_unpack _); vm_compute; exact I.

Lemma derivation_unfold v : derivation v = [NL] :: block_tail v.
Proof. reflexivity. Qed.

Lemma v2_walk_cons m x rest :
  W m (x :: rest) =
  x :: match step m x with
       | Some v => after v x rest
       | None => W Scan rest
       end.
Proof.
  destruct m as [|v]; [apply v2_walk_Scan_cons | apply v2_walk_InSpan_cons].
Qed.

Lemma take_while_Forall p (s : str) :
  Forall (λ c, p c = true) (take_while p s).
Proof.
  induction s as [|c s IH]; [constructor|]. simpl.
  destruct (p c) eqn:E; by constructor.
Qed.

Lemma var_name_no_newline x : NL ∉ var_name ualnum x.
Proof.
  assert (NL ∉ lit "observationId") as Hdefault by no_newline.
  unfold var_name. destruct (after_keyword _); [|done].
  destruct (_ && _); [|done].
  intros Hin. eapply Forall_forall in Hin; [|apply take_while_Forall].
  vm_compute in Hin. discriminate.
Qed.

Lemma step_ok m x v : mode_ok m → step m x = Some v → NL ∉ v.
Proof.
  destruct m as [|v0]; simpl.
  - intros _. unfold AddDerivationsV2Ref.start.
    destruct (re_match _ x); [|done]. intros [= <-].
    apply var_name_no_newline.
  - by intros Hv [= <-].
Qed.

(** The lines of the block. *)

Lemma get_line_closes v : contains TERMINATOR (get_line v) = true.
Proof.
  apply contains_occurs.
  exists (lit "      const obs = await observationService.getById(" ++ v), [NL].
  unfold get_line. by rewrite <- !app_assoc.
Qed.

Lemma get_line_no_start v : start (get_line v) = None.
Proof.
  unfold AddDerivationsV2Ref.start, get_line.
  rewrite re_match_dead; [done|]. closed_bool.
Qed.

Lemma get_line_complete v : NL ∉ v → complete (get_line v).
Proof.
  intros Hv.
  exists (lit "      const obs = await observationService.getById(" ++ v
            ++ lit ");").
  split; [unfold get_line; by rewrite <- !app_assoc|].
  rewrite !not_elem_of_app. split_and!; [no_newline | done | no_newline].
Qed.

Lemma closed_line_complete (t : string) :
  bool_decide (NL ∉ lit t) = true → complete (lit t ++ [NL]).
Proof.
  intros H. exists (lit t). split; [done|]. by apply bool_decide_eq_true in H.
Qed.

Lemma block_tail_complete v : NL ∉ v → Forall complete (block_tail v).
Proof.
  intros Hv. unfold block_tail, block_rest, comment_line.
  repeat first
    [ apply Forall_nil_2
    | apply Forall_cons_2;
      [first [ by apply get_line_complete
             | apply closed_line_complete; closed_bool ]|] ].
Qed.

Lemma derivation_complete v : NL ∉ v → Forall complete (derivation v).
Proof.
  intros Hv. rewrite derivation_unfold. apply Forall_cons_2.
  - exists []. split; [done | apply not_elem_of_nil].
  - by apply block_tail_complete.
Qed.

Lemma block_rest_window rest : window (block_rest ++ rest) = true.
Proof.
  unfold window. apply existsb_exists.
  exists (lit "        await violationService.deriveFromObservation(obs, position, 'test-user');" ++ [NL]).
  split; [|closed_bool].
  apply list_elem_of_In, (list_elem_of_lookup_2 _ 2). reflexivity.
Qed.

Lemma block_tail_window v rest : window (block_tail v ++ rest) = true.
Proof.
  unfold window. apply existsb_exists.
  exists (lit "        await violationService.deriveFromObservation(obs, position, 'test-user');" ++ [NL]).
  split; [|closed_bool].
  apply list_elem_of_In, (list_elem_of_lookup_2 _ 4). reflexivity.
Qed.

Lemma derivation_window v rest : window (derivation v ++ rest) = true.
Proof.
  unfold window. apply existsb_exists.
  exists (lit "        await violationService.deriveFromObservation(obs, position, 'test-user');" ++ [NL]).
  split; [|closed_bool].
  apply list_elem_of_In, (list_elem_of_lookup_2 _ 5). reflexivity.
Qed.

(** Lines that start no span are copied by the scan. *)
Lemma v2_walk_copy (b rest : list str) :
  Forall (λ l, start l = None) b → W Scan (b ++ rest) = b ++ W Scan rest.
Proof.
  induction 1 as [|l b Hl Hb IH]; [done|].
  cbn [app]. rewrite v2_walk_cons. cbn [AddDerivationsV2Ref.step].
  by rewrite Hl, IH.
Qed.

Lemma block_rest_no_start : Forall (λ l, start l = None) block_rest.
Proof.
  unfold block_rest, AddDerivationsV2Ref.start.
  repeat first [apply Forall_nil_2 | apply Forall_cons_2; [closed_bool|]].
Qed.

Lemma block_tail_no_start v : Forall (λ l, start l = None) (block_tail v).
Proof.
  unfold block_tail. apply Forall_cons_2; [|apply Forall_cons_2].
  - unfold AddDerivationsV2Ref.start. closed_bool.
  - apply get_line_no_start.
  - apply block_rest_no_start.
Qed.

Lemma derivation_no_start v : Forall (λ l, start l = None) (derivation v).
Proof.
  rewrite derivation_unfold. apply Forall_cons_2; [|apply block_tail_no_start].
  unfold AddDerivationsV2Ref.start. closed_bool.
Qed.

(** Inside a span the scan reads the block up to its line with the
    terminator, finds the marker behind it and inserts nothing. *)
Lemma v2_walk_InSpan_block_tail v' v :
  W (InSpan v') (block_tail v) = block_tail v.
Proof.
  unfold block_tail.
  rewrite v2_walk_InSpan_cons. unfold v2_after at 1.
  replace (contains TERMINATOR comment_line) with false by closed_bool.
  rewrite v2_walk_InSpan_cons. unfold v2_after at 1.
  rewrite get_line_closes. unfold block.
  rewrite <- (app_nil_r block_rest) at 1. rewrite block_rest_window.
  cbn [app]. rewrite <- (app_nil_r block_rest) at 1.
  rewrite v2_walk_copy by apply block_rest_no_start.
  by rewrite app_nil_r.
Qed.

Lemma v2_walk_InSpan_derivation v' v :
  W (InSpan v') (derivation v) = derivation v.
Proof.
  rewrite derivation_unfold, v2_walk_InSpan_cons. unfold v2_after.
  replace (contains TERMINATOR [NL]) with false by closed_bool.
  by rewrite v2_walk_InSpan_block_tail.
Qed.

(** After a line of a span, with only the block tail behind it, nothing
    is inserted. *)
Lemma v2_after_block_tail v' x v :
  after v' x (block_tail v) = block_tail v.
Proof.
  unfold v2_after. destruct (contains TERMINATOR x).
  - unfold block. rewrite <- (app_nil_r (block_tail v)) at 1.
    rewrite block_tail_window. cbn [app].
    rewrite <- (app_nil_r (block_tail v)) at 1.
    rewrite v2_walk_copy by apply block_tail_no_start.
    by rewrite app_nil_r.
  - apply v2_walk_InSpan_block_tail.
Qed.

(** At the end of the file the block always follows. *)
Lemma v2_after_nil v x : after v x [] = derivation v.
Proof.
  unfold v2_after. destruct (contains TERMINATOR x); [|done].
  change (block v []) with (derivation v).
  change (W Scan []) with (@nil str). apply app_nil_r.
Qed.

Lemma existsb_take_mono {A} (p : A → bool) (l : list A) (k k' : nat) :
  k ≤ k' → existsb p (take k l) = true → existsb p (take k' l) = true.
Proof.
  revert k k'. induction l as [|a l IH]; intros k k' Hk H.
  - by destruct k.
  - destruct k as [|k]; [done|]. destruct k' as [|k']; [lia|].
    simpl in *. apply orb_true_iff in H as [H|H].
    + by rewrite H.
    + rewrite (IH k k'); [apply orb_true_r | lia | done].
Qed.

(** A partial last line that opens or continues a span: what is written
    and read back. *)
Lemma v2_reread_last m z v :
  partial z → NL ∉ v → step m z = Some v →
  reread (W m [z]) = (z ++ [NL]) :: block_tail v.
Proof.
  intros Hz Hv Hstep. rewrite v2_walk_cons, Hstep, v2_after_nil.
  rewrite derivation_unfold, reread_partial_newline by done.
  f_equal. change ([] :: block_tail v) with ([[]] ++ block_tail v).
  unfold reread, writelines. rewrite concat_app. cbn [concat app].
  change (readlines (concat (block_tail v))) with (reread (block_tail v)).
  by rewrite reread_complete by (by apply block_tail_complete).
Qed.

Lemma step_newline m z v :
  step m z = Some v → ∃ v', step m (z ++ [NL]) = Some v'.
Proof.
  destruct m as [|v0]; simpl; [|by eexists].
  unfold AddDerivationsV2Ref.start.
  destruct (re_match _ z) eqn:E; [|done]. intros _.
  rewrite (re_match_app _ _ _ E). by eexists.
Qed.

(** The marker that holds a block back is still within the window when
    the file is read back. *)
Lemma v2_window_kept (lines : list str) :
  file_lines lines →
  ∀ m k, mode_ok m → k ≤ 10 →
    existsb (contains MARKER) (take k lines) = true →
    existsb (contains MARKER) (take k (reread (W m lines))) = true.
Proof.
  induction 1 as [|z Hz|x xs Hx Hxs IH]; intros m k Hm Hk Hmark.
  - by destruct k.
  - destruct k as [|k]; [done|]. simpl in Hmark.
    rewrite take_nil in Hmark. simpl in Hmark.
    rewrite orb_false_r in Hmark.
    destruct (step m z) as [v|] eqn:Hstep.
    + rewrite (v2_reread_last m z v) by (done || by eapply step_ok).
      simpl. by rewrite (contains_app_l _ _ _ Hmark).
    + rewrite v2_walk_cons, Hstep.
      unfold reread, writelines. cbn [AddDerivationsV2Ref.walk emit concat].
      rewrite app_nil_r, (readlines_partial z) by done.
      simpl. by rewrite Hmark.
  - destruct k as [|k]; [done|].
    rewrite v2_walk_cons, reread_cons_complete by done.
    cbn [take existsb] in *. apply orb_true_iff in Hmark as [Hmark|Hmark];
      [by rewrite Hmark|].
    apply orb_true_iff. right.
    destruct (step m x) as [v|] eqn:Hstep; [|apply IH; (done || lia)].
    unfold v2_after. destruct (contains TERMINATOR x).
    + unfold block.
      replace (window xs) with true
        by (symmetry; apply (existsb_take_mono _ _ k 10); [lia | done]).
      apply IH; (done || lia).
    + apply IH; [by eapply step_ok | lia | done].
Qed.

(** Reading back what the walk wrote and walking over it gives the same
    lines. *)
Lemma v2_walk_reread (lines : list str) :
  file_lines lines →
  ∀ m, mode_ok m → W m (reread (W m lines)) = reread (W m lines).
Proof.
  induction 1 as [|z Hz|x xs Hx Hxs IH]; intros m Hm.
  - destruct m as [|v]; [done|]. simpl in Hm.
    change (W (InSpan v) []) with (derivation v).
    rewrite reread_complete by (by apply derivation_complete).
    apply v2_walk_InSpan_derivation.
  - destruct (step m z) as [v|] eqn:Hstep.
    + rewrite (v2_reread_last m z v) by (done || by eapply step_ok).
      destruct (step_newline m z v Hstep) as [v' Hstep'].
      rewrite v2_walk_cons, Hstep'. by rewrite v2_after_block_tail.
    + rewrite v2_walk_cons, Hstep.
      unfold reread, writelines. cbn [AddDerivationsV2Ref.walk emit concat].
      rewrite app_nil_r, (readlines_partial z) by done.
      rewrite v2_walk_cons, Hstep. done.
  - rewrite v2_walk_cons, reread_cons_complete by done.
    rewrite v2_walk_cons.
    destruct (step m x) as [v|] eqn:Hstep; [|by rewrite IH].
    assert (NL ∉ v) as Hv by (by eapply step_ok).
    unfold v2_after. destruct (contains TERMINATOR x); [|by rewrite IH].
    destruct (window xs) eqn:Hwin.
    + assert (block v xs = []) as -> by (unfold block; by rewrite Hwin).
      cbn [app].
      assert (block v (reread (W Scan xs)) = []) as ->.
      { unfold block, window.
        by rewrite (v2_window_kept xs Hxs Scan 10). }
      cbn [app]. by rewrite IH.
    + assert (block v xs = derivation v) as ->
        by (unfold block; by rewrite Hwin).
      rewrite reread_app_complete by (by apply derivation_complete).
      assert (block v (derivation v ++ reread (W Scan xs)) = []) as ->
        by (unfold block; by rewrite derivation_window).
      cbn [app]. rewrite v2_walk_copy by apply derivation_no_start.
      by rewrite IH.
Qed.

(** A second run of add-derivations-v2.py writes what the first wrote. *)
Lemma v2_transform_idempotent (content once : str) :
  transform ualnum content = Returned once →
  transform ualnum once = Returned once.
Proof.
  rewrite !v2_transform_walk. intros [= <-]. f_equal.
  change (readlines (writelines ?ls)) with (reread ls).
  rewrite v2_walk_reread; [| apply readlines_file_lines | done].
  apply writelines_reread.
Qed.

End AddDerivationsV2Idempotence.

(** ** Running a transformation twice *)

Section IdempotenceFacts.

(** The two scripts that look for what they add.  On every file content,
    a second run of add-submitted-by.py and a second run of
    add-derivations-v2.py write what the first run wrote: no second
    ['test-user'] parameter, no second derivation block, whether or not
    the file ends in a newline. *)
Theorem guarded_transformations_are_idempotent
    (ualnum : N → bool) (content : str) :
  (∃ once, AddSubmittedBy.transform content = Returned once
           ∧ AddSubmittedBy.transform once = Returned once)
  ∧ (∃ once, AddDerivationsV2.transform ualnum content = Returned once
             ∧ AddDerivationsV2.transform ualnum once = Returned once).
Proof.
  split.
  - eexists. split; [apply asb_transform_walk|].
    apply (asb_transform_idempotent content), asb_transform_walk.
  - eexists. split; [apply v2_transform_walk|].
    apply (v2_transform_idempotent ualnum content), v2_transform_walk.
Qed.

(** C1.  fix-tests.py puts the parameter after the parenthesis that
    closes the call, not inside the call as its comment on lines 14 to 16
    says and as add-submitted-by.py writes it.  What it wrote matches its
    pattern again, and a second run adds ['test-user'] a second time:
    twice is not once.  The text the comment promises is left alone by a
    further run. *)
Lemma fix_tests_adds_the_parameter_again :
  FixTests.transform Samples.plain_call = Samples.plain_call_once
  ∧ FixTests.transform Samples.plain_call_once = Samples.plain_call_twice
  ∧ FixTests.transform (FixTests.transform Samples.plain_call)
    ≠ FixTests.transform Samples.plain_call
  ∧ Samples.plain_call_once ≠ Samples.plain_call_commented
  ∧ FixTests.transform Samples.plain_call_commented
    = Samples.plain_call_commented
  ∧ AddSubmittedBy.transform Samples.spread_call
    = Returned Samples.spread_call_commented
  ∧ FixTests.transform Samples.spread_call = Samples.spread_call_once
  ∧ Samples.spread_call_once ≠ Samples.spread_call_commented.
Proof.
  split_and!; try (by vm_compute); vm_compute; discriminate.
Qed.

End IdempotenceFacts.

(** ** What every inserted block has around it *)

Section BlockFacts.

Import SpanRewriter.

(** X21.  add-derivations-v2.py, lines 37 to 52: a block the script
    inserts after line [e] has no marker in the ten lines after [e]. *)
Lemma v2_block_only_without_marker (ualnum : N → bool) (lines : list str) :
  ∃ ins : list (list str),
    AddDerivationsV2.rewrite_lines ualnum (S (length lines)) lines
    = Returned (splice lines ins)
    ∧ ∀ e b, ins !! e = Some b → b ≠ [] →
        existsb (contains AddDerivationsV2.MARKER)
          (take 10 (drop (S e) lines)) = false.
Proof.
  exists (inserted (AddDerivationsV2Ref.start ualnum)
            AddDerivationsV2Ref.extend true
            (contains AddDerivationsV2.TERMINATOR)
            AddDerivationsV2Ref.block AddDerivationsV2.derivation
            Scan lines).
  split.
  - rewrite v2_rewrite_lines_walk by lia.
    unfold AddDerivationsV2Ref.walk. by rewrite emit_Scan_splice.
  - intros e b Hb Hne.
    destruct (inserted_from_span _ _ _ _ _ _ _ _ _ Hb Hne)
      as (s & x & t & _ & _ & _ & _ & Hclosed).
    destruct Hclosed as [[_ ->]|(_ & Hlen & _)].
    + unfold AddDerivationsV2Ref.block, AddDerivationsV2Ref.window in Hne.
      by destruct (existsb _ _).
    + rewrite drop_ge by lia. done.
Qed.

(** X22.  add-violation-derivation.py, lines 30 to 50: a block the script
    inserts after line [e] follows a span the loop collected: the span
    starts at a line [s] with the submit call, a line after [s] has the
    terminator and [e] is the first such line, the text of the lines [s]
    to [e] has [observationId], and the marker is not within the four
    lines after [e]. *)
Lemma vd_block_only_with_observation_id (lines : list str) :
  ∃ ins : list (list str),
    AddViolationDerivation.rewrite_lines (S (length lines)) lines
    = Returned (splice lines ins)
    ∧ ∀ e b, ins !! e = Some b → b ≠ [] →
        ∃ s x, s < e
          ∧ (s, e) ∈ AddViolationDerivationRef.spans lines
          ∧ lines !! s = Some x
          ∧ contains AddViolationDerivation.SUBMIT_CALL x = true
          ∧ AddViolationDerivationRef.closed lines s = true
          ∧ AddViolationDerivationRef.end_of_span lines s = e
          ∧ contains AddViolationDerivation.OBSERVATION_ID
              (AddViolationDerivationRef.span_text lines s e) = true
          ∧ existsb (contains AddViolationDerivation.MARKER)
              (take 4 (drop (S e) lines)) = false.
Proof.
  exists (inserted AddViolationDerivationRef.start
            AddViolationDerivationRef.extend false
            (contains AddViolationDerivation.TERMINATOR)
            AddViolationDerivationRef.block (λ _, [])
            Scan lines).
  split.
  - rewrite vd_rewrite_lines_walk by lia.
    unfold AddViolationDerivationRef.walk. by rewrite emit_Scan_splice.
  - intros e b Hb Hne.
    destruct (inserted_in_spans _ _ _ _ _ _ lines e b Hb Hne) as [s Hin].
    destruct (vd_spans_inserted lines s e Hin)
      as (x & Hx & Hm & Hse & Hend & Hat).
    rewrite Hb in Hat. apply (inj Some) in Hat. subst b.
    destruct (AddViolationDerivationRef.closed lines s) eqn:Hclosed;
      [|done].
    destruct (contains AddViolationDerivation.OBSERVATION_ID _) eqn:Hobs;
      [|done].
    fold (AddViolationDerivationRef.window (drop (S e) lines)).
    destruct (AddViolationDerivationRef.window _) eqn:Hwin; [done|].
    exists s, x. split_and!; try done.
    rewrite <- Hend. by apply vd_closed_span_end.
Qed.

End BlockFacts.

(* ===================================================================== *)
(** * Part IV: further properties of the scripts                          *)
(* ===================================================================== *)

(** ** Texts a replacement leaves free of a pattern *)

Section ReplaceFreeFacts.

Import Occurrences.

Lemma contains_false_app (p u v : str) :
  contains p (u ++ v) = false → contains p u = false ∧ contains p v = false.
Proof.
  intros H. split.
  - destruct (contains p u) eqn:E; [|done].
    by rewrite (contains_app_l _ _ v E) in H.
  - destruct (contains p v) eqn:E; [|done].
    by rewrite (contains_app_r _ u _ E) in H.
Qed.

(** Where the pattern does not occur nothing is replaced. *)
Lemma replace_from_absent (old new s : str) :
  contains old s = false → replace_from old new 0 s = s.
Proof.
  induction s as [|c s IH]; [done|]. cbn [contains].
  intros [Hhead Hrest]%orb_false_iff.
  rewrite replace_from_no_match by done. by rewrite IH.
Qed.

(** A text is free of the pattern, or has a first occurrence with a free
    text before it. *)
Lemma replace_from_split (old new s : str) :
  old ≠ [] →
  contains old s = false
  ∨ ∃ x y, s = x ++ old ++ y ∧ contains old x = false
           ∧ replace_from old new 0 s
             = x ++ new ++ replace_from old new 0 y.
Proof.
  intros Hold. induction s as [|c s IH].
  - left. by destruct old.
  - destruct (startswith old (c :: s)) eqn:Hhead.
    + right. destruct (proj1 (startswith_prefix _ _) Hhead) as [y Hy].
      exists [], y. split_and!; [done | by destruct old |].
      rewrite replace_from_match by done.
      by rewrite Hy, drop_app_length.
    + destruct IH as [Hfree|(x & y & -> & Hx & Hrep)].
      * left. cbn [contains]. by rewrite Hhead, Hfree.
      * right. exists (c :: x), y. split_and!; [done | |].
        -- cbn [contains]. rewrite Hx, orb_false_r.
           destruct (startswith old (c :: x)) eqn:E; [|done].
           change (c :: x ++ old ++ y) with ((c :: x) ++ old ++ y) in Hhead.
           by rewrite (startswith_app_l _ _ _ E) in Hhead.
        -- rewrite replace_from_no_match by done. by rewrite Hrep.
Qed.

(** No occurrence of [p] lies across a text apart from it. *)
Lemma contains_around_apart (p m x z : str) :
  apart p m = true →
  contains p x = false → contains p z = false →
  contains p (x ++ m ++ z) = false.
Proof.
  intros Hap Hx Hz. induction x as [|c x IH].
  - cbn [app].
    assert (∀ j, j < length m → compatible p (drop j m) = false) as Hin
      by (intros j Hj; by apply apart_inside).
    clear Hap Hx. induction m as [|c m IH]; [done|].
    cbn [app contains]. rewrite IH.
    + rewrite orb_false_r.
      destruct (startswith p (c :: m ++ z)) eqn:E; [|done].
      apply (compatible_of_startswith_app p (c :: m) z) in E.
      specialize (Hin 0). rewrite drop_0 in Hin.
      rewrite Hin in E; [done | simpl; lia].
    + intros j Hj. apply (Hin (S j)). simpl. lia.
  - cbn [contains] in Hx. apply orb_false_iff in Hx as [Hhead Hx].
    cbn [app contains]. rewrite (IH Hx), orb_false_r.
    destruct (startswith p (c :: x ++ m ++ z)) eqn:E; [|done].
    change (c :: x ++ m ++ z) with ((c :: x) ++ m ++ z) in E.
    apply match_before_apart in E; [congruence | done | done].
Qed.

(** Replacing [old] by a text apart from [p] brings no occurrence of [p]
    about; when [p] is [old] itself none is left. *)
Lemma replace_from_free (p old new : str) :
  old ≠ [] → apart p new = true →
  ∀ s, contains p s = false ∨ p = old →
       contains p (replace_from old new 0 s) = false.
Proof.
  intros Hold Hap s.
  remember (length s) as n eqn:Hn. revert s Hn.
  induction n as [n IH] using lt_wf_ind. intros s Hn Hp.
  destruct (replace_from_split old new s Hold)
    as [Hfree|(x & y & -> & Hx & ->)].
  - rewrite replace_from_absent by done.
    destruct Hp as [Hp| ->]; done.
  - apply contains_around_apart; [done | |].
    + destruct Hp as [Hp| ->]; [|done].
      by apply contains_false_app in Hp as [Hp _].
    + apply (IH (length y)); [| done |].
      * subst n. rewrite !length_app. destruct old; [done | simpl; lia].
      * destruct Hp as [Hp|Hp]; [|by right]. left.
        apply contains_false_app in Hp as [_ Hp].
        by apply contains_false_app in Hp as [_ Hp].
Qed.

End ReplaceFreeFacts.

(** ** fix-vehicle-fields.py: the three references together *)

Section VehicleReferenceFacts.

Import FixVehicleFields Occurrences.

Let ABC : str := pattern_text (lit "context.vehicleIds.abc123").
Let XYZ : str := pattern_text (lit "context.vehicleIds.xyz789").
Let DEF : str := pattern_text (lit "context.vehicleIds.def456").
Let ABC_FIELDS : str :=
  lit "licensePlate: 'ABC123'," ++ [NL] ++ lit "        issuingState: 'CA',".
Let XYZ_FIELDS : str :=
  lit "licensePlate: 'XYZ789'," ++ [NL] ++ lit "        issuingState: 'WA',".
Let DEF_FIELDS : str :=
  lit "licensePlate: 'DEF456'," ++ [NL] ++ lit "        issuingState: 'OR',".

Lemma vehicle_transform_three content :
  transform content
  = replace_from DEF DEF_FIELDS 0
      (replace_from XYZ XYZ_FIELDS 0 (replace_from ABC ABC_FIELDS 0 content)).
Proof. reflexivity. Qed.

(** After a run none of the three references is left in the text. *)
Lemma vehicle_transform_free content :
  contains ABC (transform content) = false
  ∧ contains XYZ (transform content) = false
  ∧ contains DEF (transform content) = false.
Proof.
  rewrite vehicle_transform_three.
  pose proof (replace_from_free ABC ABC ABC_FIELDS ltac:(done)
                ltac:(by vm_compute) content (or_intror eq_refl)) as Ha.
  pose proof (replace_from_free ABC XYZ XYZ_FIELDS ltac:(done)
                ltac:(by vm_compute) _ (or_introl Ha)) as Ha'.
  pose proof (replace_from_free XYZ XYZ XYZ_FIELDS ltac:(done)
                ltac:(by vm_compute)
                (replace_from ABC ABC_FIELDS 0 content) (or_intror eq_refl))
    as Hx.
  split_and!.
  - by apply replace_from_free; [| vm_compute | left].
  - by apply replace_from_free; [| vm_compute | left].
  - by apply replace_from_free; [| vm_compute | right].
Qed.

(** A text with none of the three references is kept as it is. *)
Lemma vehicle_transform_absent content :
  contains ABC content = false → contains XYZ content = false →
  contains DEF content = false →
  transform content = content.
Proof.
  intros Ha Hx Hd. rewrite vehicle_transform_three.
  rewrite (replace_from_absent ABC) by done.
  rewrite (replace_from_absent XYZ) by done.
  by rewrite (replace_from_absent DEF) by done.
Qed.

(** X1.  fix-vehicle-fields.py, lines 22 to 27: running the script on its
    own output changes nothing, whatever the file holds. *)
Theorem vehicle_fields_idempotent content :
  transform (transform content) = transform content.
Proof.
  destruct (vehicle_transform_free content) as (Ha & Hx & Hd).
  by apply vehicle_transform_absent.
Qed.

(** X2.  fix-vehicle-fields.py, lines 8 to 27: the output of the script
    holds none of the three [vehicleId: context.vehicleIds.<name>,]
    texts of the dictionary any more. *)
Theorem vehicle_fields_leave_no_reference content :
  Forall (λ '(vehicle_ref, _),
            contains (pattern_text vehicle_ref) (transform content) = false)
         vehicle_map.
Proof.
  destruct (vehicle_transform_free content) as (Ha & Hx & Hd).
  repeat apply Forall_cons_2; done.
Qed.

(** X3.  fix-vehicle-fields.py, lines 22 to 27: a file in which the text
    [vehicleId: context.vehicleIds.] does not occur is written back
    unchanged. *)
Theorem vehicle_fields_keep_other_files content :
  contains (lit "vehicleId: context.vehicleIds.") content = false →
  transform content = content.
Proof.
  intros Hfree.
  assert (∀ name, contains (pattern_text (lit "context.vehicleIds." ++ name))
                    content = false) as Hno.
  { intros name.
    destruct (contains (pattern_text (lit "context.vehicleIds." ++ name))
                content) eqn:E; [|done].
    apply contains_occurs in E as (u & v & ->).
    assert (pattern_text (lit "context.vehicleIds." ++ name) ++ v
            = lit "vehicleId: context.vehicleIds." ++ (name ++ lit "," ++ v))
      as Heq by (unfold pattern_text; by rewrite <- !(assoc_L (++))).
    rewrite Heq in Hfree.
    rewrite (contains_app_r _ u) in Hfree; [done|].
    by apply contains_app_l. }
  apply vehicle_transform_absent.
  - apply (Hno (lit "abc123")).
  - apply (Hno (lit "xyz789")).
  - apply (Hno (lit "def456")).
Qed.

Lemma vehicle_fields_keep_other_files_witness :
  transform (lit "vehicleId: carId,") = lit "vehicleId: carId,".
Proof. by apply vehicle_fields_keep_other_files. Defined.

(** X4.  fix-vehicle-fields.py, lines 10, 11 and 22 to 27: the references
    [xyz789] and [def456] become the plates XYZ789 of WA and DEF456 of OR,
    wherever they stand, and the text around them is transformed on its
    own. *)
Theorem vehicle_other_references_become_fields (pre post : str) :
  transform (pre ++ XYZ ++ post)
  = transform pre ++ XYZ_FIELDS ++ transform post
  ∧ transform (pre ++ DEF ++ post)
    = transform pre ++ DEF_FIELDS ++ transform post.
Proof.
  rewrite !vehicle_transform_three. split.
  - rewrite (replace_from_around ABC ABC_FIELDS XYZ) by (done || by vm_compute).
    rewrite (replace_from_occurrence XYZ XYZ_FIELDS)
      by (done || by vm_compute).
    by rewrite (replace_from_around DEF DEF_FIELDS XYZ_FIELDS)
      by (done || by vm_compute).
  - rewrite (replace_from_around ABC ABC_FIELDS DEF) by (done || by vm_compute).
    rewrite (replace_from_around XYZ XYZ_FIELDS DEF) by (done || by vm_compute).
    by rewrite (replace_from_occurrence DEF DEF_FIELDS)
      by (done || by vm_compute).
Qed.

End VehicleReferenceFacts.

(** ** fix-tests.py: what a run inserts *)

Section FixTestsFacts.

Import FixTests.

(** A match is the opening text, a body without closing brace, and the
    three closing characters. *)
Lemma match_call_spec (t : N) (s : str) (group1 : str) (n : nat) :
  match_call t s = Some (group1, n) →
  ∃ body rest,
    s = group1 ++ [t] ++ rest ∧ group1 = SUBMIT_OPEN ++ body ++ lit "})"
    ∧ body ≠ [] ∧ n = length group1 + 1 ∧ rest = drop n s
    ∧ Forall (λ c, c ≠ ch "}") body.
Proof.
  unfold match_call. destruct (startswith SUBMIT_OPEN s) eqn:Hopen; [|done].
  apply startswith_prefix in Hopen as [s1 ->].
  rewrite drop_app_length.
  remember (take_while (λ c, negb (c =? ch "}")%N) s1) as body eqn:Hb.
  destruct (bool_decide (body ≠ [])) eqn:Hbody; [|done].
  apply bool_decide_eq_true in Hbody. cbn [andb].
  destruct (startswith (lit "})" ++ [t]) (drop (length body) s1)) eqn:Hclose;
    [|done].
  apply startswith_prefix in Hclose as [rest Hrest].
  intros H. apply (inj Some) in H. apply pair_equal_spec in H as [<- <-].
  exists body, rest.
  assert (take (length body) s1 = body) as Htake.
  { subst body. rewrite <- (take_drop_while (λ c, negb (c =? ch "}")%N) s1)
      at 2. by rewrite take_app_length. }
  assert (s1 = body ++ (lit "})" ++ [t]) ++ rest) as ->.
  { rewrite <- Hrest, <- Htake at 1. by rewrite take_drop. }
  assert (length (SUBMIT_OPEN ++ body ++ lit "})")
          = length SUBMIT_OPEN + length body + 2) as Hlen
    by (rewrite !length_app; simpl; lia).
  split_and!; [| done | done | lia | |].
  - by rewrite <- !(assoc_L (++)).
  - replace (length SUBMIT_OPEN + length body + 3)
      with (length ((SUBMIT_OPEN ++ body ++ lit "})") ++ [t]))
      by (rewrite length_app, Hlen; simpl; lia).
    rewrite <- (drop_app_length ((SUBMIT_OPEN ++ body ++ lit "})") ++ [t]) rest)
      at 1.
    by rewrite <- !(assoc_L (++)).
  - rewrite Hb. eapply Forall_impl; [apply take_while_Forall|].
    intros c Hc ->. done.
Qed.

(** Passing the characters of a match is dropping them. *)
Lemma sub_from_skip (t : N) (tail : str) (k : nat) (s : str) :
  sub_from t tail k s = sub_from t tail 0 (drop k s).
Proof.
  revert k. induction s as [|c s IH]; intros [|k]; try reflexivity.
  cbn [sub_from drop]. apply IH.
Qed.

(** A text in which no call opens is kept. *)
Lemma sub_from_no_open (t : N) (tail s : str) :
  contains SUBMIT_OPEN s = false → sub_from t tail 0 s = s.
Proof.
  induction s as [|c s IH]; [done|]. cbn [contains].
  intros [Hhead Hrest]%orb_false_iff. cbn [sub_from].
  unfold match_call. rewrite Hhead. by rewrite IH.
Qed.

(** A text in which no call closes with [t] is kept. *)
Lemma sub_from_no_close (t : N) (tail s : str) :
  contains (lit "})" ++ [t]) s = false → sub_from t tail 0 s = s.
Proof.
  induction s as [|c s IH]; [done|]. intros Hfree.
  pose proof Hfree as Hfree'.
  cbn [contains] in Hfree'. apply orb_false_iff in Hfree' as [_ Hrest].
  cbn [sub_from].
  destruct (match_call t (c :: s)) as [[group1 n]|] eqn:Hm.
  - apply match_call_spec in Hm as (body & rest & Hs & -> & _).
    rewrite Hs in Hfree.
    rewrite <- !(assoc_L (++)) in Hfree.
    rewrite (contains_app_r _ SUBMIT_OPEN) in Hfree; [done|].
    apply contains_app_r.
    rewrite (assoc_L (++) (lit "})")). apply contains_app_l.
    rewrite <- (app_nil_r (lit "})" ++ [t])).
    apply contains_occurs. by exists [], [].
  - by rewrite IH.
Qed.

(** The script only inserts: the characters of the input stay, in
    order. *)
Lemma sub_from_sublist (t : N) (ins : str) (s : str) :
  s `sublist_of` sub_from t (ins ++ [t]) 0 s.
Proof.
  remember (length s) as k eqn:Hk. revert s Hk.
  induction k as [k IH] using lt_wf_ind. intros s Hk.
  destruct s as [|c s]; [done|]. cbn [sub_from].
  destruct (match_call t (c :: s)) as [[group1 n]|] eqn:Hm.
  - apply match_call_spec in Hm as (body & rest & Hs & Hg & _ & -> & Hrest & _).
    replace (length group1 + 1 - 1) with (length group1) by lia.
    rewrite sub_from_skip.
    assert (drop (length group1) s = rest) as ->.
    { rewrite Hrest. replace (length group1 + 1) with (S (length group1))
        by lia. done. }
    rewrite Hs at 1.
    apply sublist_app; [done|].
    rewrite <- (assoc_L (++)). apply sublist_inserts_l.
    apply sublist_app; [done|].
    apply (IH (length rest)); [|done].
    subst k. rewrite Hs, !length_app. simpl. lia.
  - apply sublist_skip. apply (IH (length s)); [subst k; simpl; lia | done].
Qed.

(** X5.  fix-tests.py, lines 17 to 30: the script only inserts text.
    Every character of the input is in the output, in the same order. *)
Theorem fix_tests_only_inserts (content : str) :
  content `sublist_of` transform content.
Proof.
  unfold transform. etrans.
  - apply (sub_from_sublist (ch ",") (lit ", 'test-user')")).
  - apply (sub_from_sublist (ch ";") (lit ", 'test-user')")).
Qed.

(** X6.  fix-tests.py, lines 17 to 30: a file in which the text
    [await observationService.submit({] does not occur is written back
    unchanged, and so is a file that has neither [}),] nor [});]. *)
Theorem fix_tests_keeps_other_files (content : str) :
  contains SUBMIT_OPEN content = false
  ∨ (contains (lit "}),") content = false
     ∧ contains (lit "});") content = false) →
  transform content = content.
Proof.
  unfold transform. intros [Hopen|[Hcomma Hsemi]].
  - rewrite (sub_from_no_open (ch ",") _ content Hopen).
    apply (sub_from_no_open (ch ";") _ content Hopen).
  - rewrite (sub_from_no_close (ch ",") _ content Hcomma).
    apply (sub_from_no_close (ch ";") _ content Hsemi).
Qed.

Lemma fix_tests_keeps_other_files_witness :
  transform (lit "await service.submit({ id: 1 });")
  = lit "await service.submit({ id: 1 });".
Proof. apply fix_tests_keeps_other_files. left. by vm_compute. Defined.

(** The first closing brace of a text is where it is. *)
Lemma first_occurrence_unique (a : N) (u v x y : str) :
  Forall (λ c, c ≠ a) u → Forall (λ c, c ≠ a) v →
  u ++ a :: x = v ++ a :: y → u = v ∧ x = y.
Proof.
  intros Hu. revert v. induction Hu as [|c u Hc Hu IH]; intros v Hv Heq.
  - destruct Hv as [|d v Hd Hv]; [by simplify_eq/=|].
    simplify_eq/=.
  - destruct Hv as [|d v Hd Hv]; [simplify_eq/=|].
    cbn [app] in Heq. injection Heq as -> Heq.
    destruct (IH v Hv Heq) as [-> ->]. done.
Qed.

Lemma take_while_app_stop (p : N → bool) (u : str) (c : N) (x : str) :
  Forall (λ c, p c = true) u → p c = false →
  take_while p (u ++ c :: x) = u.
Proof.
  intros Hu Hc. induction Hu as [|d u Hd Hu IH]; simpl.
  - by rewrite Hc.
  - by rewrite Hd, IH.
Qed.

(** A call with a body without closing brace, closed by [t], matches. *)
Lemma match_call_intro (t : N) (body rest : str) :
  body ≠ [] → Forall (λ c, c ≠ ch "}") body →
  match_call t (SUBMIT_OPEN ++ body ++ lit "})" ++ [t] ++ rest)
  = Some (SUBMIT_OPEN ++ body ++ lit "})",
          length SUBMIT_OPEN + length body + 3).
Proof.
  intros Hne Hbody. unfold match_call.
  rewrite startswith_app, drop_app_length.
  change (body ++ lit "})" ++ [t] ++ rest)
    with (body ++ ch "}" :: (lit ")" ++ [t] ++ rest)).
  rewrite take_while_app_stop; [| |done].
  - rewrite drop_app_length, bool_decide_eq_true_2 by done.
    cbn [andb].
    change (ch "}" :: lit ")" ++ [t] ++ rest)
      with ((lit "})" ++ [t]) ++ rest).
    by rewrite startswith_app.
  - eapply Forall_impl; [exact Hbody|]. intros c Hc.
    apply negb_true_iff, N.eqb_neq. done.
Qed.

Lemma submit_open_no_close : Forall (λ c, c ≠ ch "}") SUBMIT_OPEN.
Proof. apply (bool_decide_unpack _). by vm_compute. Qed.

(** A match that starts before the first closing brace of the text starts
    with the opening text and is closed right after that brace. *)
Lemma match_call_first_brace (t : N) (u x group1 : str) (n : nat) :
  Forall (λ c, c ≠ ch "}") u →
  match_call t (u ++ ch "}" :: x) = Some (group1, n) →
  startswith (lit ")" ++ [t]) x = true.
Proof.
  intros Hu Hm.
  apply match_call_spec in Hm as (body & rest & Hs & -> & _ & _ & _ & Hbody).
  assert (u ++ ch "}" :: x
          = (SUBMIT_OPEN ++ body) ++ ch "}" :: (lit ")" ++ [t]) ++ rest) as Heq.
  { rewrite Hs. by rewrite <- !(assoc_L (++)). }
  apply first_occurrence_unique in Heq as [_ ->]; [| done |].
  - apply startswith_app.
  - apply Forall_app. split; [apply submit_open_no_close | done].
Qed.

(** Where no match starts the text is copied. *)
Lemma sub_from_copy (t : N) (tail x y : str) :
  (∀ j, j < length x → match_call t (drop j x ++ y) = None) →
  sub_from t tail 0 (x ++ y) = x ++ sub_from t tail 0 y.
Proof.
  induction x as [|c x IH]; intros Hx; [done|].
  cbn [app sub_from].
  pose proof (Hx 0 ltac:(simpl; lia)) as H0. rewrite drop_0 in H0.
  cbn [app] in H0. rewrite H0. f_equal. apply IH.
  intros j Hj. apply (Hx (S j)). simpl. lia.
Qed.

(** A match is replaced by its first group and the tail of the
    template. *)
Lemma sub_from_match (t : N) (tail s group1 : str) (n : nat) :
  match_call t s = Some (group1, n) →
  sub_from t tail 0 s = group1 ++ tail ++ sub_from t tail 0 (drop n s).
Proof.
  intros Hm. pose proof Hm as Hspec.
  apply match_call_spec in Hspec as (body & rest & Hs & Hg & _ & Hn & _).
  destruct s as [|c s].
  { rewrite Hg in Hs. by destruct body. }
  cbn [sub_from]. rewrite Hm, sub_from_skip.
  replace n with (S (n - 1)) at 2 by lia. done.
Qed.

Lemma sub_from_call (t : N) (tail body rest : str) :
  body ≠ [] → Forall (λ c, c ≠ ch "}") body →
  sub_from t tail 0 (SUBMIT_OPEN ++ body ++ lit "})" ++ [t] ++ rest)
  = SUBMIT_OPEN ++ body ++ lit "})" ++ tail ++ sub_from t tail 0 rest.
Proof.
  intros Hne Hbody.
  rewrite (sub_from_match t _ _ _ _ (match_call_intro t body rest Hne Hbody)).
  assert (drop (length SUBMIT_OPEN + length body + 3)
            (SUBMIT_OPEN ++ body ++ lit "})" ++ [t] ++ rest) = rest) as ->.
  { replace (SUBMIT_OPEN ++ body ++ lit "})" ++ [t] ++ rest)
      with ((SUBMIT_OPEN ++ body ++ lit "})" ++ [t]) ++ rest)
      by (by rewrite <- !(assoc_L (++))).
    replace (length SUBMIT_OPEN + length body + 3)
      with (length (SUBMIT_OPEN ++ body ++ lit "})" ++ [t]))
      by (rewrite !length_app; simpl; lia).
    apply drop_app_length. }
  by rewrite <- !(assoc_L (++)).
Qed.

(** No match starts in a text before a call that has no opening text. *)
Lemma no_match_before (t : N) (pre z : str) j :
  contains SUBMIT_OPEN pre = false → j < length pre →
  match_call t (drop j pre ++ SUBMIT_OPEN ++ z) = None.
Proof.
  intros Hpre Hj. unfold match_call.
  destruct (startswith SUBMIT_OPEN (drop j pre ++ SUBMIT_OPEN ++ z)) eqn:E;
    [|done].
  apply match_before_occurrence in E; [| by vm_compute |].
  - apply startswith_prefix in E as [w Hw].
    assert (contains SUBMIT_OPEN (drop j pre) = true) as Hin
      by (apply contains_occurs; by exists [], w).
    apply (contains_app_r _ (take j pre)) in Hin.
    rewrite take_drop in Hin. congruence.
  - intros Hnil. apply (f_equal length) in Hnil.
    rewrite length_drop in Hnil. simpl in Hnil. lia.
Qed.

(** No match for [t] starts in a call that closes otherwise. *)
Lemma no_match_in_call (t : N) (body K y : str) j :
  Forall (λ c, c ≠ ch "}") body → Forall (λ c, c ≠ ch "a") K →
  startswith (lit ")" ++ [t]) (K ++ y) = false →
  j < length (SUBMIT_OPEN ++ body ++ ch "}" :: K) →
  match_call t (drop j (SUBMIT_OPEN ++ body ++ ch "}" :: K) ++ y) = None.
Proof.
  intros Hbody HK Hclose Hj.
  assert (Forall (λ c, c ≠ ch "}") (SUBMIT_OPEN ++ body)) as HU.
  { apply Forall_app. split; [apply submit_open_no_close | done]. }
  rewrite (assoc_L (++) SUBMIT_OPEN) in Hj |- *.
  remember (SUBMIT_OPEN ++ body) as U eqn:EU. clear EU.
  destruct (decide (j ≤ length U)) as [Hle|Hgt].
  - rewrite drop_app_le by done.
    rewrite <- (assoc_L (++)). cbn [app].
    destruct (match_call t (drop j U ++ ch "}" :: K ++ y))
      as [[group1 n]|] eqn:Hm; [|done].
    apply match_call_first_brace in Hm; [congruence|].
    by apply Forall_drop.
  - rewrite drop_app_ge by lia.
    rewrite length_app in Hj. cbn [length] in Hj.
    replace (j - length U) with (S (j - length U - 1)) by lia.
    cbn [drop].
    assert (j - length U - 1 < length K) as Hk by lia.
    destruct (drop (j - length U - 1) K) as [|c K'] eqn:EK.
    { apply (f_equal length) in EK. rewrite length_drop in EK.
      simpl in EK. lia. }
    assert (c ≠ ch "a") as Hc.
    { apply (Forall_drop _ (j - length U - 1)) in HK.
      rewrite EK in HK. by inversion HK. }
    unfold match_call. cbn [app].
    change SUBMIT_OPEN
      with (ch "a" :: lit "wait observationService.submit({") at 1.
    by rewrite (startswith_head_ne (ch "a") c) by congruence.
Qed.

(** A statement call: the second substitution writes the parameter after
    the call's own closing parenthesis. *)
Lemma fix_tests_statement_form (pre body post : str) :
  contains SUBMIT_OPEN pre = false →
  body ≠ [] → Forall (λ c, c ≠ ch "}") body →
  transform (pre ++ SUBMIT_OPEN ++ body ++ lit "});" ++ post)
  = pre ++ SUBMIT_OPEN ++ body ++ lit "}), 'test-user');" ++ transform post.
Proof.
  intros Hpre Hne Hbody. unfold transform.
  assert (sub_from (ch ",") (lit ", 'test-user'),") 0
            (pre ++ SUBMIT_OPEN ++ body ++ lit "});" ++ post)
          = pre ++ SUBMIT_OPEN ++ body ++ lit "})" ++ [ch ";"]
              ++ sub_from (ch ",") (lit ", 'test-user'),") 0 post) as ->.
  { rewrite (sub_from_copy _ _ pre)
      by (intros j Hj; by apply no_match_before).
    f_equal.
    replace (SUBMIT_OPEN ++ body ++ lit "});" ++ post)
      with ((SUBMIT_OPEN ++ body ++ ch "}" :: lit ");") ++ post)
      by (by rewrite <- !(assoc_L (++))).
    rewrite (sub_from_copy _ _ (SUBMIT_OPEN ++ body ++ ch "}" :: lit ");")).
    - by rewrite <- !(assoc_L (++)).
    - intros j Hj. apply no_match_in_call; [done | | done | done].
      apply (bool_decide_unpack _). by vm_compute. }
  rewrite (sub_from_copy _ _ pre) by (intros j Hj; by apply no_match_before).
  f_equal.
  by rewrite (sub_from_call (ch ";")) by done.
Qed.

(** A call that is an argument: the first substitution does the same. *)
Lemma fix_tests_argument_form (pre body post : str) :
  contains SUBMIT_OPEN pre = false →
  body ≠ [] → Forall (λ c, c ≠ ch "}") body →
  transform (pre ++ SUBMIT_OPEN ++ body ++ lit "})," ++ post)
  = pre ++ SUBMIT_OPEN ++ body ++ lit "}), 'test-user')," ++ transform post.
Proof.
  intros Hpre Hne Hbody. unfold transform.
  assert (sub_from (ch ",") (lit ", 'test-user'),") 0
            (pre ++ SUBMIT_OPEN ++ body ++ lit "})," ++ post)
          = pre ++ (SUBMIT_OPEN ++ body ++ ch "}" :: lit "), 'test-user'),")
              ++ sub_from (ch ",") (lit ", 'test-user'),") 0 post) as ->.
  { rewrite (sub_from_copy _ _ pre)
      by (intros j Hj; by apply no_match_before).
    f_equal.
    change (body ++ lit "})," ++ post)
      with (body ++ lit "})" ++ [ch ","] ++ post).
    rewrite (sub_from_call (ch ",")) by done.
    by rewrite <- !(assoc_L (++)). }
  rewrite <- !(assoc_L (++)).
  rewrite (sub_from_copy _ _ pre) by (intros j Hj; by apply no_match_before).
  f_equal.
  rewrite !(assoc_L (++) SUBMIT_OPEN).
  rewrite (assoc_L (++) (SUBMIT_OPEN ++ body)).
  rewrite <- (assoc_L (++) SUBMIT_OPEN).
  rewrite (sub_from_copy _ _
             (SUBMIT_OPEN ++ body ++ ch "}" :: lit "), 'test-user'),")).
  - by rewrite <- !(assoc_L (++)).
  - intros j Hj. apply no_match_in_call; [done | | done | done].
    apply (bool_decide_unpack _). by vm_compute.
Qed.

(** X7.  fix-tests.py, lines 17 to 30: a call whose object literal has no
    inner closing brace gets the parameter after its own closing
    parenthesis, [submit({...}), 'test-user')], as a statement and as an
    argument alike; the text before it, when no call opens in it, is kept
    and the text after it is transformed on its own. *)
Theorem fix_tests_parameter_follows_the_call (pre body post : str) :
  contains SUBMIT_OPEN pre = false →
  body ≠ [] → Forall (λ c, c ≠ ch "}") body →
  transform (pre ++ SUBMIT_OPEN ++ body ++ lit "});" ++ post)
  = pre ++ SUBMIT_OPEN ++ body ++ lit "}), 'test-user');" ++ transform post
  ∧ transform (pre ++ SUBMIT_OPEN ++ body ++ lit "})," ++ post)
    = pre ++ SUBMIT_OPEN ++ body ++ lit "}), 'test-user'),"
        ++ transform post.
Proof.
  intros Hpre Hne Hbody. split.
  - by apply fix_tests_statement_form.
  - by apply fix_tests_argument_form.
Qed.

Lemma fix_tests_parameter_follows_the_call_witness :
  transform (lit "const id = await observationService.submit({ a: 1 });")
  = lit "const id = await observationService.submit({ a: 1 }), 'test-user');"
  ∧ transform (lit "f(await observationService.submit({ a: 1 }), 2);")
    = lit "f(await observationService.submit({ a: 1 }), 'test-user'), 2);".
Proof.
  split.
  - refine (proj1 (fix_tests_parameter_follows_the_call
                     (lit "const id = ") (lit " a: 1 ") [] _ _ _));
      [by vm_compute | done | apply (bool_decide_unpack _); by vm_compute].
  - refine (proj2 (fix_tests_parameter_follows_the_call
                     (lit "f(") (lit " a: 1 ") (lit " 2);") _ _ _));
      [by vm_compute | done | apply (bool_decide_unpack _); by vm_compute].
Defined.

(** X8.  fix-tests.py, lines 17 to 30: the script is not idempotent on
    any file whose first call is a statement with an object literal
    without inner closing brace; a second run changes the output of the
    first again. *)
Theorem fix_tests_changes_its_output_again (pre body post : str) :
  contains SUBMIT_OPEN pre = false →
  body ≠ [] → Forall (λ c, c ≠ ch "}") body →
  let content := pre ++ SUBMIT_OPEN ++ body ++ lit "});" ++ post in
  transform (transform content) ≠ transform content.
Proof.
  intros Hpre Hne Hbody content. unfold content.
  rewrite fix_tests_statement_form by done.
  change (lit "}), 'test-user');" ++ transform post)
    with (lit "})," ++ (lit " 'test-user');" ++ transform post)).
  rewrite fix_tests_argument_form by done.
  intros Heq. do 3 apply app_inv_head in Heq. by simplify_eq/=.
Qed.

Lemma fix_tests_changes_its_output_again_witness :
  let content := lit "await observationService.submit({ a: 1 });" in
  transform (transform content) ≠ transform content.
Proof.
  refine (fix_tests_changes_its_output_again [] (lit " a: 1 ") [] _ _ _);
    [by vm_compute | done | apply (bool_decide_unpack _); by vm_compute].
Defined.

End FixTestsFacts.

(** ** The directory loop: what a run touches and what it leaves *)

Section DriverFrameFacts.

Import Driver DriverRef.

Variable verbose : bool.
Variable final : str.
Variable f : str → outcome str.

(** Two names of the directory have two paths. *)
Lemma path_join_test_dir_inj (n1 n2 : str) :
  path_join test_dir n1 = path_join test_dir n2 → n1 = n2.
Proof.
  unfold path_join.
  change (bool_decide (test_dir = []) || endswith (lit "/") test_dir)
    with false. cbn match.
  destruct (startswith (lit "/") n1) eqn:E1,
           (startswith (lit "/") n2) eqn:E2; intros Heq.
  - done.
  - subst n1. by vm_compute in E1.
  - subst n2. by vm_compute in E2.
  - by do 2 apply app_inv_head in Heq.
Qed.

(** The paths an event reads or writes. *)
Let touched (e : event) : list str :=
  match e with
  | EvRead path | EvWrite path _ => [path]
  | EvPrint _ => []
  end.

Let targets_of (names : list str) : list str :=
  path_join test_dir <$> filter (λ n, endswith SUFFIX n = true) names.

Lemma process_file_inv filename st st' :
  process_file verbose f filename st = Returned st' →
  ∃ content content',
    contents st !! path_join test_dir filename = Some content
    ∧ f content = Returned content'
    ∧ contents st'
      = <[path_join test_dir filename := content']> (contents st)
    ∧ ∀ e, e ∈ trace st' →
           e ∈ trace st ∨ touched e ⊆ [path_join test_dir filename].
Proof.
  unfold process_file.
  destruct (contents st !! path_join test_dir filename) as [content|];
    [|done].
  destruct (f content) as [content'| |] eqn:Hf; [|done|done].
  rewrite bind_Returned. intros <-%Returned_eq.
  exists content, content'.
  split_and!; [done | done | done |]. cbn [trace]. intros e He.
  rewrite !elem_of_app in He.
  destruct He as [He|[He|[He|[He|He]]]]; [by left | right ..].
  - destruct verbose; [|by apply elem_of_nil in He].
    apply list_elem_of_singleton in He as ->. set_solver.
  - apply list_elem_of_singleton in He as ->. set_solver.
  - apply list_elem_of_singleton in He as ->. set_solver.
  - destruct verbose; [|by apply elem_of_nil in He].
    apply list_elem_of_singleton in He as ->. set_solver.
Qed.

Lemma for_each_file_frame names st st' :
  for_each_file verbose f names st = Returned st' →
  (∀ path, path ∉ targets_of names →
           contents st' !! path = contents st !! path)
  ∧ (∀ e, e ∈ trace st' → e ∈ trace st ∨ touched e ⊆ targets_of names).
Proof.
  revert st. induction names as [|name names IH]; intros st Hrun.
  - apply Returned_eq in Hrun as <-. split; [done | by left].
  - cbn [for_each_file] in Hrun. unfold targets_of.
    destruct (endswith SUFFIX name) eqn:Hsuffix.
    + destruct (process_file verbose f name st) as [st1| |] eqn:Hfile;
        [|done|done].
      rewrite bind_Returned in Hrun.
      apply process_file_inv in Hfile
        as (content & content' & _ & _ & Hfiles & Htrace).
      destruct (IH _ Hrun) as [Hkeep Hev].
      rewrite filter_cons_True by done. rewrite fmap_cons. split.
      * intros path [Hne Hnot]%not_elem_of_cons.
        rewrite Hkeep by done. rewrite Hfiles.
        by rewrite lookup_insert_ne.
      * intros e He. destruct (Hev e He) as [He1|He1].
        -- destruct (Htrace e He1) as [He0|He0]; [by left|].
           right. intros x Hx. apply elem_of_cons. left.
           by apply list_elem_of_singleton, He0.
        -- right. intros x Hx. by apply list_elem_of_further, He1.
    + rewrite bind_Returned in Hrun.
      rewrite filter_cons_False by (by rewrite Hsuffix).
      by apply IH.
Qed.

Lemma for_each_file_content names st st' :
  NoDup names →
  for_each_file verbose f names st = Returned st' →
  ∀ name content,
    name ∈ names → endswith SUFFIX name = true →
    contents st !! path_join test_dir name = Some content →
    ∃ content', f content = Returned content'
                ∧ contents st' !! path_join test_dir name = Some content'.
Proof.
  intros Hnodup. revert st.
  induction Hnodup as [|n names Hn Hnodup IH]; intros st Hrun name content
    Hname Hsuffix Hcontent.
  { by apply elem_of_nil in Hname. }
  cbn [for_each_file] in Hrun.
  destruct (endswith SUFFIX n) eqn:Hsn.
  - destruct (process_file verbose f n st) as [st1| |] eqn:Hfile;
      [|done|done].
    rewrite bind_Returned in Hrun.
    apply process_file_inv in Hfile
      as (c & c' & Hc & Hfc & Hfiles & _).
    apply elem_of_cons in Hname as [->|Hname].
    + exists c'. rewrite Hc in Hcontent. injection Hcontent as ->.
      split; [done|].
      destruct (for_each_file_frame _ _ _ Hrun) as [Hkeep _].
      rewrite Hkeep.
      * rewrite Hfiles. apply lookup_insert_eq.
      * unfold targets_of. intros (m & Hm & Hin)%list_elem_of_fmap.
        apply path_join_test_dir_inj in Hm as <-.
        apply list_elem_of_filter in Hin as [_ Hin]. done.
    + apply (IH st1 Hrun name content Hname Hsuffix).
      rewrite Hfiles, lookup_insert_ne; [done|].
      intros ->%path_join_test_dir_inj. done.
  - rewrite bind_Returned in Hrun.
    apply elem_of_cons in Hname as [->|Hname]; [congruence|].
    by apply (IH st Hrun name content).
Qed.

Lemma for_each_file_missing names st name
    (Hf : ∀ content, ∃ content', f content = Returned content') :
  name ∈ names → endswith SUFFIX name = true →
  contents st !! path_join test_dir name = None →
  for_each_file verbose f names st = Raised.
Proof.
  revert st. induction names as [|n names IH]; intros st Hname Hsuffix Hnone.
  { by apply elem_of_nil in Hname. }
  cbn [for_each_file]. destruct (endswith SUFFIX n) eqn:Hsn.
  - destruct (contents st !! path_join test_dir n) as [c|] eqn:Hc.
    + destruct (Hf c) as [c' Hc'].
      destruct (process_file_written verbose f n st c c')
        as (st1 & -> & _ & Hfiles & _); [done | done |].
      rewrite bind_Returned.
      apply elem_of_cons in Hname as [->|Hname]; [congruence|].
      apply IH; [done | done |].
      rewrite Hfiles, lookup_insert_ne; [done|]. intros Heq.
      rewrite Heq in Hc. congruence.
    + unfold process_file. by rewrite Hc.
  - rewrite bind_Returned.
    apply elem_of_cons in Hname as [->|Hname]; [congruence|].
    by apply IH.
Qed.

(** X9.  Lines 7 to 17 and the write of every script: a run reads and
    writes the files of the directory that have the suffix and no other;
    every other path holds after the run what it held before. *)
Theorem run_touches_test_files_only (d : disk) (st : state) :
  run verbose final f d = Returned st →
  (∀ path, path ∉ targets d → contents st !! path = files d !! path)
  ∧ (∀ path, EvRead path ∈ trace st → path ∈ targets d)
  ∧ (∀ path content, EvWrite path content ∈ trace st → path ∈ targets d).
Proof.
  unfold run. intros Hrun.
  destruct (for_each_file verbose f (listing d) (State (files d) []))
    as [st1| |] eqn:Hloop; [|done|done].
  rewrite bind_Returned in Hrun. apply Returned_eq in Hrun as <-.
  destruct (for_each_file_frame _ _ _ Hloop) as [Hkeep Hev].
  cbn [contents trace] in *. split_and!.
  - intros path Hpath. by apply Hkeep.
  - intros path [He|He]%elem_of_app.
    + destruct (Hev _ He) as [Hnil|Hin]; [by apply elem_of_nil in Hnil|].
      apply Hin. by left.
    + by apply list_elem_of_singleton in He.
  - intros path content [He|He]%elem_of_app.
    + destruct (Hev _ He) as [Hnil|Hin]; [by apply elem_of_nil in Hnil|].
      apply Hin. by left.
    + by apply list_elem_of_singleton in He.
Qed.

(** X10.  Lines 7 to 17 and the write of every script: when the listing
    names no file twice, every file with the suffix holds after the run
    the transformation of what it held before. *)
Theorem run_leaves_the_transformed_text (d : disk) (st : state) :
  NoDup (listing d) →
  run verbose final f d = Returned st →
  ∀ name content,
    name ∈ listing d → endswith SUFFIX name = true →
    files d !! path_join test_dir name = Some content →
    ∃ content', f content = Returned content'
                ∧ contents st !! path_join test_dir name = Some content'.
Proof.
  unfold run. intros Hnodup Hrun name content Hname Hsuffix Hcontent.
  destruct (for_each_file verbose f (listing d) (State (files d) []))
    as [st1| |] eqn:Hloop; [|done|done].
  rewrite bind_Returned in Hrun. apply Returned_eq in Hrun as <-.
  by apply (for_each_file_content _ _ _ Hnodup Hloop name content).
Qed.

(** X11.  Lines 7 to 12 of every script: when the listing names a file
    with the suffix that cannot be opened, the run ends with the
    exception and prints no final message. *)
Theorem run_stops_at_a_missing_file (d : disk) (name : str) :
  (∀ content, ∃ content', f content = Returned content') →
  name ∈ listing d → endswith SUFFIX name = true →
  files d !! path_join test_dir name = None →
  run verbose final f d = Raised.
Proof.
  intros Hf Hname Hsuffix Hnone. unfold run.
  by rewrite (for_each_file_missing (listing d) _ name Hf).
Qed.

End DriverFrameFacts.

Section DriverFrameSamples.

Import Driver DriverRef.

Lemma run_touches_test_files_only_witness :
  ∃ st, fix_vehicle_fields Samples.plain_disk = Returned st
        ∧ (∀ path, path ∉ targets Samples.plain_disk →
                   contents st !! path = files Samples.plain_disk !! path)
        ∧ (∀ path, EvRead path ∈ trace st → path ∈ targets Samples.plain_disk)
        ∧ (∀ path content, EvWrite path content ∈ trace st →
                           path ∈ targets Samples.plain_disk).
Proof.
  eexists. split; [reflexivity|].
  apply (run_touches_test_files_only false (lit "Fixed all test files")
           (λ content, mret (FixVehicleFields.transform content))
           Samples.plain_disk).
  reflexivity.
Defined.

Lemma run_leaves_the_transformed_text_witness :
  ∃ st, fix_vehicle_fields Samples.plain_disk = Returned st
        ∧ ∃ content',
            Returned (FixVehicleFields.transform (lit "const x = 1;"))
            = Returned content'
            ∧ contents st !! Samples.plain_path = Some content'.
Proof.
  eexists. split; [reflexivity|].
  apply (run_leaves_the_transformed_text false (lit "Fixed all test files")
           (λ content, mret (FixVehicleFields.transform content))
           Samples.plain_disk _
           ltac:(apply (bool_decide_unpack _); by vm_compute)
           eq_refl (lit "plain.integration.test.ts") (lit "const x = 1;")).
  - apply list_elem_of_here.
  - by vm_compute.
  - reflexivity.
Defined.

Lemma run_stops_at_a_missing_file_witness :
  fix_vehicle_fields (Disk [lit "gone.integration.test.ts"] ∅) = Raised.
Proof.
  apply (run_stops_at_a_missing_file false (lit "Fixed all test files")
           (λ content, mret (FixVehicleFields.transform content))
           (Disk [lit "gone.integration.test.ts"] ∅)
           (lit "gone.integration.test.ts")).
  - intros content. by eexists.
  - apply list_elem_of_here.
  - by vm_compute.
  - reflexivity.
Defined.

End DriverFrameSamples.

(** ** The unused function of add-submitted-by.py *)

Section AddTestUserFacts.

Import AddTestUser.

Lemma endswith_app (p s : str) : endswith p (s ++ p) = true.
Proof. unfold endswith. rewrite reverse_app. apply startswith_app. Qed.

(** X12.  add-submitted-by.py, lines 19 to 25: the text [add_test_user]
    returns ends in the parameter and the closing, with single or with
    double quotes, and the function returns such a text as it is: applied
    twice it adds the parameter once. *)
Theorem add_test_user_adds_the_parameter_once (full_match : str) :
  let added := add_test_user full_match in
  (endswith SINGLE added = true ∨ endswith DOUBLE added = true)
  ∧ add_test_user added = added.
Proof.
  cbn zeta.
  destruct (endswith SINGLE full_match || endswith DOUBLE full_match)
    eqn:Hguard.
  - assert (add_test_user full_match = full_match) as ->
      by (unfold add_test_user; by rewrite Hguard).
    split; [by apply orb_true_iff in Hguard|].
    unfold add_test_user. by rewrite Hguard.
  - assert (add_test_user full_match
            = take (length full_match - 2) full_match ++ SINGLE) as ->
      by (unfold add_test_user; by rewrite Hguard).
    split; [left; apply endswith_app|].
    unfold add_test_user. by rewrite endswith_app.
Qed.

End AddTestUserFacts.

(** ** Files without anything to rewrite *)

Section OtherFilesFacts.

Import SpanRewriter FileLines ReRef.

Lemma join_split (s : str) : join [NL] (split NL s) = s.
Proof.
  induction s as [|c s IH]; [done|]. cbn [split].
  pose proof (split_nonempty s) as Hne.
  destruct (c =? NL)%N eqn:Hc.
  - apply N.eqb_eq in Hc as ->.
    destruct (split NL s) as [|w ws]; [done|].
    cbn [join app]. by rewrite <- IH.
  - destruct (split NL s) as [|w ws]; [done|].
    destruct ws as [|w' ws]; cbn [join] in *; by rewrite <- IH.
Qed.

Lemma contains_join (p l : str) (ls : list str) :
  l ∈ ls → contains p l = true → contains p (join [NL] ls) = true.
Proof.
  intros Hl Hp. induction ls as [|l0 ls IH].
  { by apply elem_of_nil in Hl. }
  apply elem_of_cons in Hl as [->|Hl].
  - destruct ls; cbn [join]; [done | by apply contains_app_l].
  - destruct ls as [|l1 ls]; [by apply elem_of_nil in Hl|].
    cbn [join]. apply contains_app_r, contains_app_r. by apply IH.
Qed.

Lemma contains_concat (p l : str) (ls : list str) :
  l ∈ ls → contains p l = true → contains p (concat ls) = true.
Proof.
  intros Hl Hp. induction ls as [|l0 ls IH].
  { by apply elem_of_nil in Hl. }
  cbn [concat]. apply elem_of_cons in Hl as [->|Hl].
  - by apply contains_app_l.
  - apply contains_app_r. by apply IH.
Qed.

(** The lines of a text without [p] are without [p]. *)
Lemma split_free (p s : str) :
  contains p s = false → Forall (λ l, contains p l = false) (split NL s).
Proof.
  intros Hfree. apply Forall_forall. intros l Hl.
  destruct (contains p l) eqn:E; [|done].
  apply (contains_join p l _ Hl) in E. rewrite join_split in E. congruence.
Qed.

Lemma readlines_free (p s : str) :
  contains p s = false → Forall (λ l, contains p l = false) (readlines s).
Proof.
  intros Hfree. apply Forall_forall. intros l Hl.
  destruct (contains p l) eqn:E; [|done].
  apply (contains_concat p l _ Hl) in E. rewrite concat_readlines in E.
  congruence.
Qed.

Lemma asb_walk_absent (lines : list str) :
  Forall (λ l, contains AddSubmittedBy.SUBMIT_OPEN l = false) lines →
  AddSubmittedByRef.walk AddSubmittedByRef.Scan lines = lines.
Proof.
  induction 1 as [|l lines Hl Hlines IH]; [done|].
  rewrite asb_walk_Scan_cons, Hl. by rewrite IH.
Qed.

(** add-submitted-by.py: a file in which the text
    [await observationService.submit({] does not occur is written back
    as it is. *)
Lemma add_submitted_by_keeps_files (content : str) :
  contains AddSubmittedBy.SUBMIT_OPEN content = false →
  AddSubmittedBy.transform content = Returned content.
Proof.
  intros Hfree. rewrite asb_transform_walk.
  rewrite asb_walk_absent by (by apply split_free).
  by rewrite join_split.
Qed.

Lemma vd_walk_absent (lines : list str) :
  Forall (λ l, contains AddViolationDerivation.SUBMIT_CALL l = false) lines →
  AddViolationDerivationRef.walk Scan lines = lines.
Proof.
  induction 1 as [|l lines Hl Hlines IH]; [done|].
  rewrite vd_walk_Scan_cons, Hl. by rewrite IH.
Qed.

(** add-violation-derivation.py: a file in which the text
    [await observationService.submit(] does not occur is written back as
    it is. *)
Lemma add_violation_derivation_keeps_files (content : str) :
  contains AddViolationDerivation.SUBMIT_CALL content = false →
  AddViolationDerivation.transform content = Returned content.
Proof.
  intros Hfree. rewrite vd_transform_walk.
  rewrite vd_walk_absent by (by apply readlines_free).
  unfold writelines. by rewrite concat_readlines.
Qed.

End OtherFilesFacts.

(** ** add-derivations-v2.py: files without a start line, spans without
    an end *)

Section AddDerivationsV2EdgeFacts.

Import AddDerivationsV2 AddDerivationsV2Ref SpanRewriter ReRef.

Variable ualnum : N → bool.

Local Abbreviation SUBMIT_TEXT := (lit "await observationService.submit(").

Lemma matches_Lit (l w : str) : matches (Lit l) w → w = l.
Proof.
  revert w. induction l as [|c l IH]; intros w H; cbn [Lit] in H.
  - by inversion H.
  - inversion H as [| |r1 r2 w1 w2 H1 H2| | | |]; subst.
    inversion H1 as [|p c' Hc| | | | |]; subst.
    apply N.eqb_eq in Hc as <-. cbn [app]. f_equal. by apply IH.
Qed.

Lemma matches_Seqs_end (rs : list regex) (l w : str) :
  matches (Seqs (rs ++ [Lit l])) w → ∃ u, w = u ++ l.
Proof.
  revert w. induction rs as [|r rs IH]; intros w H; cbn [app Seqs] in H.
  - inversion H as [| |r1 r2 w1 w2 H1 H2| | | |]; subst.
    apply matches_Lit in H1 as ->. apply matches_Eps in H2 as ->.
    exists []. by rewrite app_nil_r.
  - inversion H as [| |r1 r2 w1 w2 H1 H2| | | |]; subst.
    destruct (IH _ H2) as [u ->]. exists (w1 ++ u).
    by rewrite <- (assoc_L (++)).
Qed.

(** A start line has the text of the call. *)
Lemma v2_start_has_call (x v : str) :
  start ualnum x = Some v → contains SUBMIT_TEXT x = true.
Proof.
  unfold start. destruct (re_match (SUBMIT_ASSIGN ualnum) x) eqn:E; [|done].
  intros _. apply re_match_correct in E as (w & t & -> & Hw).
  apply (matches_Seqs_end
           [ Star (Cls isspace);
             Alt (Lit (lit "const")) (Alt (Lit (lit "let")) (Lit (lit "var")));
             Plus (Cls isspace);
             Seqs [Star (Cls (isword ualnum)); OneOf (lit "Oo");
                   Lit (lit "bs"); Star (Cls (isword ualnum));
                   OneOf (lit "Ii"); Lit (lit "d");
                   Star (Cls (isword ualnum))];
             Star (Cls isspace); Lit (lit "="); Star (Cls isspace) ])
    in Hw as [u ->].
  apply contains_occurs. exists u, t. by rewrite <- (assoc_L (++)).
Qed.

Lemma v2_walk_unclosed (v : str) (rest : list str) :
  Forall (λ l, contains TERMINATOR l = false) rest →
  walk ualnum (InSpan v) rest = rest ++ derivation v.
Proof.
  induction 1 as [|l rest Hl Hrest IH]; [done|].
  rewrite v2_walk_InSpan_cons. unfold v2_after. rewrite Hl.
  by rewrite IH.
Qed.

(** add-derivations-v2.py: a file in which the text
    [await observationService.submit(] does not occur is written back as
    it is. *)
Lemma add_derivations_v2_keeps_files (content : str) :
  contains SUBMIT_TEXT content = false →
  transform ualnum content = Returned content.
Proof.
  intros Hfree. rewrite v2_transform_walk.
  assert (Forall (λ l, start ualnum l = None) (readlines content)) as Hno.
  { eapply Forall_impl; [apply (readlines_free _ _ Hfree)|].
    intros l Hl. cbv beta in Hl.
    destruct (start ualnum l) as [v|] eqn:E; [|done].
    apply v2_start_has_call in E. congruence. }
  rewrite <- (app_nil_r (readlines content)) at 1.
  rewrite (v2_walk_copy ualnum) by done.
  unfold writelines. change (walk ualnum Scan []) with (@nil str).
  by rewrite app_nil_r, concat_readlines.
Qed.

(** X14.  add-derivations-v2.py, lines 31 to 52: when the first start
    line of a file opens a span that no line closes, the block for its
    variable is appended at the end of the file, whatever the file
    holds. *)
Theorem v2_unclosed_span_gets_its_block_at_the_end
    (content : str) (pre : list str) (x : str) (rest : list str) (v : str) :
  readlines content = pre ++ x :: rest →
  Forall (λ l, start ualnum l = None) pre →
  start ualnum x = Some v →
  Forall (λ l, contains TERMINATOR l = false) (x :: rest) →
  transform ualnum content
  = Returned (content ++ writelines (derivation v)).
Proof.
  intros Hread Hpre Hx Hopen. apply Forall_cons in Hopen as [Hx' Hrest].
  rewrite v2_transform_walk, Hread.
  rewrite (v2_walk_copy ualnum) by done.
  rewrite v2_walk_Scan_cons, Hx. unfold v2_after. rewrite Hx'.
  rewrite v2_walk_unclosed by done.
  unfold writelines.
  rewrite <- (concat_readlines content), Hread.
  rewrite !concat_app. cbn [concat].
  by rewrite !concat_app, <- !(assoc_L (++)).
Qed.

End AddDerivationsV2EdgeFacts.

Section AddDerivationsV2EdgeSamples.

Import AddDerivationsV2 AddDerivationsV2Ref.

Lemma v2_unclosed_span_gets_its_block_at_the_end_witness :
  let content :=
    lit "const obsId = await observationService.submit({" ++ [NL]
    ++ lit "  a: 1" ++ [NL] in
  transform (λ _, false) content
  = Returned (content ++ writelines (derivation (lit "obsId"))).
Proof.
  apply (v2_unclosed_span_gets_its_block_at_the_end (λ _, false) _ []
           (lit "const obsId = await observationService.submit({" ++ [NL])
           [lit "  a: 1" ++ [NL]] (lit "obsId")).
  - by vm_compute.
  - constructor.
  - by vm_compute.
  - apply (bool_decide_unpack _). by vm_compute.
Defined.

End AddDerivationsV2EdgeSamples.

(** ** add-violation-derivation.py: calls without an end *)

Section AddViolationDerivationEdgeFacts.

Import AddViolationDerivation AddViolationDerivationRef SpanRewriter.

Lemma vd_walk_copy (pre rest : list str) :
  Forall (λ l, contains SUBMIT_CALL l = false) pre →
  walk Scan (pre ++ rest) = pre ++ walk Scan rest.
Proof.
  induction 1 as [|l pre Hl Hpre IH]; [done|].
  cbn [app]. rewrite vd_walk_Scan_cons, Hl. by rewrite IH.
Qed.

Lemma vd_walk_unclosed (span rest : list str) :
  Forall (λ l, contains TERMINATOR l = false) rest →
  walk (InSpan span) rest = rest.
Proof.
  intros Hrest. revert span.
  induction Hrest as [|l rest Hl Hrest IH]; intros span; [done|].
  rewrite vd_walk_InSpan_cons, Hl. by rewrite IH.
Qed.

(** X15.  add-violation-derivation.py, lines 22 to 46: a call is closed
    by a line after its first line only.  When no line after the first
    call of a file has [);], the file is written back as it is, also when
    the first line of the call has [);] itself. *)
Theorem vd_call_without_later_end_gets_no_block
    (content : str) (pre : list str) (x : str) (rest : list str) :
  readlines content = pre ++ x :: rest →
  Forall (λ l, contains SUBMIT_CALL l = false) pre →
  contains SUBMIT_CALL x = true →
  Forall (λ l, contains TERMINATOR l = false) rest →
  transform content = Returned content.
Proof.
  intros Hread Hpre Hx Hrest.
  rewrite vd_transform_walk, Hread.
  rewrite vd_walk_copy by done.
  rewrite vd_walk_Scan_cons, Hx, vd_walk_unclosed by done.
  unfold writelines. by rewrite <- Hread, concat_readlines.
Qed.

Lemma vd_call_without_later_end_gets_no_block_witness :
  let content :=
    lit "const observationId = await observationService.submit(data);"
    ++ [NL] ++ lit "expect(observationId).toBeDefined()" ++ [NL] in
  transform content = Returned content.
Proof.
  apply (vd_call_without_later_end_gets_no_block _ []
           (lit "const observationId = await observationService.submit(data);"
            ++ [NL])
           [lit "expect(observationId).toBeDefined()" ++ [NL]]).
  - by vm_compute.
  - constructor.
  - by vm_compute.
  - apply (bool_decide_unpack _). by vm_compute.
Defined.

End AddViolationDerivationEdgeFacts.

(** ** fix-submit-response.py: the loops are the walk *)

Section FixSubmitResponseFacts.

Import FixSubmitResponse FixSubmitResponseRef.

Variable ualnum : N → bool.

Local Abbreviation walk := (FixSubmitResponseRef.walk ualnum).
Local Abbreviation groups := (FixSubmitResponse.groups ualnum).

Lemma fsr_walk_Scan_cons x xs :
  walk Scan (x :: xs) =
  match groups x with
  | Some (indent, var_type, var_name) =>
      new_line ualnum var_type var_name x
        :: span_after ualnum x x indent var_name xs
  | None => x :: walk Scan xs
  end.
Proof. reflexivity. Qed.

Lemma fsr_walk_InSpan_cons line indent var_name x xs :
  walk (InSpan line indent var_name) (x :: xs)
  = x :: span_after ualnum x line indent var_name xs.
Proof. reflexivity. Qed.

Lemma fsr_walk_Block_cons x xs :
  walk Block (x :: xs) =
  if block_line x then
    x :: (if contains MARKER x then walk Scan xs else walk Block xs)
  else walk Scan (x :: xs).
Proof. reflexivity. Qed.

Lemma fsr_scan_body_step lines i res l :
  lines !! i = Some l →
  scan_body lines (State i res) = Returned (State (S i) (res ++ [l])).
Proof. intros Hl. unfold scan_body. cbn. by rewrite (index_Some _ _ _ Hl). Qed.

(** The scan of lines 47 to 49 stops at the end of the span and has
    appended the lines of the span. *)
Lemma fsr_scan_run lines line indent var_name fuel : ∀ i res p,
  lines !! (i - 1) = Some p → 1 ≤ i → i ≤ length lines →
  length lines - i < fuel →
  ∃ j, i ≤ j ∧ j ≤ length lines
    ∧ while fuel (scan_cond lines) (scan_body lines) (State i res)
      = Returned (State j (res ++ take (j - i) (drop i lines)))
    ∧ take (j - i) (drop i lines)
        ++ after_span ualnum line indent var_name (drop j lines)
      = span_after ualnum p line indent var_name (drop i lines).
Proof.
  induction fuel as [|fuel IH]; intros i res p Hp Hi Hlen Hfuel; [lia|].
  cbn [while]. unfold scan_cond at 1. cbn [FixSubmitResponse.i]. rewrite Hp.
  destruct (decide (i < length lines)) as [Hlt|Hge].
  - rewrite bool_decide_true by done. cbn [andb].
    destruct (contains TERMINATOR p) eqn:Hterm; cbn [negb].
    + exists i. replace (i - i) with 0 by lia. rewrite take_0, app_nil_r.
      split_and!; [lia | lia | done |].
      unfold span_after. by rewrite Hterm.
    + destruct (index_lt lines i Hlt) as (l & Hl & Hidx).
      rewrite (fsr_scan_body_step _ _ _ _ Hl), bind_Returned.
      destruct (IH (S i) (res ++ [l]) l)
        as (j & Hij & Hj & Hrun & Hwalk);
        [by replace (S i - 1) with i by lia | lia | lia | lia |].
      exists j. rewrite Hrun.
      rewrite (drop_lookup_cons _ _ _ Hl).
      replace (j - i) with (S (j - S i)) by lia. cbn [take].
      split_and!; [lia | lia | by rewrite <- app_assoc |].
      unfold span_after at 1. rewrite Hterm, fsr_walk_InSpan_cons.
      cbn [app]. by rewrite Hwalk.
  - rewrite bool_decide_false by done. cbn [andb].
    exists i. replace (i - i) with 0 by lia. rewrite take_0, app_nil_r.
    split_and!; [lia | lia | done |].
    rewrite drop_ge by lia. unfold span_after, after_span.
    by destruct (contains TERMINATOR p).
Qed.

Lemma fsr_block_body_step lines i res l :
  lines !! i = Some l →
  block_body lines (State i res) =
  Returned (if contains MARKER l
            then Break (State (S i) (res ++ [l]))
            else Next (State (S i) (res ++ [l]))).
Proof.
  intros Hl. unfold block_body. cbn [FixSubmitResponse.i result_lines].
  rewrite (index_Some _ _ _ Hl), bind_Returned.
  replace (S i - 1) with i by lia.
  rewrite (index_Some _ _ _ Hl), bind_Returned.
  by destruct (contains MARKER l).
Qed.

(** The loop of lines 70 to 74 copies the lines of the block. *)
Lemma fsr_block_run lines fuel : ∀ i res,
  length lines - i < fuel →
  ∃ k, i ≤ k
    ∧ while_break fuel (block_cond lines) (block_body lines) (State i res)
      = Returned (State k (res ++ take (k - i) (drop i lines)))
    ∧ take (k - i) (drop i lines) ++ walk Scan (drop k lines)
      = walk Block (drop i lines).
Proof.
  induction fuel as [|fuel IH]; intros i res Hfuel; [lia|].
  cbn [while_break]. unfold block_cond at 1. cbn [FixSubmitResponse.i].
  destruct (decide (i < length lines)) as [Hlt|Hge].
  - rewrite bool_decide_true by done. cbn [andb].
    destruct (index_lt lines i Hlt) as (l & Hl & Hidx). rewrite Hl.
    pose proof (drop_lookup_cons _ _ _ Hl) as Hdrop.
    destruct (block_line l) eqn:Hblock.
    + rewrite (fsr_block_body_step _ _ _ _ Hl), bind_Returned.
      destruct (contains MARKER l) eqn:Hmarker.
      * exists (S i). replace (S i - i) with 1 by lia.
        rewrite Hdrop, fsr_walk_Block_cons, Hblock, Hmarker.
        split_and!; [lia | done | done].
      * destruct (IH (S i) (res ++ [l])) as (k & Hik & Hrun & Hwalk); [lia|].
        exists k. rewrite Hrun.
        rewrite Hdrop, fsr_walk_Block_cons, Hblock, Hmarker.
        replace (k - i) with (S (k - S i)) by lia. cbn [take].
        split_and!; [lia | by rewrite <- app_assoc |].
        cbn [app]. by rewrite Hwalk.
    + exists i. replace (i - i) with 0 by lia. rewrite take_0, app_nil_r.
      split_and!; [lia | done |].
      by rewrite Hdrop, fsr_walk_Block_cons, Hblock.
  - rewrite bool_decide_false by done. cbn [andb].
    exists i. replace (i - i) with 0 by lia. rewrite take_0, app_nil_r.
    split_and!; [lia | done |]. by rewrite drop_ge by lia.
Qed.

Lemma fsr_main_body_step fuel0 lines i res x :
  lines !! i = Some x →
  main_body ualnum fuel0 lines (State i res) =
  match groups x with
  | Some (indent, var_type, var_name) =>
      st1 ← while fuel0 (scan_cond lines) (scan_body lines)
              (State (S i) (res ++ [new_line ualnum var_type var_name x]));
      let extracted := result_lines st1 ++ [extract_line indent var_name] in
      let last_lines :=
        mret (State (S (FixSubmitResponse.i st1)) (extracted ++ [x])) in
      if bool_decide (FixSubmitResponse.i st1 < length lines) then
        comment ← index lines (FixSubmitResponse.i st1);
        if contains DERIVE_COMMENT comment then
          let st2 := State (S (FixSubmitResponse.i st1))
                       (extracted ++ [comment]) in
          if bool_decide (FixSubmitResponse.i st2 < length lines) then
            derive_line ← index lines (FixSubmitResponse.i st2);
            while_break fuel0 (block_cond lines) (block_body lines)
              (State (S (FixSubmitResponse.i st2))
                 (result_lines st2 ++ [sub_get ualnum var_name 0 derive_line]))
          else mret st2
        else last_lines
      else last_lines
  | None => mret (State (S i) (res ++ [x]))
  end.
Proof.
  intros Hx. unfold main_body. cbn [FixSubmitResponse.i result_lines].
  by rewrite (index_Some _ _ _ Hx), bind_Returned.
Qed.

(** Lines 27 to 79 compute the walk. *)
Lemma fsr_main_run lines fuel0 (Hfuel0 : length lines < fuel0) :
  ∀ fuel i res, length lines - i < fuel →
  ∃ k, while fuel (main_cond lines) (main_body ualnum fuel0 lines)
         (State i res)
       = Returned (State k (res ++ walk Scan (drop i lines))).
Proof.
  induction fuel as [|fuel IH]; intros i res Hfuel; [lia|].
  cbn [while]. unfold main_cond at 1. cbn [FixSubmitResponse.i].
  destruct (decide (i < length lines)) as [Hlt|Hge].
  2:{ rewrite bool_decide_false by done. exists i.
      by rewrite drop_ge, app_nil_r by lia. }
  rewrite bool_decide_true by done.
  destruct (index_lt lines i Hlt) as (x & Hx & Hidx).
  rewrite (fsr_main_body_step _ _ _ _ _ Hx).
  rewrite (drop_lookup_cons _ _ _ Hx), fsr_walk_Scan_cons.
  destruct (groups x) as [[[indent var_type] var_name]|].
  2:{ rewrite bind_Returned.
      destruct (IH (S i) (res ++ [x])) as [k Hk]; [lia|].
      exists k. by rewrite Hk, <- app_assoc. }
  destruct (fsr_scan_run lines x indent var_name fuel0 (S i)
              (res ++ [new_line ualnum var_type var_name x]) x)
    as (j & Hij & Hj & Hrun & Hwalk);
    [by replace (S i - 1) with i by lia | lia | lia | lia |].
  rewrite Hrun, !bind_Returned. cbn [FixSubmitResponse.i result_lines].
  rewrite <- Hwalk. unfold after_span.
  destruct (decide (j < length lines)) as [Hjlt|Hjge].
  2:{ rewrite bool_decide_false by done. rewrite bind_Returned.
      destruct (IH (S j) ((((res ++ [new_line ualnum var_type var_name x])
                             ++ take (j - S i) (drop (S i) lines))
                            ++ [extract_line indent var_name]) ++ [x]))
        as [k Hk]; [lia|].
      exists k. rewrite Hk.
      rewrite (drop_ge lines j), (drop_ge lines (S j)) by lia.
      by rewrite <- !app_assoc. }
  rewrite bool_decide_true by done.
  destruct (index_lt lines j Hjlt) as (c & Hc & Hcidx).
  rewrite (index_Some _ _ _ Hc), bind_Returned.
  rewrite (drop_lookup_cons _ _ _ Hc).
  destruct (contains DERIVE_COMMENT c).
  2:{ rewrite bind_Returned.
      destruct (IH (S j) ((((res ++ [new_line ualnum var_type var_name x])
                             ++ take (j - S i) (drop (S i) lines))
                            ++ [extract_line indent var_name]) ++ [x]))
        as [k Hk]; [lia|].
      exists k. rewrite Hk. by rewrite <- !app_assoc. }
  cbn zeta. cbn [FixSubmitResponse.i result_lines].
  destruct (decide (S j < length lines)) as [Hdlt|Hdge].
  2:{ rewrite bool_decide_false by done. rewrite bind_Returned.
      destruct (IH (S j) ((((res ++ [new_line ualnum var_type var_name x])
                             ++ take (j - S i) (drop (S i) lines))
                            ++ [extract_line indent var_name]) ++ [c]))
        as [k Hk]; [lia|].
      exists k. rewrite Hk.
      rewrite (drop_ge lines (S j)) by lia.
      by rewrite <- !app_assoc. }
  rewrite bool_decide_true by done.
  destruct (index_lt lines (S j) Hdlt) as (d & Hd & Hdidx).
  rewrite (index_Some _ _ _ Hd), bind_Returned.
  rewrite (drop_lookup_cons _ _ _ Hd).
  destruct (fsr_block_run lines fuel0 (S (S j))
              (((((res ++ [new_line ualnum var_type var_name x])
                    ++ take (j - S i) (drop (S i) lines))
                   ++ [extract_line indent var_name]) ++ [c])
                 ++ [sub_get ualnum var_name 0 d]))
    as (k & Hk & Hblock & Hbwalk); [lia|].
  rewrite Hblock, bind_Returned. rewrite <- Hbwalk.
  destruct (IH k ((((((res ++ [new_line ualnum var_type var_name x])
                        ++ take (j - S i) (drop (S i) lines))
                       ++ [extract_line indent var_name]) ++ [c])
                     ++ [sub_get ualnum var_name 0 d])
                    ++ take (k - S (S j)) (drop (S (S j)) lines)))
    as [k' Hk']; [lia|].
  exists k'. rewrite Hk'. by rewrite <- !app_assoc.
Qed.

Lemma fsr_rewrite_lines_walk lines fuel :
  length lines < fuel →
  rewrite_lines ualnum fuel lines = Returned (walk Scan lines).
Proof.
  intros Hfuel. unfold rewrite_lines.
  destruct (fsr_main_run lines fuel Hfuel fuel 0 []) as [k Hk]; [lia|].
  by rewrite Hk.
Qed.

Lemma fsr_transform_walk content :
  transform ualnum content
  = Returned (join [NL] (walk Scan (split NL content))).
Proof.
  unfold transform, transform_with.
  by rewrite fsr_rewrite_lines_walk by lia.
Qed.

Lemma fsr_walk_copy (pre rest : list str) :
  Forall (λ l, groups l = None) pre →
  walk Scan (pre ++ rest) = pre ++ walk Scan rest.
Proof.
  induction 1 as [|l pre Hl Hpre IH]; [done|].
  cbn [app]. rewrite fsr_walk_Scan_cons, Hl. by rewrite IH.
Qed.

Lemma fsr_span_after_closed line indent var_name rest : ∀ more p,
  closes_last p more = true →
  span_after ualnum p line indent var_name (more ++ rest)
  = more ++ after_span ualnum line indent var_name rest.
Proof.
  induction more as [|l more IH]; intros p Hp; cbn [closes_last] in Hp.
  - unfold span_after. by rewrite Hp.
  - apply andb_true_iff in Hp as [Hopen Hp]. apply negb_true_iff in Hopen.
    unfold span_after at 1. rewrite Hopen. cbn [app].
    rewrite fsr_walk_InSpan_cons. by rewrite IH.
Qed.

(** A start line has the text of the call. *)
Lemma fsr_groups_has_call (x : str) :
  is_Some (groups x) → contains SUBMIT_CALL x = true.
Proof.
  unfold FixSubmitResponse.groups.
  destruct (match_decl ualnum (drop (length (take_while isspace x)) x))
    as [[[var_type var_name] n]|]; [|by intros [? ?]].
  destruct (startswith SUBMIT_CALL _) eqn:Hcall; [|by intros [? ?]].
  intros _. apply startswith_prefix in Hcall as [t Ht].
  assert (∀ k (s : str), contains SUBMIT_CALL (drop k s) = true →
                         contains SUBMIT_CALL s = true) as Hdrop.
  { intros k s H. rewrite <- (take_drop k s). by apply contains_app_r. }
  apply (Hdrop (length (take_while isspace x))), (Hdrop n).
  rewrite <- (take_drop_while isspace (drop n _)).
  apply contains_app_r. rewrite Ht.
  apply contains_occurs. by exists [], t.
Qed.

(** X16.  fix-submit-response.py, lines 22 to 82: the three loops of the
    script end on every file; the script returns the lines of the walk,
    joined by newlines. *)
Theorem fix_submit_response_returns (content : str) :
  ∃ out, transform ualnum content = Returned out.
Proof. eexists. apply fsr_transform_walk. Qed.

(** fix-submit-response.py: a file in which the text
    [await observationService.submit(] does not occur is written back as
    it is. *)
Lemma fix_submit_response_keeps_files (content : str) :
  contains SUBMIT_CALL content = false →
  transform ualnum content = Returned content.
Proof.
  intros Hfree. rewrite fsr_transform_walk.
  assert (Forall (λ l, groups l = None) (split NL content)) as Hno.
  { eapply Forall_impl; [apply (split_free _ _ Hfree)|].
    intros l Hl. cbv beta in Hl.
    destruct (groups l) as [g|] eqn:E; [|done].
    rewrite fsr_groups_has_call in Hl; [done | by rewrite E]. }
  rewrite <- (app_nil_r (split NL content)) at 1.
  rewrite fsr_walk_copy by done.
  change (walk Scan []) with (@nil str).
  by rewrite app_nil_r, join_split.
Qed.

(** X17.  fix-submit-response.py, lines 30 to 79: after the span of the
    first start line of a file, when the next line has not the comment of
    a derivation block, the script appends the line of line 51 and then
    the start line as it was, and passes the line after the span, which
    is not in the output; the lines after it are rewritten on their
    own. *)
Theorem fix_submit_response_drops_the_line_after_the_span
    (pre more : list str) (x next : str) (rest : list str)
    (indent var_type var_name : str) :
  Forall (λ l, groups l = None) pre →
  groups x = Some (indent, var_type, var_name) →
  closes_last x more = true →
  contains DERIVE_COMMENT next = false →
  let lines := pre ++ x :: more ++ next :: rest in
  ∃ out,
    rewrite_lines ualnum (S (length rest)) rest = Returned out
    ∧ rewrite_lines ualnum (S (length lines)) lines
      = Returned (pre ++ new_line ualnum var_type var_name x :: more
                    ++ [extract_line indent var_name; x] ++ out).
Proof.
  intros Hpre Hx Hclosed Hnext lines. exists (walk Scan rest).
  rewrite !fsr_rewrite_lines_walk by lia. split; [done|].
  unfold lines. rewrite fsr_walk_copy by done.
  rewrite fsr_walk_Scan_cons, Hx.
  rewrite fsr_span_after_closed by done.
  unfold after_span. by rewrite Hnext.
Qed.

(** X18.  fix-submit-response.py, lines 30 to 76: after the span of the
    first start line of a file, when the next line has the comment of a
    derivation block, the script appends the line of line 51, the
    comment, the line after it with its [getById] calls given the
    variable of the start line, and the lines of the block up to the
    first with [deriveFromObservation]; the lines after it are rewritten
    on their own. *)
Theorem fix_submit_response_keeps_the_derivation_block
    (pre more : list str) (x comment derive_line : str)
    (block : list str) (call : str) (rest : list str)
    (indent var_type var_name : str) :
  Forall (λ l, groups l = None) pre →
  groups x = Some (indent, var_type, var_name) →
  closes_last x more = true →
  contains DERIVE_COMMENT comment = true →
  Forall (λ l, block_line l = true ∧ contains MARKER l = false) block →
  block_line call = true → contains MARKER call = true →
  let lines :=
    pre ++ x :: more ++ comment :: derive_line :: block ++ call :: rest in
  ∃ out,
    rewrite_lines ualnum (S (length rest)) rest = Returned out
    ∧ rewrite_lines ualnum (S (length lines)) lines
      = Returned (pre ++ new_line ualnum var_type var_name x :: more
                    ++ [extract_line indent var_name; comment;
                        sub_get ualnum var_name 0 derive_line]
                    ++ block ++ call :: out).
Proof.
  intros Hpre Hx Hclosed Hcomment Hblock Hcall Hmarker lines.
  exists (walk Scan rest).
  rewrite !fsr_rewrite_lines_walk by lia. split; [done|].
  unfold lines. rewrite fsr_walk_copy by done.
  rewrite fsr_walk_Scan_cons, Hx.
  rewrite fsr_span_after_closed by done.
  unfold after_span. rewrite Hcomment.
  assert (walk Block (block ++ call :: rest)
          = block ++ call :: walk Scan rest) as ->; [|done].
  induction Hblock as [|l block [Hl Hm] Hblock IH].
  - cbn [app]. by rewrite fsr_walk_Block_cons, Hcall, Hmarker.
  - cbn [app]. by rewrite fsr_walk_Block_cons, Hl, Hm, IH.
Qed.

End FixSubmitResponseFacts.

(** ** fix-submit-response.py: the renamed line is a start line again *)

Section FixSubmitResponseAgainFacts.

Import FixSubmitResponse FixSubmitResponseRef ReRef.

Variable ualnum : N → bool.

Local Abbreviation walk := (FixSubmitResponseRef.walk ualnum).
Local Abbreviation groups := (FixSubmitResponse.groups ualnum).
Local Abbreviation match_decl := (FixSubmitResponse.match_decl ualnum).
Local Abbreviation sub_decl := (FixSubmitResponse.sub_decl ualnum).
Local Abbreviation OBS_ID := (FixSubmitResponse.OBS_ID ualnum).
Local Abbreviation isword := (Re.isword ualnum).

Lemma re_full_correct (r : regex) (s : str) :
  re_full r s = true ↔ matches r s.
Proof.
  revert r. induction s as [|c s IH]; intros r; cbn [re_full].
  - apply nullable_matches.
  - rewrite IH. apply deriv_matches.
Qed.

Lemma matches_star_all (p : N → bool) (u a : str) :
  Forall (λ c, p c = true) u →
  matches (Star (Cls p)) a → matches (Star (Cls p)) (u ++ a).
Proof.
  intros Hu Ha. induction Hu as [|c u Hc Hu IH]; [done|].
  change ((c :: u) ++ a) with ([c] ++ (u ++ a)).
  apply matches_star_more; [by constructor | done].
Qed.

(** Word characters before a name of the pattern give a name of the
    pattern. *)
Lemma obs_id_prefix (u v : str) :
  Forall (λ c, isword c = true) u →
  re_full OBS_ID v = true → re_full OBS_ID (u ++ v) = true.
Proof.
  intros Hu Hv. apply re_full_correct. apply re_full_correct in Hv.
  unfold FixSubmitResponse.OBS_ID in *. cbn [Seqs] in *.
  inversion Hv as [| |r1 r2 w1 w2 H1 H2| | | |]; subst.
  rewrite (assoc_L (++)). constructor; [|done].
  by apply matches_star_all.
Qed.

Lemma keyword_cases (s vt : str) :
  keyword s = Some vt → vt ∈ keywords ∧ startswith vt s = true.
Proof.
  unfold keyword, keywords.
  destruct (startswith (lit "const") s) eqn:E1.
  { intros [= <-]. split; [|done]. apply list_elem_of_here. }
  destruct (startswith (lit "let") s) eqn:E2.
  { intros [= <-]. split; [|done].
    apply list_elem_of_further, list_elem_of_here. }
  destruct (startswith (lit "var") s) eqn:E3; [|done].
  intros [= <-]. split; [|done].
  do 2 apply list_elem_of_further. apply list_elem_of_here.
Qed.

Lemma keyword_first (vt : str) :
  vt ∈ keywords →
  ∃ c rest, vt = c :: rest ∧ isspace c = false ∧ NL ∉ vt.
Proof.
  unfold keywords. intros H.
  repeat (apply elem_of_cons in H as [->|H]);
    [eexists _, _; split_and!; [reflexivity | reflexivity |
       apply (bool_decide_unpack _); by vm_compute] ..|].
  by apply elem_of_nil in H.
Qed.

Lemma keyword_app (vt s : str) : vt ∈ keywords → keyword (vt ++ s) = Some vt.
Proof.
  unfold keywords. intros H.
  repeat (apply elem_of_cons in H as [->|H]); [reflexivity ..|].
  by apply elem_of_nil in H.
Qed.

Lemma keyword_space (c : N) (s : str) :
  isspace c = true → keyword (c :: s) = None.
Proof.
  intros Hc. unfold keyword.
  change (lit "const") with (ch "c" :: lit "onst").
  change (lit "let") with (ch "l" :: lit "et").
  change (lit "var") with (ch "v" :: lit "ar").
  rewrite !startswith_head_ne; [done | ..];
    intros <-; by vm_compute in Hc.
Qed.

Lemma take_while_length_split (p : N → bool) (s : str) :
  s = take_while p s ++ drop (length (take_while p s)) s.
Proof.
  induction s as [|c s IH]; [done|]. cbn [take_while].
  destruct (p c); [|done]. cbn [length drop app]. by rewrite <- IH.
Qed.

Lemma take_while_app_all (p : N → bool) (u s : str) :
  Forall (λ c, p c = true) u →
  take_while p (u ++ s) = u ++ take_while p s.
Proof.
  induction 1 as [|c u Hc Hu IH]; [done|]. cbn [app take_while].
  by rewrite Hc, IH.
Qed.

Lemma forallb_Forall (p : N → bool) (u : str) :
  forallb p u = true ↔ Forall (λ c, p c = true) u.
Proof.
  induction u as [|c u IH]; [by split|]. cbn [forallb].
  rewrite andb_true_iff, Forall_cons. by rewrite IH.
Qed.

(** The parts of a match of the pattern of line 38. *)
Lemma match_decl_spec (s vt v : str) (n : nat) :
  match_decl s = Some (vt, v, n) →
  ∃ blanks blanks' rest,
    s = vt ++ blanks ++ v ++ blanks' ++ lit "=" ++ rest
    ∧ vt ∈ keywords ∧ blanks ≠ []
    ∧ Forall (λ c, isspace c = true) blanks
    ∧ Forall (λ c, isword c = true) v
    ∧ re_full OBS_ID v = true
    ∧ Forall (λ c, isspace c = true) blanks'
    ∧ n = length (vt ++ blanks ++ v ++ blanks' ++ lit "=")
    ∧ rest = drop n s.
Proof.
  unfold FixSubmitResponse.match_decl.
  destruct (keyword s) as [vt'|] eqn:Hkw; [|done].
  apply keyword_cases in Hkw as [Hvt Hstart].
  apply startswith_prefix in Hstart as [s1 ->].
  rewrite drop_app_length.
  remember (take_while isspace s1) as blanks eqn:Hb.
  remember (drop (length blanks) s1) as s2 eqn:Hs2.
  remember (take_while isword s2) as name eqn:Hname.
  remember (drop (length name) s2) as s3 eqn:Hs3.
  remember (take_while isspace s3) as blanks' eqn:Hb'.
  remember (drop (length blanks') s3) as s4 eqn:Hs4.
  destruct (bool_decide (blanks ≠ [])) eqn:Hne; [|done].
  apply bool_decide_eq_true in Hne.
  destruct (re_full OBS_ID name) eqn:Hfull; [|done].
  destruct (startswith (lit "=") s4) eqn:Heq; [|done].
  apply startswith_prefix in Heq as [rest Hrest].
  cbn [andb]. intros H. apply (inj Some) in H.
  apply pair_equal_spec in H as [H <-].
  apply pair_equal_spec in H as [<- <-].
  assert (s1 = blanks ++ name ++ blanks' ++ lit "=" ++ rest) as ->.
  { rewrite (take_while_length_split isspace s1), <- Hb, <- Hs2.
    rewrite (take_while_length_split isword s2), <- Hname, <- Hs3.
    rewrite (take_while_length_split isspace s3), <- Hb', <- Hs4.
    by rewrite Hrest. }
  exists blanks, blanks', rest.
  assert (length (vt' ++ blanks ++ name ++ blanks' ++ lit "=")
          = length vt' + length blanks + length name + length blanks' + 1)
    as Hlen by (rewrite !length_app; simpl; lia).
  split_and!; try done.
  - rewrite Hb. apply take_while_Forall.
  - rewrite Hname. apply take_while_Forall.
  - rewrite Hb'. apply take_while_Forall.
  - rewrite <- Hlen.
    rewrite <- (drop_app_length (vt' ++ blanks ++ name ++ blanks' ++ lit "=")
                  rest) at 1.
    by rewrite <- !(assoc_L (++)).
Qed.

(** A keyword, blanks, a name of the pattern, blanks that are no word
    characters and [=] match. *)
Lemma match_decl_intro (vt blanks v blanks' rest : str) :
  vt ∈ keywords → blanks ≠ [] →
  Forall (λ c, isspace c = true) blanks →
  Forall (λ c, isword c = true) v →
  (∀ c v', v = c :: v' → isspace c = false) →
  re_full OBS_ID v = true →
  Forall (λ c, isspace c = true) blanks' →
  Forall (λ c, isword c = false) blanks' →
  match_decl (vt ++ blanks ++ v ++ blanks' ++ lit "=" ++ rest)
  = Some (vt, v,
          length vt + length blanks + length v + length blanks' + 1).
Proof.
  intros Hvt Hne Hblanks Hv Hhead Hfull Hblanks' Hnoword.
  unfold FixSubmitResponse.match_decl.
  rewrite keyword_app by done. rewrite drop_app_length.
  destruct v as [|c v'] eqn:Ev.
  { by vm_compute in Hfull. }
  rewrite <- Ev in *.
  assert (take_while isspace (blanks ++ v ++ blanks' ++ lit "=" ++ rest)
          = blanks) as ->.
  { rewrite Ev. cbn [app]. apply take_while_app_stop; [done|].
    by apply (Hhead c v'). }
  rewrite drop_app_length.
  assert (take_while isword (v ++ blanks' ++ lit "=" ++ rest) = v) as ->.
  { destruct blanks' as [|b blanks''].
    - cbn [app]. change (lit "=" ++ rest) with (ch "=" :: rest).
      by apply take_while_app_stop.
    - cbn [app]. apply take_while_app_stop; [done|].
      by inversion Hnoword. }
  rewrite drop_app_length.
  assert (take_while isspace (blanks' ++ lit "=" ++ rest) = blanks') as ->.
  { change (lit "=" ++ rest) with (ch "=" :: rest).
    by apply take_while_app_stop. }
  rewrite drop_app_length.
  rewrite bool_decide_eq_true_2 by done. rewrite Hfull.
  by rewrite startswith_app.
Qed.

Lemma sub_decl_skip (repl : str) (k : nat) (s : str) :
  sub_decl repl k s = sub_decl repl 0 (drop k s).
Proof.
  revert k. induction s as [|c s IH]; intros [|k]; try reflexivity.
  cbn [FixSubmitResponse.sub_decl drop]. apply IH.
Qed.

Lemma sub_decl_copy (repl x y : str) :
  (∀ j, j < length x → match_decl (drop j x ++ y) = None) →
  sub_decl repl 0 (x ++ y) = x ++ sub_decl repl 0 y.
Proof.
  induction x as [|c x IH]; intros Hx; [done|].
  cbn [app FixSubmitResponse.sub_decl].
  pose proof (Hx 0 ltac:(simpl; lia)) as H0. rewrite drop_0 in H0.
  cbn [app] in H0. rewrite H0. f_equal. apply IH.
  intros j Hj. apply (Hx (S j)). simpl. lia.
Qed.

Lemma sub_decl_match (repl s vt v : str) (n : nat) :
  match_decl s = Some (vt, v, n) →
  sub_decl repl 0 s = repl ++ sub_decl repl 0 (drop n s).
Proof.
  intros Hm. pose proof Hm as Hspec.
  apply match_decl_spec in Hspec
    as (blanks & blanks' & rest & Hs & Hvt & _ & _ & _ & _ & _ & Hn & _).
  destruct s as [|c s].
  { apply keyword_first in Hvt as (c & r & -> & _). done. }
  cbn [FixSubmitResponse.sub_decl]. rewrite Hm, sub_decl_skip.
  assert (0 < n) as Hpos.
  { rewrite Hn, !length_app. simpl. lia. }
  replace n with (S (n - 1)) at 2 by lia. done.
Qed.

(** No match starts at a blank. *)
Lemma no_match_in_blanks (m y : str) j :
  Forall (λ c, isspace c = true) m → j < length m →
  match_decl (drop j m ++ y) = None.
Proof.
  intros Hm Hj. apply (Forall_drop _ j) in Hm.
  destruct (drop j m) as [|c m'] eqn:Ed.
  { apply (f_equal length) in Ed. rewrite length_drop in Ed.
    simpl in Ed. lia. }
  inversion Hm as [|? ? Hc _]; subst.
  unfold FixSubmitResponse.match_decl. cbn [app].
  by rewrite keyword_space.
Qed.

(** No match starts in the text of the call. *)
Lemma no_match_in_call_text (y : str) j :
  j < length SUBMIT_CALL →
  match_decl (drop j SUBMIT_CALL ++ y) = None.
Proof.
  intros Hj. unfold FixSubmitResponse.match_decl.
  assert (keyword (drop j SUBMIT_CALL ++ y) = None) as ->; [|done].
  assert (∀ kw, kw ∈ keywords →
            startswith kw (drop j SUBMIT_CALL ++ y) = false) as Hno.
  { intros kw Hkw.
    destruct (startswith kw (drop j SUBMIT_CALL ++ y)) eqn:E; [|done].
    apply compatible_of_startswith_app in E.
    assert (forallb (λ kw, forallb (λ j,
              negb (Occurrences.compatible kw (drop j SUBMIT_CALL)))
              (seq 0 (length SUBMIT_CALL))) keywords = true) as Hall
      by (by vm_compute).
    rewrite forallb_forall in Hall.
    specialize (Hall kw ltac:(by apply list_elem_of_In)).
    rewrite forallb_forall in Hall.
    specialize (Hall j ltac:(apply in_seq; lia)).
    by rewrite E in Hall. }
  unfold keyword.
  rewrite !Hno; [done | ..]; unfold keywords.
  - do 2 apply list_elem_of_further. apply list_elem_of_here.
  - apply list_elem_of_further, list_elem_of_here.
  - apply list_elem_of_here.
Qed.

(** The parts of a start line. *)
Lemma groups_spec (x indent vt v : str) :
  groups x = Some (indent, vt, v) →
  ∃ blanks blanks' blanks'' tail,
    x = indent ++ (vt ++ blanks ++ v ++ blanks' ++ lit "=")
          ++ blanks'' ++ SUBMIT_CALL ++ tail
    ∧ Forall (λ c, isspace c = true) indent
    ∧ match_decl (vt ++ blanks ++ v ++ blanks' ++ lit "="
                    ++ blanks'' ++ SUBMIT_CALL ++ tail)
      = Some (vt, v, length (vt ++ blanks ++ v ++ blanks' ++ lit "="))
    ∧ vt ∈ keywords
    ∧ Forall (λ c, isword c = true) v
    ∧ re_full OBS_ID v = true
    ∧ Forall (λ c, isspace c = true) blanks''
    ∧ blanks ≠ []
    ∧ Forall (λ c, isspace c = true) blanks
    ∧ Forall (λ c, isspace c = true) blanks'.
Proof.
  unfold FixSubmitResponse.groups.
  remember (take_while isspace x) as ind eqn:Hind.
  remember (drop (length ind) x) as t eqn:Ht.
  destruct (match_decl t) as [[[vt' v'] n]|] eqn:Hm; [|done].
  destruct (startswith SUBMIT_CALL (drop_while isspace (drop n t))) eqn:Hcall;
    [|done].
  intros H. apply (inj Some) in H.
  apply pair_equal_spec in H as [H <-].
  apply pair_equal_spec in H as [<- <-].
  pose proof Hm as Hspec.
  apply match_decl_spec in Hspec
    as (blanks & blanks' & rest & Hs & Hvt & Hne & Hb & Hv & Hfull & Hb'
        & Hn & Hrest).
  rewrite <- Hrest in Hcall.
  apply startswith_prefix in Hcall as [tail Htail].
  exists blanks, blanks', (take_while isspace rest), tail.
  assert (rest = take_while isspace rest ++ SUBMIT_CALL ++ tail) as Hr.
  { rewrite <- Htail. by rewrite take_drop_while. }
  assert (x = ind ++ t) as Hx.
  { rewrite Ht, Hind. apply take_while_length_split. }
  split_and!; try done.
  - rewrite Hx, Hs. rewrite Hr at 1. by rewrite <- !(assoc_L (++)).
  - rewrite Hind. apply take_while_Forall.
  - rewrite <- Hn, <- Hm. f_equal. rewrite Hs. by rewrite <- Hr.
  - apply take_while_Forall.
Qed.

(** What line 38 makes of a start line. *)
Lemma new_line_spec (x indent vt v : str) :
  groups x = Some (indent, vt, v) →
  ∃ blanks'' tail,
    new_line ualnum vt v x
    = indent ++ (vt ++ lit " " ++ (lit "_result_" ++ v) ++ lit " " ++ lit "=")
        ++ blanks'' ++ SUBMIT_CALL ++ tail
    ∧ Forall (λ c, isspace c = true) blanks''.
Proof.
  intros (blanks & blanks' & blanks'' & tail & -> & Hindent & Hm & Hvt & Hv
          & Hfull & Hblanks'' & _)%groups_spec.
  exists blanks'',
    (sub_decl (vt ++ lit " _result_" ++ v ++ lit " =") 0 tail).
  split; [|done]. unfold new_line.
  rewrite sub_decl_copy by (intros j Hj; by apply no_match_in_blanks).
  f_equal.
  rewrite <- !(assoc_L (++)).
  rewrite (sub_decl_match _ _ _ _ _ Hm).
  assert (drop (length (vt ++ blanks ++ v ++ blanks' ++ lit "="))
            (vt ++ blanks ++ v ++ blanks' ++ lit "=" ++ blanks''
               ++ SUBMIT_CALL ++ tail)
          = blanks'' ++ SUBMIT_CALL ++ tail) as ->.
  { rewrite <- (drop_app_length (vt ++ blanks ++ v ++ blanks' ++ lit "=")
                  (blanks'' ++ SUBMIT_CALL ++ tail)) at 2.
    by rewrite <- !(assoc_L (++)). }
  rewrite sub_decl_copy by (intros j Hj; by apply no_match_in_blanks).
  rewrite sub_decl_copy by (intros j Hj; by apply no_match_in_call_text).
  by rewrite <- !(assoc_L (++)).
Qed.

(** The renamed line is a start line, of the variable [_result_v]. *)
Lemma new_line_groups (x indent vt v : str) :
  groups x = Some (indent, vt, v) →
  groups (new_line ualnum vt v x) = Some (indent, vt, lit "_result_" ++ v).
Proof.
  intros Hx. destruct (new_line_spec _ _ _ _ Hx) as (blanks'' & tail & -> & Hb).
  apply groups_spec in Hx
    as (_ & _ & _ & _ & _ & Hindent & _ & Hvt & Hv & Hfull & _ & _).
  destruct (keyword_first vt Hvt) as (c0 & vt' & Evt & Hc0 & _).
  unfold FixSubmitResponse.groups.
  assert (take_while isspace
            (indent ++ (vt ++ lit " " ++ (lit "_result_" ++ v) ++ lit " "
                          ++ lit "=") ++ blanks'' ++ SUBMIT_CALL ++ tail)
          = indent) as ->.
  { rewrite Evt. cbn [app]. by apply take_while_app_stop. }
  rewrite drop_app_length.
  replace ((vt ++ lit " " ++ (lit "_result_" ++ v) ++ lit " " ++ lit "=")
             ++ blanks'' ++ SUBMIT_CALL ++ tail)
    with (vt ++ lit " " ++ (lit "_result_" ++ v) ++ lit " " ++ lit "="
            ++ blanks'' ++ SUBMIT_CALL ++ tail)
    by (by rewrite <- !(assoc_L (++))).
  rewrite (match_decl_intro vt (lit " ") (lit "_result_" ++ v) (lit " ")).
  - assert (drop (length vt + length (lit " ")
                  + length (lit "_result_" ++ v) + length (lit " ") + 1)
              (vt ++ lit " " ++ (lit "_result_" ++ v) ++ lit " " ++ lit "="
                 ++ blanks'' ++ SUBMIT_CALL ++ tail)
            = blanks'' ++ SUBMIT_CALL ++ tail) as ->.
    { replace (length vt + length (lit " ") + length (lit "_result_" ++ v)
               + length (lit " ") + 1)
        with (length (vt ++ lit " " ++ (lit "_result_" ++ v) ++ lit " "
                        ++ lit "="))
        by (rewrite !length_app; simpl; lia).
      rewrite <- (drop_app_length
                    (vt ++ lit " " ++ (lit "_result_" ++ v) ++ lit " "
                       ++ lit "=") (blanks'' ++ SUBMIT_CALL ++ tail)) at 2.
      by rewrite <- !(assoc_L (++)). }
    rewrite drop_while_app_all by (by apply forallb_Forall).
    change (drop_while isspace (SUBMIT_CALL ++ tail))
      with (SUBMIT_CALL ++ tail).
    by rewrite startswith_app.
  - done.
  - done.
  - by repeat constructor.
  - apply Forall_app. split; [|done].
    apply (bool_decide_unpack _). by vm_compute.
  - intros c v' [= <- _]. done.
  - apply obs_id_prefix; [|done].
    apply (bool_decide_unpack _). by vm_compute.
  - by repeat constructor.
  - by repeat constructor.
Qed.

Lemma sub_decl_no_newline (repl s : str) (k : nat) :
  NL ∉ repl → NL ∉ s → NL ∉ sub_decl repl k s.
Proof.
  intros Hrepl. revert k.
  induction s as [|c s IH]; intros k Hs; [done|].
  apply not_elem_of_cons in Hs as [Hc Hs].
  cbn [FixSubmitResponse.sub_decl]. destruct k as [|k]; [|by apply IH].
  destruct (match_decl (c :: s)) as [[[vt v] n]|].
  - rewrite not_elem_of_app. split; [done | by apply IH].
  - apply not_elem_of_cons. split; [done | by apply IH].
Qed.

Lemma new_line_no_newline (x indent vt v : str) :
  groups x = Some (indent, vt, v) → NL ∉ x → NL ∉ new_line ualnum vt v x.
Proof.
  intros Hx Hnl. unfold new_line. apply sub_decl_no_newline; [|done].
  apply groups_spec in Hx
    as (_ & _ & _ & _ & _ & _ & _ & Hvt & Hv & _ & _ & _).
  destruct (keyword_first vt Hvt) as (_ & _ & _ & _ & Hvtnl).
  rewrite !not_elem_of_app. split_and!; [done | | | ].
  - apply (bool_decide_unpack _). by vm_compute.
  - intros Hin. rewrite Forall_forall in Hv. specialize (Hv _ Hin).
    by vm_compute in Hv.
  - apply (bool_decide_unpack _). by vm_compute.
Qed.

(** The first start line of a list that has one. *)
Lemma first_start_line (lines : list str) :
  Exists (λ l, is_Some (groups l)) lines →
  ∃ pre x rest,
    lines = pre ++ x :: rest
    ∧ Forall (λ l, groups l = None) pre ∧ is_Some (groups x).
Proof.
  induction lines as [|l lines IH]; intros H; [by inversion H|].
  destruct (groups l) as [g|] eqn:El.
  - exists [], l, lines. split_and!; [done | constructor | by rewrite El].
  - apply Exists_cons in H as [H|H]; [rewrite El in H; by destruct H|].
    destruct (IH H) as (pre & x & rest & -> & Hpre & Hx).
    exists (l :: pre), x, rest. split_and!; [done | by constructor | done].
Qed.

(** The lines written come back when the text is split again, as long as
    they have no newline of their own. *)
Lemma split_join_prefix (pre more : list str) :
  pre ≠ [] → Forall (λ l, NL ∉ l) pre →
  ∃ back, split NL (join [NL] (pre ++ more)) = pre ++ back.
Proof.
  induction pre as [|l pre IH]; intros Hne Hpre; [done|].
  apply Forall_cons in Hpre as [Hl Hpre].
  destruct pre as [|p pre'].
  - destruct more as [|m more'].
    + exists []. cbn [app join]. by rewrite split_last.
    + exists (split NL (join [NL] (m :: more'))). cbn [app].
      change (join [NL] (l :: m :: more'))
        with (l ++ NL :: join [NL] (m :: more')).
      by rewrite split_line.
  - destruct IH as [back Hback]; [done | done |].
    exists back. cbn [app].
    change (join [NL] (l :: p :: pre' ++ more))
      with (l ++ NL :: join [NL] ((p :: pre') ++ more)).
    rewrite split_line by done. by rewrite Hback.
Qed.

(** X19.  fix-submit-response.py, lines 22 to 82: the script is idempotent
    on no file it finds a start line in.  The line it renames is a start
    line again, so that a second run renames the variable once more and
    the output of the second run differs from that of the first. *)
Theorem fix_submit_response_changes_its_output_again (content : str) :
  Exists (λ l, is_Some (groups l)) (split NL content) →
  ∃ once twice,
    transform ualnum content = Returned once
    ∧ transform ualnum once = Returned twice
    ∧ twice ≠ once.
Proof.
  intros (pre & x & rest & Hlines & Hpre & [[[indent vt] v] Hx])
    %first_start_line.
  pose proof (split_no_newline content) as Hnl. rewrite Hlines in Hnl.
  apply Forall_app in Hnl as [Hprenl Hrestnl].
  apply Forall_cons in Hrestnl as [Hxnl _].
  set (nl := new_line ualnum vt v x).
  pose proof (new_line_groups _ _ _ _ Hx) as Hnlg. fold nl in Hnlg.
  pose proof (new_line_no_newline _ _ _ _ Hx Hxnl) as Hnlnl. fold nl in Hnlnl.
  set (nl2 := new_line ualnum vt (lit "_result_" ++ v) nl).
  pose proof (new_line_groups _ _ _ _ Hnlg) as Hnl2g. fold nl2 in Hnl2g.
  pose proof (new_line_no_newline _ _ _ _ Hnlg Hnlnl) as Hnl2nl.
  fold nl2 in Hnl2nl.
  eexists _, _. split; [apply fsr_transform_walk|].
  split; [apply fsr_transform_walk|].
  rewrite Hlines, fsr_walk_copy by done.
  rewrite fsr_walk_Scan_cons, Hx. fold nl.
  set (more := span_after ualnum x x indent v rest).
  destruct (split_join_prefix (pre ++ [nl]) more) as [back Hback].
  { by destruct pre. }
  { apply Forall_app. split; [done|]. by repeat constructor. }
  rewrite <- !(assoc_L (++)) in Hback. cbn [app] in Hback.
  rewrite Hback, (fsr_walk_copy ualnum pre (nl :: back) Hpre).
  rewrite fsr_walk_Scan_cons, Hnlg. fold nl2.
  set (more2 := span_after ualnum nl nl indent (lit "_result_" ++ v) back).
  intros Heq. apply (f_equal (split NL)) in Heq.
  rewrite Hback in Heq.
  destruct (split_join_prefix (pre ++ [nl2]) more2) as [back2 Hback2].
  { by destruct pre. }
  { apply Forall_app. split; [done|]. by repeat constructor. }
  rewrite <- !(assoc_L (++)) in Hback2. cbn [app] in Hback2.
  rewrite Hback2 in Heq.
  apply app_inv_head in Heq. injection Heq as Heq _.
  rewrite Heq, Hnlg in Hnl2g. apply (inj Some) in Hnl2g.
  apply pair_equal_spec in Hnl2g as [_ Hv].
  apply (f_equal length) in Hv. rewrite !length_app in Hv. simpl in Hv. lia.
Qed.

End FixSubmitResponseAgainFacts.

(** ** fix-submit-response.py and add-derivations-v2.py: the same start
    lines *)

Section FixSubmitResponsePatternFacts.

Import FixSubmitResponse FixSubmitResponseRef ReRef.

Variable ualnum : N → bool.

(** No alphanumeric character of the table is a blank, as in Unicode. *)
Hypothesis ualnum_not_blank : ∀ c, ualnum c = true → isspace c = false.

Local Abbreviation groups := (FixSubmitResponse.groups ualnum).
Local Abbreviation match_decl := (FixSubmitResponse.match_decl ualnum).
Local Abbreviation OBS_ID := (FixSubmitResponse.OBS_ID ualnum).
Local Abbreviation isword := (Re.isword ualnum).
Local Abbreviation SUBMIT_ASSIGN := (AddDerivationsV2.SUBMIT_ASSIGN ualnum).

Lemma word_not_blank (c : N) : isword c = true → isspace c = false.
Proof using ualnum_not_blank.
  unfold Re.isword. destruct (c <? 128)%N eqn:Hc; [|apply ualnum_not_blank].
  apply N.ltb_lt in Hc. intros Hw.
  assert (forallb (λ n, negb ((isalnum_ascii (N.of_nat n)
                               || (N.of_nat n =? ch "_")%N)
                              && isspace (N.of_nat n))) (seq 0 128) = true)
    as Hall by (by vm_compute).
  rewrite forallb_forall in Hall.
  specialize (Hall (N.to_nat c) ltac:(apply in_seq; lia)).
  rewrite N2Nat.id, Hw in Hall. cbn [andb] in Hall.
  by apply negb_true_iff in Hall.
Qed.

Lemma blank_not_word (c : N) : isspace c = true → isword c = false.
Proof using ualnum_not_blank.
  intros Hs. destruct (isword c) eqn:Hw; [|done].
  apply word_not_blank in Hw. congruence.
Qed.

Lemma matches_Lit_intro (l : str) : matches (Lit l) l.
Proof.
  induction l as [|c l IH]; [constructor|]. cbn [Lit].
  change (c :: l) with ([c] ++ l).
  constructor; [|done]. constructor. apply N.eqb_refl.
Qed.

Lemma matches_star_cls (p : N → bool) (w : str) :
  matches (Star (Cls p)) w ↔ Forall (λ c, p c = true) w.
Proof.
  split.
  - remember (Star (Cls p)) as r eqn:Hr. intros H. revert Hr.
    induction H as [| | | | | |r' w1 w2 H1 _ H2 IH2]; intros Hr; try done.
    injection Hr as ->. inversion H1; subst.
    constructor; [done | by apply IH2].
  - intros H. rewrite <- (app_nil_r w).
    apply matches_star_all; [done | constructor].
Qed.

Lemma matches_seq_inv (r1 r2 : regex) (w : str) :
  matches (Seq r1 r2) w →
  ∃ w1 w2, w = w1 ++ w2 ∧ matches r1 w1 ∧ matches r2 w2.
Proof.
  inversion 1 as [| |? ? w1 w2 H1 H2| | | |]; subst. by exists w1, w2.
Qed.

Lemma matches_alt_inv (r1 r2 : regex) (w : str) :
  matches (Alt r1 r2) w → matches r1 w ∨ matches r2 w.
Proof. inversion 1; subst; [by left | by right]. Qed.

Lemma matches_keyword (w : str) :
  matches (Alt (Lit (lit "const")) (Alt (Lit (lit "let")) (Lit (lit "var"))))
    w ↔ w ∈ keywords.
Proof.
  unfold keywords. split.
  - intros [H|H]%matches_alt_inv.
    { apply matches_Lit in H as ->. apply list_elem_of_here. }
    apply matches_alt_inv in H as [H|H]; apply matches_Lit in H as ->.
    + apply list_elem_of_further, list_elem_of_here.
    + do 2 apply list_elem_of_further. apply list_elem_of_here.
  - intros H. repeat (apply elem_of_cons in H as [->|H]).
    + apply matches_alt_l, matches_Lit_intro.
    + apply matches_alt_r, matches_alt_l, matches_Lit_intro.
    + apply matches_alt_r, matches_alt_r, matches_Lit_intro.
    + by apply elem_of_nil in H.
Qed.

(** A name of the pattern is made of word characters. *)
Lemma obs_id_word (w : str) :
  matches OBS_ID w → Forall (λ c, isword c = true) w.
Proof.
  unfold FixSubmitResponse.OBS_ID. cbn [Seqs].
  intros (w1 & r1 & -> & H1 & H)%matches_seq_inv.
  apply matches_seq_inv in H as (w2 & r2 & -> & H2 & H).
  apply matches_seq_inv in H as (w3 & r3 & -> & H3 & H).
  apply matches_seq_inv in H as (w4 & r4 & -> & H4 & H).
  apply matches_seq_inv in H as (w5 & r5 & -> & H5 & H).
  apply matches_seq_inv in H as (w6 & r6 & -> & H6 & H).
  apply matches_seq_inv in H as (w7 & r7 & -> & H7 & H).
  apply matches_Eps in H as ->.
  apply matches_star_cls in H1, H4, H7.
  apply matches_Lit in H3 as ->. apply matches_Lit in H6 as ->.
  assert (∀ s u, matches (OneOf s) u →
            Forall (λ c, isword c = true) s →
            Forall (λ c, isword c = true) u) as Hone.
  { intros s u Hu Hs. inversion Hu as [|p c Hc| | | | |]; subst.
    apply bool_decide_eq_true in Hc. rewrite Forall_forall in Hs.
    constructor; [by apply Hs | constructor]. }
  apply Hone in H2; [|apply (bool_decide_unpack _); by vm_compute].
  apply Hone in H5; [|apply (bool_decide_unpack _); by vm_compute].
  rewrite !Forall_app. split_and!; try done.
  - apply (bool_decide_unpack _). by vm_compute.
  - apply (bool_decide_unpack _). by vm_compute.
Qed.

Lemma drop_while_stop (p : N → bool) (u : str) (c : N) (x : str) :
  Forall (λ c, p c = true) u → p c = false →
  drop_while p (u ++ c :: x) = c :: x.
Proof.
  intros Hu Hc. induction Hu as [|d u Hd Hu IH]; simpl.
  - by rewrite Hc.
  - by rewrite Hd, IH.
Qed.

(** The parts of a match of line 30's pattern, which is that of line 26
    of add-derivations-v2.py. *)
Lemma submit_assign_parts (w : str) :
  matches SUBMIT_ASSIGN w ↔
  ∃ indent vt blanks v blanks' blanks'',
    w = indent ++ vt ++ blanks ++ v ++ blanks' ++ lit "=" ++ blanks''
          ++ SUBMIT_CALL
    ∧ Forall (λ c, isspace c = true) indent
    ∧ vt ∈ keywords
    ∧ blanks ≠ [] ∧ Forall (λ c, isspace c = true) blanks
    ∧ matches OBS_ID v
    ∧ Forall (λ c, isspace c = true) blanks'
    ∧ Forall (λ c, isspace c = true) blanks''.
Proof.
  unfold AddDerivationsV2.SUBMIT_ASSIGN. cbn [Seqs]. split.
  - intros (w1 & r1 & -> & H1 & H)%matches_seq_inv.
    apply matches_seq_inv in H as (w2 & r2 & -> & H2 & H).
    apply matches_seq_inv in H as (w3 & r3 & -> & H3 & H).
    apply matches_seq_inv in H as (w4 & r4 & -> & H4 & H).
    apply matches_seq_inv in H as (w5 & r5 & -> & H5 & H).
    apply matches_seq_inv in H as (w6 & r6 & -> & H6 & H).
    apply matches_seq_inv in H as (w7 & r7 & -> & H7 & H).
    apply matches_seq_inv in H as (w8 & r8 & -> & H8 & H).
    apply matches_Eps in H as ->.
    apply matches_star_cls in H1, H5, H7.
    apply matches_keyword in H2.
    apply matches_Lit in H6 as ->. apply matches_Lit in H8 as ->.
    unfold Plus in H3.
    apply matches_seq_inv in H3 as (b1 & b2 & -> & Hb1 & Hb2).
    apply matches_star_cls in Hb2.
    inversion Hb1 as [|p c Hc| | | | |]; subst.
    exists w1, w2, ([c] ++ b2), w4, w5, w7.
    rewrite app_nil_r. split_and!; try done.
    by constructor.
  - intros (indent & vt & blanks & v & blanks' & blanks'' & -> & Hi & Hvt
            & Hne & Hb & Hv & Hb' & Hb'').
    constructor; [by apply matches_star_cls|].
    constructor; [by apply matches_keyword|].
    constructor.
    { destruct blanks as [|c b]; [done|].
      apply Forall_cons in Hb as [Hc Hb].
      change (c :: b) with ([c] ++ b). constructor; [by constructor|].
      by apply matches_star_cls. }
    constructor; [done|].
    constructor; [by apply matches_star_cls|].
    constructor; [apply matches_Lit_intro|].
    constructor; [by apply matches_star_cls|].
    rewrite <- (app_nil_r SUBMIT_CALL).
    constructor; [apply matches_Lit_intro | constructor].
Qed.

Lemma name_not_empty (v : str) : matches OBS_ID v → v ≠ [].
Proof.
  intros H%re_full_correct ->. by vm_compute in H.
Qed.

Lemma after_name (v blanks' rest : str) :
  Forall (λ c, isword c = true) v →
  Forall (λ c, isspace c = true) blanks' →
  take_while isword (v ++ blanks' ++ lit "=" ++ rest) = v.
Proof using ualnum_not_blank.
  intros Hv Hb. destruct blanks' as [|b blanks''].
  - cbn [app]. change (lit "=" ++ rest) with (ch "=" :: rest).
    by apply take_while_app_stop.
  - cbn [app]. apply take_while_app_stop; [done|].
    apply blank_not_word. by inversion Hb.
Qed.

(** Such parts make a start line. *)
Lemma groups_intro (indent vt blanks v blanks' blanks'' tail : str) :
  Forall (λ c, isspace c = true) indent →
  vt ∈ keywords →
  blanks ≠ [] → Forall (λ c, isspace c = true) blanks →
  matches OBS_ID v →
  Forall (λ c, isspace c = true) blanks' →
  Forall (λ c, isspace c = true) blanks'' →
  groups (indent ++ vt ++ blanks ++ v ++ blanks' ++ lit "=" ++ blanks''
            ++ SUBMIT_CALL ++ tail)
  = Some (indent, vt, v).
Proof using ualnum_not_blank.
  intros Hi Hvt Hne Hb Hv Hb' Hb''.
  destruct (keyword_first vt Hvt) as (c0 & vt' & Evt & Hc0 & _).
  pose proof (obs_id_word _ Hv) as Hword.
  unfold FixSubmitResponse.groups.
  assert (take_while isspace
            (indent ++ vt ++ blanks ++ v ++ blanks' ++ lit "=" ++ blanks''
               ++ SUBMIT_CALL ++ tail) = indent) as ->.
  { rewrite Evt. cbn [app]. by apply take_while_app_stop. }
  rewrite drop_app_length.
  rewrite (match_decl_intro ualnum vt blanks v blanks').
  - assert (drop (length vt + length blanks + length v + length blanks' + 1)
              (vt ++ blanks ++ v ++ blanks' ++ lit "=" ++ blanks''
                 ++ SUBMIT_CALL ++ tail)
            = blanks'' ++ SUBMIT_CALL ++ tail) as ->.
    { replace (length vt + length blanks + length v + length blanks' + 1)
        with (length (vt ++ blanks ++ v ++ blanks' ++ lit "="))
        by (rewrite !length_app; simpl; lia).
      rewrite <- (drop_app_length (vt ++ blanks ++ v ++ blanks' ++ lit "=")
                    (blanks'' ++ SUBMIT_CALL ++ tail)) at 2.
      by rewrite <- !(assoc_L (++)). }
    rewrite drop_while_app_all by (by apply forallb_Forall).
    change (drop_while isspace (SUBMIT_CALL ++ tail))
      with (SUBMIT_CALL ++ tail).
    by rewrite startswith_app.
  - done.
  - done.
  - done.
  - done.
  - intros c v' ->. apply word_not_blank. by inversion Hword.
  - by apply re_full_correct.
  - done.
  - eapply Forall_impl; [exact Hb'|]. intros c. apply blank_not_word.
Qed.

Lemma after_keyword_app (vt rest : str) :
  vt ∈ keywords → AddDerivationsV2.after_keyword (vt ++ rest) = Some rest.
Proof.
  unfold keywords. intros H.
  repeat (apply elem_of_cons in H as [->|H]); [reflexivity ..|].
  by apply elem_of_nil in H.
Qed.

(** X20.  fix-submit-response.py, lines 30 to 34, and add-derivations-v2.py,
    lines 26 to 29: both scripts take the same lines for start lines, and
    the variable that the first reads from one is the variable that the
    second names in its block. *)
Theorem both_scripts_read_the_same_start_lines (x : str) :
  (re_match SUBMIT_ASSIGN x = true ↔ is_Some (groups x))
  ∧ ∀ indent var_type var_name,
      groups x = Some (indent, var_type, var_name) →
      indent = take_while isspace x
      ∧ AddDerivationsV2.var_name ualnum x = var_name.
Proof using ualnum_not_blank.
  split; [split|].
  - intros (w & t & -> & Hw)%re_match_correct.
    apply submit_assign_parts in Hw
      as (indent & vt & blanks & v & blanks' & blanks'' & -> & Hi & Hvt
          & Hne & Hb & Hv & Hb' & Hb'').
    rewrite <- !(assoc_L (++)). by rewrite groups_intro.
  - intros [[[indent vt] v] Hx].
    apply groups_spec in Hx
      as (blanks & blanks' & blanks'' & tail & -> & Hi & _ & Hvt & Hv & Hfull
          & Hb'' & Hne & Hb & Hb').
    apply re_match_correct.
    exists (indent ++ vt ++ blanks ++ v ++ blanks' ++ lit "=" ++ blanks''
              ++ SUBMIT_CALL), tail.
    split; [by rewrite <- !(assoc_L (++))|].
    apply submit_assign_parts.
    exists indent, vt, blanks, v, blanks', blanks''.
    split_and!; try done. by apply re_full_correct.
  - intros indent vt v Hx. pose proof Hx as Hparts.
    apply groups_spec in Hparts
      as (blanks & blanks' & blanks'' & tail & -> & Hi & _ & Hvt & Hv & Hfull
          & Hb'' & Hne & Hb & Hb').
    destruct (keyword_first vt Hvt) as (c0 & vt' & Evt & Hc0 & _).
    rewrite <- !(assoc_L (++)). split.
    { rewrite Evt. cbn [app]. symmetry. by apply take_while_app_stop. }
    unfold AddDerivationsV2.var_name.
    assert (drop_while isspace
              (indent ++ vt ++ blanks ++ v ++ blanks' ++ lit "=" ++ blanks''
                 ++ SUBMIT_CALL ++ tail)
            = vt ++ blanks ++ v ++ blanks' ++ lit "=" ++ blanks''
                ++ SUBMIT_CALL ++ tail) as ->.
    { rewrite Evt. cbn [app]. by apply drop_while_stop. }
    rewrite after_keyword_app by done.
    destruct v as [|c v'] eqn:Ev.
    { by vm_compute in Hfull. }
    rewrite <- Ev in *.
    assert (isspace c = false) as Hc.
    { apply word_not_blank. rewrite Ev in Hv. by inversion Hv. }
    assert (drop_while isspace
              (blanks ++ v ++ blanks' ++ lit "=" ++ blanks''
                 ++ SUBMIT_CALL ++ tail)
            = v ++ blanks' ++ lit "=" ++ blanks'' ++ SUBMIT_CALL ++ tail)
      as ->.
    { rewrite Ev. cbn [app]. by apply drop_while_stop. }
    rewrite after_name by done.
    rewrite bool_decide_eq_true_2.
    + rewrite bool_decide_eq_true_2; [done|]. by rewrite Ev.
    + rewrite (length_app blanks). destruct blanks; [done | simpl; lia].
Qed.

End FixSubmitResponsePatternFacts.

Section FixSubmitResponseSamples.

Import FixSubmitResponse FixSubmitResponseRef.

Lemma fix_submit_response_drops_the_line_after_the_span_witness :
  let x := lit "  const obsId = await observationService.submit({" in
  let more := [lit "    a: 1"; lit "  });"] in
  let next := lit "  expect(obsId).toBeDefined();" in
  let rest := [lit "});"] in
  ∃ out,
    rewrite_lines (λ _, false) (S (length rest)) rest = Returned out
    ∧ rewrite_lines (λ _, false) (S (length (x :: more ++ next :: rest)))
        (x :: more ++ next :: rest)
      = Returned (new_line (λ _, false) (lit "const") (lit "obsId") x :: more
                    ++ [extract_line (lit "  ") (lit "obsId"); x] ++ out).
Proof.
  apply (fix_submit_response_drops_the_line_after_the_span (λ _, false) []
           [lit "    a: 1"; lit "  });"]
           (lit "  const obsId = await observationService.submit({")
           (lit "  expect(obsId).toBeDefined();") [lit "});"]
           (lit "  ") (lit "const") (lit "obsId"));
    [constructor | by vm_compute ..].
Defined.

Lemma fix_submit_response_keeps_the_derivation_block_witness :
  let x := lit "  let obsId = await observationService.submit(data);" in
  let comment := lit "  // Derive violations (as done by API)" in
  let derive_line :=
    lit "  const _obs_a = await observationService.getById(a);" in
  let block := [lit "  if (_obs_a && _obs_a.parkingPositionId) {"] in
  let call :=
    lit "    await violationService.deriveFromObservation(_obs_a, p, 'u');" in
  let rest := [lit "  }"] in
  let lines := x :: comment :: derive_line :: block ++ call :: rest in
  ∃ out,
    rewrite_lines (λ _, false) (S (length rest)) rest = Returned out
    ∧ rewrite_lines (λ _, false) (S (length lines)) lines
      = Returned (new_line (λ _, false) (lit "let") (lit "obsId") x
                    :: [extract_line (lit "  ") (lit "obsId"); comment;
                        sub_get (λ _, false) (lit "obsId") 0 derive_line]
                    ++ block ++ call :: out).
Proof.
  apply (fix_submit_response_keeps_the_derivation_block (λ _, false) [] []
           (lit "  let obsId = await observationService.submit(data);")
           (lit "  // Derive violations (as done by API)")
           (lit "  const _obs_a = await observationService.getById(a);")
           [lit "  if (_obs_a && _obs_a.parkingPositionId) {"]
           (lit "    await violationService.deriveFromObservation(_obs_a, p, 'u');")
           [lit "  }"] (lit "  ") (lit "let") (lit "obsId"));
    [constructor | by vm_compute | by vm_compute | by vm_compute
     | | by vm_compute | by vm_compute].
  repeat constructor; by vm_compute.
Defined.

Lemma fix_submit_response_changes_its_output_again_witness :
  ∃ once twice,
    transform (λ _, false)
      (lit "var myObsId = await observationService.submit(1);")
    = Returned once
    ∧ transform (λ _, false) once = Returned twice
    ∧ twice ≠ once.
Proof.
  apply fix_submit_response_changes_its_output_again.
  apply Exists_cons_hd. vm_compute. by eexists.
Defined.

Lemma both_scripts_read_the_same_start_lines_witness :
  let x := lit "  const obsId = await observationService.submit({" in
  (re_match (AddDerivationsV2.SUBMIT_ASSIGN (λ _, false)) x = true
   ↔ is_Some (groups (λ _, false) x))
  ∧ ∀ indent var_type var_name,
      groups (λ _, false) x = Some (indent, var_type, var_name) →
      indent = take_while isspace x
      ∧ AddDerivationsV2.var_name (λ _, false) x = var_name.
Proof.
  apply (both_scripts_read_the_same_start_lines (λ _, false)).
  intros c Hc. done.
Defined.

End FixSubmitResponseSamples.

(** ** fix-duplicate-obs.py: the blocks it renames *)

Section FixDuplicateObsFacts.

Import FixDuplicateObs Occurrences.

Variable ualnum : N → bool.

Local Abbreviation match_block := (FixDuplicateObs.match_block ualnum).
Local Abbreviation sub_block := (FixDuplicateObs.sub_block ualnum).
Local Abbreviation transform := (FixDuplicateObs.transform ualnum).
Local Abbreviation isword := (Re.isword ualnum).

(** A match is the opening text, a name and the closing text. *)
Lemma match_block_spec (s obs_var : str) (n : nat) :
  match_block s = Some (obs_var, n) →
  ∃ rest,
    s = BLOCK_OPEN ++ obs_var ++ BLOCK_CLOSE ++ rest
    ∧ obs_var ≠ [] ∧ Forall (λ c, isword c = true) obs_var
    ∧ n = length (BLOCK_OPEN ++ obs_var ++ BLOCK_CLOSE)
    ∧ rest = drop n s.
Proof.
  unfold FixDuplicateObs.match_block.
  destruct (startswith BLOCK_OPEN s) eqn:Hopen; [|done].
  apply startswith_prefix in Hopen as [s1 ->].
  rewrite drop_app_length.
  remember (take_while isword s1) as name eqn:Hname.
  destruct (bool_decide (name ≠ [])) eqn:Hne; [|done].
  apply bool_decide_eq_true in Hne. cbn [andb].
  destruct (startswith BLOCK_CLOSE (drop (length name) s1)) eqn:Hclose;
    [|done].
  apply startswith_prefix in Hclose as [rest Hrest].
  intros H. apply (inj Some) in H. apply pair_equal_spec in H as [<- <-].
  exists rest.
  assert (s1 = name ++ BLOCK_CLOSE ++ rest) as ->.
  { rewrite (take_while_length_split isword s1), <- Hname.
    by rewrite Hrest. }
  assert (length (BLOCK_OPEN ++ name ++ BLOCK_CLOSE)
          = length BLOCK_OPEN + length name + length BLOCK_CLOSE) as Hlen
    by (rewrite !length_app; lia).
  split_and!; [done | done | | done |].
  - rewrite Hname. apply take_while_Forall.
  - rewrite <- Hlen.
    rewrite <- (drop_app_length (BLOCK_OPEN ++ name ++ BLOCK_CLOSE) rest)
      at 1.
    by rewrite <- !(assoc_L (++)).
Qed.

Lemma match_block_intro (obs_var rest : str) :
  obs_var ≠ [] → Forall (λ c, isword c = true) obs_var →
  match_block (BLOCK_OPEN ++ obs_var ++ BLOCK_CLOSE ++ rest)
  = Some (obs_var,
          length BLOCK_OPEN + length obs_var + length BLOCK_CLOSE).
Proof.
  intros Hne Hword. unfold FixDuplicateObs.match_block.
  rewrite startswith_app, drop_app_length.
  assert (take_while isword (obs_var ++ BLOCK_CLOSE ++ rest) = obs_var)
    as ->.
  { change (BLOCK_CLOSE ++ rest)
      with (ch ")" :: drop 1 BLOCK_CLOSE ++ rest).
    by apply take_while_app_stop. }
  rewrite drop_app_length, bool_decide_eq_true_2 by done.
  by rewrite startswith_app.
Qed.

Lemma sub_block_skip (k : nat) (s : str) :
  sub_block k s = sub_block 0 (drop k s).
Proof.
  revert k. induction s as [|c s IH]; intros [|k]; try reflexivity.
  cbn [FixDuplicateObs.sub_block drop]. apply IH.
Qed.

Lemma sub_block_copy (x y : str) :
  (∀ j, j < length x → match_block (drop j x ++ y) = None) →
  sub_block 0 (x ++ y) = x ++ sub_block 0 y.
Proof.
  induction x as [|c x IH]; intros Hx; [done|].
  cbn [app FixDuplicateObs.sub_block].
  pose proof (Hx 0 ltac:(simpl; lia)) as H0. rewrite drop_0 in H0.
  cbn [app] in H0. rewrite H0. f_equal. apply IH.
  intros j Hj. apply (Hx (S j)). simpl. lia.
Qed.

Lemma sub_block_match (s obs_var : str) (n : nat) :
  match_block s = Some (obs_var, n) →
  sub_block 0 s = replace_derive_block obs_var ++ sub_block 0 (drop n s).
Proof.
  intros Hm. pose proof Hm as Hspec.
  apply match_block_spec in Hspec as (rest & Hs & _ & _ & Hn & _).
  destruct s as [|c s]; [done|].
  cbn [FixDuplicateObs.sub_block]. rewrite Hm, sub_block_skip.
  assert (0 < n) as Hpos.
  { rewrite Hn, !length_app. simpl. lia. }
  replace n with (S (n - 1)) at 2 by lia. done.
Qed.

Lemma sub_block_block (obs_var rest : str) :
  obs_var ≠ [] → Forall (λ c, isword c = true) obs_var →
  sub_block 0 (BLOCK_OPEN ++ obs_var ++ BLOCK_CLOSE ++ rest)
  = replace_derive_block obs_var ++ sub_block 0 rest.
Proof.
  intros Hne Hword.
  rewrite (sub_block_match _ _ _ (match_block_intro _ rest Hne Hword)).
  f_equal. f_equal.
  replace (length BLOCK_OPEN + length obs_var + length BLOCK_CLOSE)
    with (length (BLOCK_OPEN ++ obs_var ++ BLOCK_CLOSE))
    by (rewrite !length_app; lia).
  rewrite <- (drop_app_length (BLOCK_OPEN ++ obs_var ++ BLOCK_CLOSE) rest)
    at 2.
  by rewrite <- !(assoc_L (++)).
Qed.

Lemma sub_block_absent (s : str) :
  contains BLOCK_OPEN s = false → sub_block 0 s = s.
Proof.
  induction s as [|c s IH]; [done|]. cbn [contains].
  intros [Hhead Hrest]%orb_false_iff. cbn [FixDuplicateObs.sub_block].
  unfold FixDuplicateObs.match_block. rewrite Hhead. by rewrite IH.
Qed.

(** No match starts in a text without the opening text before a block. *)
Lemma no_block_before (pre z : str) j :
  contains BLOCK_OPEN pre = false → j < length pre →
  match_block (drop j pre ++ BLOCK_OPEN ++ z) = None.
Proof.
  intros Hpre Hj. unfold FixDuplicateObs.match_block.
  destruct (startswith BLOCK_OPEN (drop j pre ++ BLOCK_OPEN ++ z)) eqn:E;
    [|done].
  apply match_before_occurrence in E; [| by vm_compute |].
  - apply startswith_prefix in E as [w Hw].
    assert (contains BLOCK_OPEN (drop j pre) = true) as Hin
      by (apply contains_occurs; by exists [], w).
    apply (contains_app_r _ (take j pre)) in Hin.
    rewrite take_drop in Hin. congruence.
  - intros Hnil. apply (f_equal length) in Hnil.
    rewrite length_drop in Hnil. simpl in Hnil. lia.
Qed.

(** X23.  fix-duplicate-obs.py, lines 20 to 35: a file in which the
    opening of the block, the comment line and the declaration of [obs]
    up to the argument of [getById], does not occur is left as it
    is. *)
Theorem fix_duplicate_obs_keeps_other_files (content : str) :
  contains BLOCK_OPEN content = false → transform content = content.
Proof. apply sub_block_absent. Qed.

(** X24.  fix-duplicate-obs.py, lines 20 to 35, with lines 46 to 52 of
    add-derivations-v2.py and lines 7 to 13 of add-violation-derivation.py:
    the blocks that the two derivation scripts insert are the texts the
    pattern matches, and a block for the variable [v] becomes the block
    with [_obs_v] and [_pos_v] for [obs] and [position]; the text before
    it, when the opening of the block is not in it, is kept and the text
    after it is transformed on its own. *)
Theorem fix_duplicate_obs_renames_the_inserted_block (pre v post : str) :
  contains BLOCK_OPEN pre = false →
  v ≠ [] → Forall (λ c, isword c = true) v →
  writelines (AddDerivationsV2.derivation v)
  = [NL] ++ BLOCK_OPEN ++ v ++ BLOCK_CLOSE ++ [NL]
  ∧ AddViolationDerivation.derivation_code
    = [NL] ++ BLOCK_OPEN ++ lit "observationId" ++ BLOCK_CLOSE
  ∧ transform (pre ++ BLOCK_OPEN ++ v ++ BLOCK_CLOSE ++ post)
    = pre ++ replace_derive_block v ++ transform post.
Proof.
  intros Hpre Hne Hword. split_and!.
  - unfold writelines, AddDerivationsV2.derivation, BLOCK_OPEN, BLOCK_CLOSE.
    cbn [concat]. by rewrite <- !(assoc_L (++)).
  - reflexivity.
  - unfold FixDuplicateObs.transform.
    rewrite sub_block_copy by (intros j Hj; by apply no_block_before).
    by rewrite sub_block_block.
Qed.

End FixDuplicateObsFacts.

(** ** fix-duplicate-obs.py: a second run changes nothing *)

Section FixDuplicateObsIdempotence.

Import FixDuplicateObs FixDuplicateObsRef Occurrences.

Variable ualnum : N → bool.

Local Abbreviation match_block := (FixDuplicateObs.match_block ualnum).
Local Abbreviation sub_block := (FixDuplicateObs.sub_block ualnum).
Local Abbreviation transform := (FixDuplicateObs.transform ualnum).
Local Abbreviation isword := (Re.isword ualnum).

Lemma replace_derive_block_join (v : str) :
  replace_derive_block v = join v pieces.
Proof.
  unfold replace_derive_block, pieces. cbn [join].
  by rewrite <- !(assoc_L (++)).
Qed.

Lemma replace_derive_block_open (v : str) :
  ∃ more, replace_derive_block v = RENAMED_OPEN ++ more.
Proof.
  eexists. unfold replace_derive_block, RENAMED_OPEN.
  rewrite <- !(assoc_L (++)). reflexivity.
Qed.

Lemma startswith_lookup (p s : str) (k : nat) (c : N) :
  startswith p s = true → p !! k = Some c → s !! k = Some c.
Proof.
  intros [t ->]%startswith_prefix Hk. by apply lookup_app_l_Some.
Qed.

Lemma word_at_word (p : str) (k : nat) (c : N) :
  p !! k = Some c → isword c = true → word_at p k = true.
Proof.
  intros Hk Hc. unfold word_at. rewrite Hk. unfold Re.isword in Hc.
  destruct (c <? 128)%N eqn:E.
  - by rewrite Hc, orb_true_r.
  - apply N.ltb_ge in E. apply N.leb_le in E. by rewrite E.
Qed.

(** A text that [mid_ok] passes, before a word character. *)
Lemma mid_ok_start (p u : str) (c : N) (r : str) :
  mid_ok p u = true → isword c = true →
  startswith p (u ++ c :: r) = false.
Proof.
  unfold mid_ok. intros [Hlong Hshort]%andb_true_iff Hc.
  apply negb_true_iff in Hlong.
  destruct (startswith p (u ++ c :: r)) eqn:E; [|done].
  destruct (decide (length p ≤ length u)) as [Hle|Hgt].
  { rewrite startswith_app_long in E by done. congruence. }
  destruct (startswith_app_short p u (c :: r)) as [Hup _]; [lia | done |].
  rewrite Hup in Hshort. cbn [negb orb] in Hshort.
  apply negb_true_iff in Hshort.
  destruct (lookup_lt_is_Some_2 p (length u)) as [d Hd]; [lia|].
  pose proof (startswith_lookup _ _ _ _ E Hd) as Hd'.
  rewrite lookup_app_r, Nat.sub_diag in Hd' by lia.
  injection Hd' as <-.
  by rewrite (word_at_word _ _ _ Hd Hc) in Hshort.
Qed.

Lemma end_ok_start (p u z : str) :
  end_ok p u = true → startswith p (u ++ z) = false.
Proof.
  unfold end_ok. intros H%negb_true_iff.
  destruct (startswith p (u ++ z)) eqn:E; [|done].
  apply compatible_of_startswith_app in E. congruence.
Qed.

(** No occurrence of [p] starts in texts set between copies of a
    name. *)
Lemma no_start_in_join (p v z : str) :
  v ≠ [] → Forall (λ c, isword c = true) v →
  mid_ok p [] = true →
  ∀ ps, pieces_ok p ps = true →
  ∀ j, j < length (join v ps) →
       startswith p (drop j (join v ps ++ z)) = false.
Proof.
  intros Hne Hword Hnil ps.
  induction ps as [|a ps IH]; intros Hok j Hj; [simpl in Hj; lia|].
  cbn [pieces_ok] in Hok. destruct ps as [|b ps].
  - cbn [join] in *. rewrite forallb_forall in Hok.
    rewrite drop_app_le by lia. apply end_ok_start.
    apply Hok, in_seq. lia.
  - apply andb_true_iff in Hok as [Ha Hok]. rewrite forallb_forall in Ha.
    change (join v (a :: b :: ps)) with (a ++ v ++ join v (b :: ps)) in *.
    rewrite !length_app in Hj. rewrite <- !(assoc_L (++)).
    destruct (decide (j < length a)) as [Hja|Hja].
    { rewrite drop_app_le by lia.
      destruct v as [|c v']; [done|]. cbn [app].
      apply mid_ok_start; [|by inversion Hword].
      apply Ha, in_seq. lia. }
    rewrite drop_app_ge by lia.
    destruct (decide (j - length a < length v)) as [Hjv|Hjv].
    { rewrite drop_app_le by lia.
      apply (Forall_drop _ (j - length a)) in Hword.
      destruct (drop (j - length a) v) as [|c v'] eqn:Ev.
      { apply (f_equal length) in Ev. rewrite length_drop in Ev.
        simpl in Ev. lia. }
      apply (mid_ok_start p [] c); [done | by inversion Hword]. }
    rewrite drop_app_ge by lia.
    apply IH; [done | lia].
Qed.

(** No match starts in a renamed block. *)
Lemma no_block_in_renamed (v z : str) j :
  v ≠ [] → Forall (λ c, isword c = true) v →
  j < length (replace_derive_block v) →
  match_block (drop j (replace_derive_block v) ++ z) = None.
Proof.
  intros Hne Hword Hj. unfold FixDuplicateObs.match_block.
  rewrite <- drop_app_le by lia.
  rewrite replace_derive_block_join in *.
  rewrite (no_start_in_join BLOCK_OPEN v z Hne Hword); [done | | | done];
    by vm_compute.
Qed.

Lemma take_while_before (p : N → bool) (u : str) (c : N) (r : str) :
  p c = false → take_while p (u ++ c :: r) = take_while p u.
Proof.
  intros Hc. induction u as [|d u IH]; simpl; [by rewrite Hc|].
  destruct (p d); [by rewrite IH | done].
Qed.

Lemma take_while_length_le (p : N → bool) (u : str) :
  length (take_while p u) ≤ length u.
Proof.
  induction u as [|d u IH]; simpl; [done|].
  destruct (p d); simpl; lia.
Qed.

(** A match that starts before a renamed block is a match before the
    block as it was. *)
Lemma match_before_renamed (x v y z : str) :
  x ≠ [] →
  is_Some (match_block (x ++ replace_derive_block v ++ z)) →
  is_Some (match_block (x ++ BLOCK_OPEN ++ v ++ BLOCK_CLOSE ++ y)).
Proof.
  intros Hx. destruct (replace_derive_block_open v) as [more ->].
  rewrite <- !(assoc_L (++)).
  unfold FixDuplicateObs.match_block.
  destruct (startswith BLOCK_OPEN (x ++ RENAMED_OPEN ++ more ++ z)) eqn:E;
    [|by intros [? ?]].
  apply match_before_apart in E; [| by vm_compute | done].
  rewrite (startswith_app_l _ _ _ E).
  apply startswith_prefix in E as [x' ->].
  rewrite <- !(assoc_L (++)), !drop_app_length.
  change (RENAMED_OPEN ++ more ++ z)
    with (ch " " :: drop 1 RENAMED_OPEN ++ more ++ z).
  change (BLOCK_OPEN ++ v ++ BLOCK_CLOSE ++ y)
    with (ch " " :: drop 1 BLOCK_OPEN ++ v ++ BLOCK_CLOSE ++ y).
  rewrite !take_while_before by (by vm_compute).
  pose proof (take_while_length_le isword x') as Hlen.
  destruct (bool_decide (take_while isword x' ≠ [])); [|by intros [? ?]].
  cbn [andb]. rewrite !drop_app_le by done.
  change (ch " " :: drop 1 RENAMED_OPEN ++ more ++ z)
    with (RENAMED_OPEN ++ more ++ z).
  destruct (drop (length (take_while isword x')) x') as [|d x''] eqn:Ex.
  - cbn [app].
    destruct (startswith BLOCK_CLOSE (RENAMED_OPEN ++ more ++ z)) eqn:E;
      [|by intros [? ?]].
    apply compatible_of_startswith_app in E. by vm_compute in E.
  - destruct (startswith BLOCK_CLOSE ((d :: x'') ++ RENAMED_OPEN ++ more ++ z))
      eqn:E; [|by intros [? ?]].
    apply match_before_apart in E; [| by vm_compute | done].
    by rewrite (startswith_app_l _ _ _ E).
Qed.

(** A text has no match, or a first one. *)
Lemma sub_block_split (s : str) :
  (∀ j, j < length s → match_block (drop j s) = None)
  ∨ ∃ x v y,
      s = x ++ BLOCK_OPEN ++ v ++ BLOCK_CLOSE ++ y
      ∧ v ≠ [] ∧ Forall (λ c, isword c = true) v
      ∧ ∀ j, j < length x → match_block (drop j s) = None.
Proof.
  induction s as [|c s IH]; [left; intros j Hj; simpl in Hj; lia|].
  destruct (match_block (c :: s)) as [[v n]|] eqn:Hm.
  - right. apply match_block_spec in Hm as (rest & Hs & Hne & Hv & _).
    exists [], v, rest. split_and!; [done | done | done |].
    intros j Hj. simpl in Hj. lia.
  - destruct IH as [Hno|(x & v & y & -> & Hne & Hv & Hno)].
    + left. intros [|j] Hj; [done|]. apply Hno. simpl in Hj. lia.
    + right. exists (c :: x), v, y. split_and!; [done | done | done |].
      intros [|j] Hj; [done|]. apply Hno. simpl in Hj. lia.
Qed.

(** X25.  fix-duplicate-obs.py, lines 20 to 35: the script is idempotent;
    running it on its own output changes nothing, whatever the file
    holds. *)
Theorem fix_duplicate_obs_idempotent (content : str) :
  transform (transform content) = transform content.
Proof.
  unfold FixDuplicateObs.transform.
  remember (length content) as n eqn:Hn. revert content Hn.
  induction n as [n IH] using lt_wf_ind. intros s Hn.
  destruct (sub_block_split s) as [Hno|(x & v & y & -> & Hne & Hv & Hno)].
  - assert (sub_block 0 s = s) as Hs; [|by rewrite !Hs].
    rewrite <- (app_nil_r s) at 1.
    rewrite sub_block_copy; [by rewrite app_nil_r|].
    intros j Hj. rewrite app_nil_r. by apply Hno.
  - assert (sub_block 0 (x ++ BLOCK_OPEN ++ v ++ BLOCK_CLOSE ++ y)
            = x ++ replace_derive_block v ++ sub_block 0 y) as ->.
    { rewrite sub_block_copy.
      - by rewrite sub_block_block.
      - intros j Hj. rewrite <- drop_app_le by lia. by apply Hno. }
    rewrite sub_block_copy.
    + f_equal. rewrite sub_block_copy.
      * f_equal. apply (IH (length y)); [|done].
        subst n. rewrite !length_app. unfold BLOCK_OPEN. simpl. lia.
      * intros j Hj. by apply no_block_in_renamed.
    + intros j Hj.
      destruct (match_block (drop j x ++ replace_derive_block v
                               ++ sub_block 0 y)) eqn:E; [|done].
      destruct (match_before_renamed (drop j x) v y (sub_block 0 y))
        as [m Hm].
      * intros Hnil. apply (f_equal length) in Hnil.
        rewrite length_drop in Hnil. simpl in Hnil. lia.
      * by rewrite E.
      * rewrite <- drop_app_le in Hm by lia. rewrite Hno in Hm; done.
Qed.

End FixDuplicateObsIdempotence.

(** ** simple-fix.py: the loop is the walk *)

Section SimpleFixFacts.

Import SimpleFix SimpleFixRef.

Variable ualnum : N → bool.

Lemma sf_walk_Scan_cons x xs :
  walk Scan (x :: xs) =
  x :: (if contains RESULT_CALL x then walk (InCall x) xs else walk Scan xs).
Proof. reflexivity. Qed.

Lemma sf_walk_InCall_cons p x xs :
  walk (InCall p) (x :: xs) =
  if contains TERMINATOR p then
    if contains EXTRACTED x then walk Scan (x :: xs)
    else extraction_line p :: walk Scan (x :: xs)
  else x :: walk (InCall x) xs.
Proof. reflexivity. Qed.

Lemma sf_scan_body_step lines i res l :
  lines !! S i = Some l →
  scan_body lines (State i res) = Returned (State (S i) (res ++ [l])).
Proof. intros Hl. unfold scan_body. cbn. by rewrite (index_Some _ _ _ Hl). Qed.

(** The scan of lines 39 to 41 stops at the last line of the call and has
    appended the lines of the call. *)
Lemma sf_scan_run lines fuel : ∀ i res p,
  lines !! i = Some p → length lines - i ≤ fuel →
  ∃ j q, i ≤ j ∧ lines !! j = Some q
    ∧ while fuel (scan_cond lines) (scan_body lines) (State i res)
      = Returned (State j (res ++ take (j - i) (drop (S i) lines)))
    ∧ (S j < length lines → contains TERMINATOR q = true)
    ∧ take (j - i) (drop (S i) lines) ++ walk (InCall q) (drop (S j) lines)
      = walk (InCall p) (drop (S i) lines).
Proof.
  induction fuel as [|fuel IH]; intros i res p Hp Hfuel.
  { apply lookup_lt_Some in Hp. lia. }
  cbn [while]. unfold scan_cond at 1. cbn [SimpleFix.i]. rewrite Hp.
  pose proof (lookup_lt_Some _ _ _ Hp) as Hi.
  destruct (decide (i < length lines - 1)) as [Hlt|Hge].
  - rewrite bool_decide_true by done. cbn [andb].
    destruct (contains TERMINATOR p) eqn:Hterm; cbn [negb].
    + exists i, p. replace (i - i) with 0 by lia.
      rewrite take_0, app_nil_r. split_and!; done.
    + destruct (index_lt lines (S i) ltac:(lia)) as (l & Hl & Hidx).
      rewrite (sf_scan_body_step _ _ _ _ Hl), bind_Returned.
      destruct (IH (S i) (res ++ [l]) l Hl ltac:(lia))
        as (j & q & Hij & Hq & Hrun & Hstop & Hwalk).
      exists j, q. rewrite Hrun.
      rewrite (drop_lookup_cons _ _ _ Hl).
      replace (j - i) with (S (j - S i)) by lia. cbn [take].
      split_and!; [lia | done | by rewrite <- app_assoc | done |].
      rewrite sf_walk_InCall_cons, Hterm. cbn [app]. by rewrite Hwalk.
  - rewrite bool_decide_false by done. cbn [andb].
    exists i, p. replace (i - i) with 0 by lia.
    rewrite take_0, app_nil_r. split_and!; [lia | done | done | lia | done].
Qed.

Lemma sf_main_body_step fuel0 lines i res x :
  lines !! i = Some x →
  main_body fuel0 lines (State i res) =
  if contains RESULT_CALL x then
    st1 ← while fuel0 (scan_cond lines) (scan_body lines)
            (State i (res ++ [x]));
    if bool_decide (SimpleFix.i st1 + 1 < length lines) then
      next ← index lines (SimpleFix.i st1 + 1);
      if negb (contains EXTRACTED next) then
        last ← index lines (SimpleFix.i st1);
        mret (State (S (SimpleFix.i st1))
                (new_lines st1 ++ [take_while isspace last ++ EXTRACTION]))
      else mret (State (S (SimpleFix.i st1)) (new_lines st1))
    else mret (State (S (SimpleFix.i st1)) (new_lines st1))
  else mret (State (S i) (res ++ [x])).
Proof.
  intros Hx. unfold main_body. cbn [SimpleFix.i new_lines].
  by rewrite (index_Some _ _ _ Hx), bind_Returned.
Qed.

(** Lines 34 to 52 compute the walk. *)
Lemma sf_main_run lines fuel0 (Hfuel0 : length lines ≤ fuel0) :
  ∀ fuel i res, length lines - i < fuel →
  ∃ k, while fuel (main_cond lines) (main_body fuel0 lines) (State i res)
       = Returned (State k (res ++ walk Scan (drop i lines))).
Proof.
  induction fuel as [|fuel IH]; intros i res Hfuel; [lia|].
  cbn [while]. unfold main_cond at 1. cbn [SimpleFix.i].
  destruct (decide (i < length lines)) as [Hlt|Hge].
  2:{ rewrite bool_decide_false by done. exists i.
      by rewrite drop_ge, app_nil_r by lia. }
  rewrite bool_decide_true by done.
  destruct (index_lt lines i Hlt) as (x & Hx & Hidx).
  rewrite (sf_main_body_step _ _ _ _ _ Hx).
  rewrite (drop_lookup_cons _ _ _ Hx), sf_walk_Scan_cons.
  destruct (contains RESULT_CALL x).
  2:{ rewrite bind_Returned.
      destruct (IH (S i) (res ++ [x])) as [k Hk]; [lia|].
      exists k. by rewrite Hk, <- app_assoc. }
  destruct (sf_scan_run lines fuel0 i (res ++ [x]) x Hx ltac:(lia))
    as (j & q & Hij & Hq & Hrun & Hstop & Hwalk).
  rewrite Hrun, bind_Returned. cbn [SimpleFix.i new_lines].
  rewrite <- Hwalk. replace (j + 1) with (S j) by lia.
  pose proof (lookup_lt_Some _ _ _ Hq) as Hj.
  destruct (decide (S j < length lines)) as [Hnext|Hlast].
  2:{ rewrite bool_decide_false by done. rewrite bind_Returned.
      destruct (IH (S j) ((res ++ [x]) ++ take (j - i) (drop (S i) lines)))
        as [k Hk]; [lia|].
      exists k. rewrite Hk. rewrite (drop_ge lines (S j)) by lia.
      change (walk Scan []) with (@nil str).
      change (walk (InCall q) []) with (@nil str).
      by rewrite <- !app_assoc. }
  rewrite bool_decide_true by done.
  destruct (index_lt lines (S j) Hnext) as (next & Hn & Hnidx).
  rewrite (index_Some _ _ _ Hn), bind_Returned.
  rewrite (drop_lookup_cons _ _ _ Hn), sf_walk_InCall_cons.
  rewrite (Hstop Hnext). rewrite <- (drop_lookup_cons _ _ _ Hn).
  destruct (contains EXTRACTED next); cbn [negb].
  - rewrite bind_Returned.
    destruct (IH (S j) ((res ++ [x]) ++ take (j - i) (drop (S i) lines)))
      as [k Hk]; [lia|].
    exists k. rewrite Hk. by rewrite <- !app_assoc.
  - rewrite (index_Some _ _ _ Hq), !bind_Returned.
    destruct (IH (S j) (((res ++ [x]) ++ take (j - i) (drop (S i) lines))
                          ++ [take_while isspace q ++ EXTRACTION]))
      as [k Hk]; [lia|].
    exists k. rewrite Hk. by rewrite <- !app_assoc.
Qed.

Lemma sf_insert_extractions_walk lines fuel :
  length lines < fuel →
  insert_extractions fuel lines = Returned (walk Scan lines).
Proof.
  intros Hfuel. unfold insert_extractions.
  destruct (sf_main_run lines fuel ltac:(lia) fuel 0 []) as [k Hk]; [lia|].
  by rewrite Hk.
Qed.

(** Putting a text in the place of itself changes nothing. *)
Lemma replace_from_same (old s : str) :
  old ≠ [] → replace_from old old 0 s = s.
Proof.
  intros Hold. remember (length s) as n eqn:Hn. revert s Hn.
  induction n as [n IH] using lt_wf_ind. intros s Hn.
  destruct (replace_from_split old old s Hold)
    as [Hfree|(x & y & -> & Hx & ->)].
  - by apply replace_from_absent.
  - do 2 f_equal. apply (IH (length y)); [|done].
    subst n. rewrite !length_app. destruct old; [done | simpl; lia].
Qed.

Lemma sf_transform_walk content :
  transform ualnum content
  = Returned (rename_temporaries ualnum
                (join [NL] (walk Scan (split NL content)))).
Proof.
  unfold transform, transform_with.
  assert (replace CONST_RESULT_CALL CONST_RESULT_CALL content = content)
    as -> by (by apply replace_from_same).
  by rewrite sf_insert_extractions_walk by lia.
Qed.

Lemma sf_walk_copy (pre rest : list str) :
  Forall (λ l, contains RESULT_CALL l = false) pre →
  walk Scan (pre ++ rest) = pre ++ walk Scan rest.
Proof.
  induction 1 as [|l pre Hl Hpre IH]; [done|].
  cbn [app]. rewrite sf_walk_Scan_cons, Hl. by rewrite IH.
Qed.

Lemma last_of_cons (p l : str) (more : list str) :
  last_of p (l :: more) = last_of l more.
Proof.
  unfold last_of. revert p l.
  induction more as [|m more IH]; intros p l; [done|].
  change (List.last (l :: m :: more) p) with (List.last (m :: more) p).
  by rewrite (IH p m), (IH l m).
Qed.

(** The walk over a call that closes, and the line after it. *)
Lemma sf_walk_closed (next : str) (rest : list str) : ∀ more p,
  closes_last p more = true →
  walk (InCall p) (more ++ next :: rest)
  = more
      ++ (if contains EXTRACTED next then []
          else [extraction_line (last_of p more)])
      ++ walk Scan (next :: rest).
Proof.
  induction more as [|l more IH]; intros p Hp; cbn [closes_last] in Hp.
  - cbn [app]. rewrite sf_walk_InCall_cons, Hp.
    by destruct (contains EXTRACTED next).
  - apply andb_true_iff in Hp as [Hopen Hp]. apply negb_true_iff in Hopen.
    cbn [app]. rewrite sf_walk_InCall_cons, Hopen.
    by rewrite IH, last_of_cons.
Qed.

(** The walk over a call that reaches the end of the file. *)
Lemma sf_walk_to_end : ∀ more p,
  (∀ k l, k < length more → (p :: more) !! k = Some l →
          contains TERMINATOR l = false) →
  walk (InCall p) more = more.
Proof.
  induction more as [|l more IH]; intros p Hopen; [done|].
  rewrite sf_walk_InCall_cons.
  rewrite (Hopen 0 p) by (simpl; lia || done).
  f_equal. apply IH. intros k l' Hk Hl'.
  apply (Hopen (S k) l'); [simpl; lia | done].
Qed.

(** X26.  simple-fix.py, lines 22 to 85: the loops of the script end on
    every file, and its first substitution, of lines 22 to 26, changes no
    file: it puts a text in the place of the same text. *)
Theorem simple_fix_returns (content : str) :
  (∃ out, transform ualnum content = Returned out)
  ∧ replace CONST_RESULT_CALL CONST_RESULT_CALL content = content.
Proof.
  split; [eexists; apply sf_transform_walk|].
  by apply replace_from_same.
Qed.

(** X27.  simple-fix.py, lines 34 to 52: after the first call of a file,
    when the call closes and a line follows it, the loop adds the
    extraction line with the blanks that open the last line of the call,
    unless that one line after the call has the text of the extraction
    already; the line after the call and the rest are rewritten on their
    own. *)
Theorem simple_fix_extracts_after_the_call
    (pre more : list str) (x next : str) (rest : list str) :
  Forall (λ l, contains RESULT_CALL l = false) pre →
  contains RESULT_CALL x = true →
  closes_last x more = true →
  let lines := pre ++ x :: more ++ next :: rest in
  ∃ out,
    insert_extractions (S (length (next :: rest))) (next :: rest)
    = Returned out
    ∧ insert_extractions (S (length lines)) lines
      = Returned (pre ++ x :: more
                    ++ (if contains EXTRACTED next then []
                        else [extraction_line (last_of x more)])
                    ++ out).
Proof.
  intros Hpre Hx Hclosed lines. exists (walk Scan (next :: rest)).
  rewrite !sf_insert_extractions_walk by lia. split; [done|].
  unfold lines. rewrite sf_walk_copy by done.
  rewrite sf_walk_Scan_cons, Hx. by rewrite sf_walk_closed.
Qed.

(** X28.  simple-fix.py, lines 34 to 52: a call that reaches the last
    line of the file, closed there or not at all, gets no extraction
    line; the loop gives back the lines as they are. *)
Theorem simple_fix_leaves_a_call_at_the_end
    (pre more : list str) (x : str) :
  Forall (λ l, contains RESULT_CALL l = false) pre →
  contains RESULT_CALL x = true →
  (∀ k l, k < length more → (x :: more) !! k = Some l →
          contains TERMINATOR l = false) →
  let lines := pre ++ x :: more in
  insert_extractions (S (length lines)) lines = Returned lines.
Proof.
  intros Hpre Hx Hopen lines.
  rewrite sf_insert_extractions_walk by lia.
  unfold lines. rewrite sf_walk_copy by done.
  rewrite sf_walk_Scan_cons, Hx. by rewrite sf_walk_to_end.
Qed.

Lemma extraction_line_extracted (p : str) :
  contains EXTRACTED (extraction_line p) = true.
Proof.
  unfold extraction_line. apply contains_app_r. by vm_compute.
Qed.

Lemma extraction_line_no_call (p : str) :
  contains RESULT_CALL (extraction_line p) = false.
Proof.
  unfold extraction_line.
  assert (Forall (λ c, c ≠ ch "r") (take_while isspace p)) as Hind.
  { eapply Forall_impl; [apply take_while_Forall|].
    intros c Hc ->. by vm_compute in Hc. }
  induction Hind as [|c u Hc Hu IH]; [by vm_compute|].
  cbn [app contains]. rewrite IH, orb_false_r.
  change RESULT_CALL
    with (ch "r" :: lit "esult = await observationService.submit(").
  apply startswith_head_ne. congruence.
Qed.

(** A second walk changes nothing. *)
Lemma sf_walk_idempotent : ∀ lines m, walk m (walk m lines) = walk m lines.
Proof.
  induction lines as [|x xs IH]; intros m; [done|].
  assert (walk Scan (walk Scan (x :: xs)) = walk Scan (x :: xs)) as Hscan.
  { rewrite !sf_walk_Scan_cons.
    destruct (contains RESULT_CALL x); by rewrite IH. }
  destruct m as [|p]; [done|].
  rewrite sf_walk_InCall_cons.
  destruct (contains TERMINATOR p) eqn:Hterm.
  - destruct (contains EXTRACTED x) eqn:Hex.
    + rewrite sf_walk_Scan_cons at 1.
      rewrite sf_walk_InCall_cons, Hterm, Hex.
      rewrite <- sf_walk_Scan_cons. exact Hscan.
    + rewrite sf_walk_InCall_cons, Hterm, extraction_line_extracted.
      rewrite sf_walk_Scan_cons, extraction_line_no_call.
      by rewrite Hscan.
  - rewrite sf_walk_InCall_cons, Hterm. by rewrite IH.
Qed.

(** X29.  simple-fix.py, lines 29 to 54: the loop is idempotent.  The
    extraction line it adds after a call keeps it from adding another:
    on its own output it gives the lines back as they are. *)
Theorem simple_fix_extracts_once (lines : list str) :
  ∃ out,
    insert_extractions (S (length lines)) lines = Returned out
    ∧ insert_extractions (S (length out)) out = Returned out.
Proof.
  exists (walk Scan lines).
  rewrite !sf_insert_extractions_walk by lia.
  by rewrite sf_walk_idempotent.
Qed.

Lemma match_holes_head (p : str) (ps : list str) (s : str) :
  is_Some (match_holes ualnum (p :: ps) s) → startswith p s = true.
Proof.
  cbn [match_holes]. destruct (startswith p s); [done | by intros [? ?]].
Qed.

Lemma sub_holes_absent (p : str) (ps : list str) (repl s : str) :
  contains p s = false → sub_holes ualnum (p :: ps) repl 0 s = s.
Proof.
  induction s as [|c s IH]; [done|]. cbn [contains].
  intros [Hhead Hrest]%orb_false_iff. cbn [sub_holes].
  destruct (match_holes ualnum (p :: ps) (c :: s)) as [n|] eqn:Hm.
  - rewrite (match_holes_head p ps (c :: s)) in Hhead; [done | by rewrite Hm].
  - by rewrite IH.
Qed.

Lemma contains_inside (a p s : str) :
  contains a p = true → contains a s = false → contains p s = false.
Proof.
  intros (u & v & ->)%contains_occurs Hs.
  destruct (contains (u ++ a ++ v) s) eqn:E; [|done].
  apply contains_occurs in E as (u' & v' & ->).
  assert (contains a (u' ++ (u ++ a ++ v) ++ v') = true) as Hin.
  { apply contains_occurs. exists (u' ++ u), (v ++ v').
    by rewrite <- !(assoc_L (++)). }
  congruence.
Qed.

(** A text without the temporaries is left as it is by lines 59 to
    83. *)
Lemma rename_temporaries_absent (content : str) :
  contains (lit "_obs_") content = false →
  contains (lit "_pos_") content = false →
  rename_temporaries ualnum content = content.
Proof.
  intros Hobs Hpos. unfold rename_temporaries.
  assert (replace GET_RESULT GET_OBSERVATION content = content) as ->.
  { change (replace GET_RESULT GET_OBSERVATION content)
      with (replace_from GET_RESULT GET_OBSERVATION 0 content).
    apply replace_from_absent.
    by apply (contains_inside (lit "_obs_") GET_RESULT content). }
  unfold IF_PARTS, POSITION_PARTS, DERIVE_PARTS.
  rewrite (sub_holes_absent (lit "if (_obs_"))
    by (by apply (contains_inside (lit "_obs_"))).
  rewrite (sub_holes_absent (lit "const _pos_"))
    by (by apply (contains_inside (lit "_pos_"))).
  apply sub_holes_absent.
  by apply (contains_inside (lit "_obs_")).
Qed.

Lemma sf_walk_absent (lines : list str) :
  Forall (λ l, contains RESULT_CALL l = false) lines →
  walk Scan lines = lines.
Proof.
  intros H. rewrite <- (app_nil_r lines) at 1.
  rewrite sf_walk_copy by done. apply app_nil_r.
Qed.

Lemma simple_fix_absent (content : str) :
  contains RESULT_CALL content = false →
  contains (lit "_obs_") content = false →
  contains (lit "_pos_") content = false →
  transform ualnum content = Returned content.
Proof.
  intros Hcall Hobs Hpos. rewrite sf_transform_walk.
  rewrite sf_walk_absent by (by apply split_free).
  rewrite join_split. by rewrite rename_temporaries_absent.
Qed.

End SimpleFixFacts.

(** ** Files without a submit call *)

Section NoSubmitCallFacts.

Variable ualnum : N → bool.

(** X13.  The rewriting of add-submitted-by.py, add-derivations-v2.py,
    add-violation-derivation.py, fix-submit-response.py, fix-tests.py and
    simple-fix.py: a file in which the text
    [await observationService.submit(] does not occur is written back as
    it is by each of them; by simple-fix.py when it has no [_obs_] and no
    [_pos_] either. *)
Theorem scripts_keep_files_without_submit_call (content : str) :
  contains (lit "await observationService.submit(") content = false →
  AddSubmittedBy.transform content = Returned content
  ∧ AddDerivationsV2.transform ualnum content = Returned content
  ∧ AddViolationDerivation.transform content = Returned content
  ∧ FixSubmitResponse.transform ualnum content = Returned content
  ∧ FixTests.transform content = content
  ∧ (contains (lit "_obs_") content = false →
     contains (lit "_pos_") content = false →
     SimpleFix.transform ualnum content = Returned content).
Proof.
  intros Hfree.
  assert (contains AddSubmittedBy.SUBMIT_OPEN content = false) as Hopen
    by (by apply (contains_inside (lit "await observationService.submit("))).
  split_and!.
  - by apply add_submitted_by_keeps_files.
  - by apply add_derivations_v2_keeps_files.
  - by apply add_violation_derivation_keeps_files.
  - by apply fix_submit_response_keeps_files.
  - unfold FixTests.transform.
    rewrite (sub_from_no_open (ch ",") _ content Hopen).
    apply (sub_from_no_open (ch ";") _ content Hopen).
  - intros Hobs Hpos. apply simple_fix_absent; [|done|done].
    by apply (contains_inside (lit "await observationService.submit(")).
Qed.

End NoSubmitCallFacts.

Lemma scripts_keep_files_without_submit_call_witness :
  let content := lit "const x = 1;" in
  AddSubmittedBy.transform content = Returned content
  ∧ AddDerivationsV2.transform (λ _, false) content = Returned content
  ∧ AddViolationDerivation.transform content = Returned content
  ∧ FixSubmitResponse.transform (λ _, false) content = Returned content
  ∧ FixTests.transform content = content
  ∧ (contains (lit "_obs_") content = false →
     contains (lit "_pos_") content = false →
     SimpleFix.transform (λ _, false) content = Returned content).
Proof.
  apply (scripts_keep_files_without_submit_call (λ _, false)).
  by vm_compute.
Defined.

(** ** The directory loop: what a run reports *)

Section DriverReportFacts.

Import Driver DriverRef.

Variable verbose : bool.
Variable final : str.
Variable f : str → outcome str.

(** What the run does for one file of the directory: the two messages of
    a script that prints them, around the reading and the writing. *)
Let report (files : gmap str str) (name : str) : list event :=
  let path := path_join test_dir name in
  match files !! path with
  | Some content =>
      match f content with
      | Returned content' =>
          (if verbose
           then [EvPrint (lit "Processing " ++ name ++ lit "...")] else [])
          ++ [EvRead path; EvWrite path content']
          ++ (if verbose then [EvPrint (lit "Completed " ++ name)] else [])
      | _ => []
      end
  | None => []
  end.

Lemma for_each_file_report (files0 : gmap str str) names : ∀ st st',
  NoDup names →
  (∀ name, name ∈ names →
           contents st !! path_join test_dir name
           = files0 !! path_join test_dir name) →
  for_each_file verbose f names st = Returned st' →
  trace st'
  = trace st
      ++ flat_map (report files0)
           (filter (λ n, endswith SUFFIX n = true) names).
Proof.
  induction names as [|n names IH]; intros st st' Hnodup Hsame Hrun.
  { apply Returned_eq in Hrun as <-. by rewrite app_nil_r. }
  apply NoDup_cons in Hnodup as [Hn Hnodup].
  cbn [for_each_file] in Hrun.
  destruct (endswith SUFFIX n) eqn:Hsuffix.
  - rewrite filter_cons_True by done. cbn [flat_map].
    unfold process_file in Hrun.
    pose proof (Hsame n ltac:(apply list_elem_of_here)) as Hn0.
    unfold report at 1. rewrite <- Hn0.
    destruct (contents st !! path_join test_dir n) as [content|]; [|done].
    destruct (f content) as [content'| |]; [|done|done].
    rewrite !bind_Returned in Hrun.
    apply IH in Hrun as Htrace; [| done |].
    + rewrite Htrace. cbn [trace]. by rewrite <- !(assoc_L (++)).
    + intros name Hname. cbn [contents].
      rewrite lookup_insert_ne.
      * apply Hsame. by apply list_elem_of_further.
      * intros Heq%path_join_test_dir_inj. by subst.
  - rewrite filter_cons_False by (by rewrite Hsuffix).
    rewrite bind_Returned in Hrun.
    apply (IH _ st' Hnodup); [|done].
    intros name Hname. apply Hsame. by apply list_elem_of_further.
Qed.

(** X30.  Lines 7 to 17 and the last lines of every script: when the
    listing names no file twice, a run does for every file with the
    suffix, in the order of the listing, a reading and a writing of the
    transformed content, between the messages [Processing] and [Completed]
    in the scripts that print them, and prints the final message last;
    it does nothing else. *)
Theorem run_reports_every_file (d : disk) (st : state) :
  NoDup (listing d) →
  run verbose final f d = Returned st →
  trace st
  = flat_map (λ name,
      let path := path_join test_dir name in
      match files d !! path with
      | Some content =>
          match f content with
          | Returned content' =>
              (if verbose
               then [EvPrint (lit "Processing " ++ name ++ lit "...")]
               else [])
              ++ [EvRead path; EvWrite path content']
              ++ (if verbose then [EvPrint (lit "Completed " ++ name)]
                  else [])
          | _ => []
          end
      | None => []
      end)
      (filter (λ n, endswith SUFFIX n = true) (listing d))
    ++ [EvPrint final].
Proof.
  unfold run. intros Hnodup Hrun.
  destruct (for_each_file verbose f (listing d) (State (files d) []))
    as [st1| |] eqn:Hloop; [|done|done].
  rewrite bind_Returned in Hrun. apply Returned_eq in Hrun as <-.
  cbn [trace].
  pose proof (for_each_file_report (files d) (listing d)
                (State (files d) []) st1 Hnodup (λ _ _, eq_refl) Hloop)
    as Htrace.
  cbn [trace app] in Htrace. by rewrite Htrace.
Qed.

End DriverReportFacts.

Lemma run_reports_every_file_witness :
  ∃ st,
    FixDuplicateObs.fix_duplicate_obs (λ _, false) Samples.plain_disk
    = Returned st
    ∧ Driver.trace st
      = [ Driver.EvPrint (lit "Processing plain.integration.test.ts...");
          Driver.EvRead Samples.plain_path;
          Driver.EvWrite Samples.plain_path (lit "const x = 1;");
          Driver.EvPrint (lit "Completed plain.integration.test.ts");
          Driver.EvPrint (lit "All files processed!") ].
Proof.
  eexists. split; [reflexivity|].
  etrans.
  - apply (run_reports_every_file true (lit "All files processed!")
             (λ content, mret (FixDuplicateObs.transform (λ _, false) content))
             Samples.plain_disk);
      [apply (bool_decide_unpack _); by vm_compute | reflexivity].
  - reflexivity.
Defined.

(** Inputs for the statements on fix-duplicate-obs.py and simple-fix.py. *)

Section LaterScriptsSamples.

Import FixDuplicateObs SimpleFix SimpleFixRef.

Lemma fix_duplicate_obs_keeps_other_files_witness :
  FixDuplicateObs.transform (λ _, false) (lit "const obs = 1;")
  = lit "const obs = 1;".
Proof. apply fix_duplicate_obs_keeps_other_files. by vm_compute. Defined.

Lemma fix_duplicate_obs_renames_the_inserted_block_witness :
  let v := lit "obsId" in
  writelines (AddDerivationsV2.derivation v)
  = [NL] ++ BLOCK_OPEN ++ v ++ BLOCK_CLOSE ++ [NL]
  ∧ AddViolationDerivation.derivation_code
    = [NL] ++ BLOCK_OPEN ++ lit "observationId" ++ BLOCK_CLOSE
  ∧ FixDuplicateObs.transform (λ _, false)
      ([NL] ++ BLOCK_OPEN ++ v ++ BLOCK_CLOSE ++ [NL])
    = [NL] ++ replace_derive_block v
        ++ FixDuplicateObs.transform (λ _, false) [NL].
Proof.
  apply (fix_duplicate_obs_renames_the_inserted_block (λ _, false)
           [NL] (lit "obsId") [NL]);
    [by vm_compute | done | apply (bool_decide_unpack _); by vm_compute].
Defined.

Lemma simple_fix_extracts_after_the_call_witness :
  let x := lit "  const result = await observationService.submit({" in
  let more := [lit "    a: 1"; lit "  });"] in
  let next := lit "  expect(result).toBeDefined();" in
  let lines := x :: more ++ [next] in
  ∃ out,
    insert_extractions (S (length [next])) [next] = Returned out
    ∧ insert_extractions (S (length lines)) lines
      = Returned (x :: more
                    ++ [extraction_line (last_of x more)] ++ out).
Proof.
  apply (simple_fix_extracts_after_the_call []
           [lit "    a: 1"; lit "  });"]
           (lit "  const result = await observationService.submit({")
           (lit "  expect(result).toBeDefined();") []);
    [constructor | by vm_compute | by vm_compute].
Defined.

Lemma simple_fix_leaves_a_call_at_the_end_witness :
  let lines := [lit "  const result = await observationService.submit({";
                lit "    a: 1"; lit "  });"] in
  insert_extractions (S (length lines)) lines = Returned lines.
Proof.
  apply (simple_fix_leaves_a_call_at_the_end []
           [lit "    a: 1"; lit "  });"]
           (lit "  const result = await observationService.submit({"));
    [constructor | by vm_compute |].
  intros [|[|k]] l Hk Hl; simpl in Hk; [| |lia];
    injection Hl as <-; by vm_compute.
Defined.

End LaterScriptsSamples.
